(** * OuteTTS v1 interface: a shallow embedding of
      [outetts/version/v1/interface.py] and the properties of its
      orchestration layer.

    The three interface classes ([InterfaceHF], [InterfaceGGUF],
    [InterfaceEXL2]) wire a prompt processor, a generation backend and an
    audio codec together.  The collaborators live in other modules of the
    package; here they are the fields of records, each one a function
    that either returns or raises.  What the interface itself does (the
    order of the calls, the length gate, the chunk buffer of the streaming
    generator, slicing of codec tokens per word, the speaker catalog and
    the JSON files of speaker profiles) is written out as the Python
    code has it. *)

From Stdlib Require Import ZArith QArith Qabs Qround Lqa List String Ascii Bool
  Lia.
From stdpp Require Import base gmap strings.
Import ListNotations.

Local Open Scope string_scope.
Local Open Scope list_scope.
Local Open Scope Z_scope.

(** ** Python values shared by the whole file *)

(** Exceptions that the interface raises itself or lets through. *)
Inductive exn : Type :=
| ValueError (msg : string)
| FileNotFoundError (path : string)
| JSONDecodeError (msg : string)
| OSError (msg : string)
| ZeroDivisionError
| IndexError
| RecursionError
| CollaboratorError (msg : string).

(** A call either returns a value or raises. *)
Inductive result (A : Type) : Type :=
| Ok (a : A)
| Raise (e : exn).
Arguments Ok {A} a.
Arguments Raise {A} e.

Definition is_ok {A} (r : result A) : bool :=
  match r with Ok _ => true | Raise _ => false end.

(** *** Text

    Python's [str] appears in two ways.  The names that the module
    compares and changes the case of (languages, speaker names), its
    paths and its messages are Rocq [string]s read as Latin-1: the
    characters are the code points 0 to 255.  The text that passes
    through (what is to be spoken, transcripts, words, prompts, the
    strings of a JSON value and the contents of files) is in any
    language: it is [str], the list of its code points. *)

Definition ascii_code (c : ascii) : Z := Z.of_N (N_of_ascii c).
Definition chr (n : Z) : ascii := ascii_of_N (Z.to_N n).

Definition str : Type := list Z.

(** [ord(c)] *)
Definition ord (c : ascii) : Z := ascii_code c.
Arguments ord c%_char.

(** A Latin-1 string as text. *)
Definition lit (s : string) : str := map ascii_code (list_ascii_of_string s).
Coercion lit : string >-> str.

(** Text whose characters are all below 256, as a string. *)
Definition string_of_codes (l : str) : string :=
  string_of_list_ascii (map chr l).

(** The code points of Unicode; a [str] holds no others. *)
Definition is_code_point (c : Z) : bool := (0 <=? c) && (c <? 0x110000).

(** [a == b] on two [str] *)
Fixpoint str_eqb (a b : str) : bool :=
  match a, b with
  | [], [] => true
  | x :: a', y :: b' => (x =? y) && str_eqb a' b'
  | _, _ => false
  end.

(** *** Decimal numerals *)

Definition is_digit (c : Z) : bool := (48 <=? c) && (c <=? 57).
Definition digit_value (c : Z) : Z := c - 48.
Definition digit_char (d : Z) : Z := 48 + d.

Fixpoint digits_fuel (fuel : nat) (n : Z) (acc : str) : str :=
  match fuel with
  | O => acc
  | S fuel' =>
      let acc' := digit_char (n mod 10) :: acc in
      if n <? 10 then acc' else digits_fuel fuel' (n / 10) acc'
  end.

(** Digits of a non-negative integer, most significant first. *)
Definition nat_digits (n : Z) : str :=
  digits_fuel (S (Z.to_nat (Z.log2 n))) n [].

(** [str(n)] for an [int], as text. *)
Definition int_digits (n : Z) : str :=
  if n <? 0 then ord "-" :: nat_digits (- n) else nat_digits n.

Definition str_of_int (n : Z) : string := string_of_codes (int_digits n).

(** The value of a run of decimal digits. *)
Definition digits_value (ds : str) : Z :=
  fold_left (fun acc c => 10 * acc + digit_value c) ds 0.

(** ** The environment of the module *)

(** The kinds of float that [json] tells apart. *)
Inductive float_kind : Type := FNaN | FPosInf | FNegInf | FFinite.

(** [float] and [Tensor] are Python's [float] and [torch.Tensor]; the
    interface only passes them around.  [GenExtra] and [DynExtra] are the
    opaque dictionaries [additional_gen_config] and
    [additional_dynamic_generator_config].  [ENABLE_PLAYBACK] and
    [BASE_DIR] are the two module-level values fixed at import time.
    Then come the operations of Python's [float] that the module uses,
    with the rational number that a finite float stands for, and the
    functions the module imports for speaker enrollment. *)
Class Env : Type := {
  float : Type;
  Tensor : Type;
  GenExtra : Type;
  DynExtra : Type;
  ENABLE_PLAYBACK : bool;
  BASE_DIR : string;
  (** [a / b] on two [int]s, [b] not zero *)
  int_truediv : Z -> Z -> float;
  (** [x * k] for a float and an [int] *)
  float_mul_int : float -> Z -> float;
  (** [round(x)], an [int] *)
  round_to_int : float -> Z;
  (** [round(x, ndigits)], a float *)
  round_ndigits : float -> Z -> float;
  (** nan, the infinities, or a finite number *)
  float_kind_of : float -> float_kind;
  (** the number that a finite float stands for *)
  float_value : float -> Q;
  float_nan : float;
  float_inf : float;
  float_neg_inf : float;
  (** [float.__repr__] on a finite number *)
  float_repr : float -> str;
  (** [float(s)] on a JSON number literal *)
  float_of_literal : str -> float;
  (** [whisper.transcribe.transcribe_once(audio_path, model, device)] *)
  transcribe_once : string -> string -> option string -> result str;
  (** [CTCForcedAlignment(languages, device).align(audio_path, transcript,
      language)]: per word, its text, its audio slice and the sample
      indices [x0], [x1] *)
  ctc_align : list string -> string -> str -> string ->
              result (list (str * Tensor * Z * Z));
  (** [ctc.sample_rate] *)
  ctc_sample_rate : Z;
  (** [torch.cat(tensors, dim=1)] *)
  torch_cat : list Tensor -> result Tensor
}.

(** JSON-shaped Python data: what [json.load] builds and what the speaker
    profiles are made of.  A [dict] keeps its insertion order. *)
#[warnings="-register-all"]
Inductive json `{Env} : Type :=
| JNull
| JBool (b : bool)
| JInt (n : Z)
| JFloat (x : float)
| JString (s : str)
| JArray (items : list json)
| JObject (fields : list (str * json)).

Section Runtime.
Context `{Env}.

Record GenerationConfig : Type := {
  temperature : float;
  repetition_penalty : float;
  max_length : option Z;
  additional_gen_config : GenExtra
}.

Record ModelOutput : Type := {
  audio : option Tensor;
  sr : Z;
  enable_playback : bool
}.

(** [ModelOutput(audio, sr)]: the third field takes its default. *)
Definition mkModelOutput (a : option Tensor) (rate : Z) : ModelOutput :=
  {| audio := a; sr := rate; enable_playback := ENABLE_PLAYBACK |}.

(** What a backend is given: a tensor or list of token ids, or, for the
    exllama backend, the prompt text itself. *)
Inductive model_input : Type :=
| InputIds (ids : list Z)
| InputText (prompt : str).

Inductive level : Type := INFO | WARNING.

(** Everything a call does that can be seen from outside, in order. *)
Inductive event : Type :=
| Log (lv : level) (msg : string)
| CallCompletionPrompt (text : str) (lang : string) (speaker : option json)
| CallTokenizerEncode (prompt : str)
| CallModelGenerate (input : model_input) (cfg : GenerationConfig)
                    (dyn : option DynExtra)
| CallModelGenerateStream (input : model_input) (cfg : GenerationConfig)
| CallExtractAudio (tokens : list Z)
| CallDecode (codes : list Z)
| CallTranscribe (audio_path whisper_model : string)
| CallAlign (audio_path : string) (transcript : str) (lang : string)
| CallFree
| CallEncode
| Yield (out : ModelOutput).

(** A computation: the events it produced and how it ended. *)
Definition M (A : Type) : Type := (list event * result A)%type.

Definition ret {A} (a : A) : M A := ([], Ok a).
Definition raise {A} (e : exn) : M A := ([], Raise e).
Definition bind {A B} (k : A -> M B) (m : M A) : M B :=
  match m with
  | (t, Ok a) => let (t', r) := k a in (t ++ t', r)
  | (t, Raise e) => (t, Raise e)
  end.
#[global] Instance M_ret : MRet M := @ret.
#[global] Instance M_bind : MBind M := @bind.
(** A call into a collaborator: recorded, and it returns or raises. *)
Definition call {A} (ev : event) (r : result A) : M A := ([ev], r).
Definition emit (ev : event) : M unit := ([ev], Ok tt).
(** [try: m except Exception as e: h e] *)
Definition try_except {A} (m : M A) (h : exn -> M A) : M A :=
  match m with
  | (t, Ok a) => (t, Ok a)
  | (t, Raise e) => let (t', r) := h e in (t ++ t', r)
  end.
Definition when (b : bool) (m : M unit) : M unit :=
  if b then m else ret tt.

Definition trace {A} (m : M A) : list event := fst m.
Definition outcome {A} (m : M A) : result A := snd m.
End Runtime.

(** [str(e)] for the exceptions above. *)
Definition exn_str (e : exn) : string :=
  match e with
  | ValueError msg => msg
  | FileNotFoundError path =>
      "[Errno 2] No such file or directory: '" +:+ path +:+ "'"
  | JSONDecodeError msg => msg
  | OSError msg => msg
  | ZeroDivisionError => "integer division or modulo by zero"
  | RecursionError => "maximum recursion depth exceeded"
  | IndexError => "list index out of range"
  | CollaboratorError msg => msg
  end.

(** ** The collaborators, as the objects the constructors build *)
Section Objects.
Context `{Env}.

(** [prompt_processor]: builds prompts, owns the tokenizer, finds the
    audio tokens in a generated sequence. *)
Record PromptProcessor : Type := {
  get_completion_prompt : str -> string -> option json -> result str;
  tokenizer_encode : str -> result (list Z);
  extract_audio_from_tokens : list Z -> result (list Z)
}.

(** [audio_codec] *)
Record AudioCodec : Type := {
  codec_sr : Z;
  decode : list Z -> result Tensor;
  convert_audio_tensor : Tensor -> Z -> result Tensor;
  encode : Tensor -> result (list (list (list Z)))
}.

(** The three backends.  A token stream is finite; it may end with an
    exception of the backend. *)
Record HFModel : Type := {
  hf_generate : list Z -> GenerationConfig -> result (list Z)
}.
Record GGUFModel : Type := {
  gguf_generate : list Z -> GenerationConfig -> result (list Z);
  gguf_generate_stream : list Z -> GenerationConfig -> list Z * option exn
}.
Record EXL2Model : Type := {
  exl2_generate : str -> GenerationConfig -> DynExtra -> result (list Z)
}.

Record HFModelConfig : Type := {
  config_language : string;
  config_languages : list string;
  config_verbose : bool;
  max_seq_length : Z
}.

(** The attributes that [__init__] sets; the three classes differ in
    the class of [model] only. *)
Record Interface (Model : Type) : Type := {
  config : HFModelConfig;
  languages : list string;
  language : string;
  verbose : bool;
  audio_codec : AudioCodec;
  prompt_processor : PromptProcessor;
  model : Model
}.
(** [self.language = lang] *)
Definition set_language {Model} (self : Interface Model) (lang : string)
    : Interface Model :=
  {| config := config _ self;
     languages := languages _ self;
     language := lang;
     verbose := verbose _ self;
     audio_codec := audio_codec _ self;
     prompt_processor := prompt_processor _ self;
     model := model _ self |}.
End Objects.
Arguments config {_ _} _.
Arguments languages {_ _} _.
Arguments language {_ _} _.
Arguments verbose {_ _} _.
Arguments audio_codec {_ _} _.
Arguments prompt_processor {_ _} _.
Arguments model {_ _} _.
Arguments set_language {_ _} _ _.

(** ** [str.lower], [str.strip], [os.path.join] *)

(** [c.isspace()] on Latin-1: the ASCII white space, the four
    information separators, NEL and the no-break space. *)
Definition is_space (c : ascii) : bool :=
  let n := ascii_code c in
  ((9 <=? n) && (n <=? 13)) || ((28 <=? n) && (n <=? 32)) ||
  (n =? 133) || (n =? 160).

(** [c.lower()] on Latin-1: A-Z and the accented capitals, the
    multiplication sign apart, move 32 places up. *)
Definition lower_char (c : ascii) : ascii :=
  let n := ascii_code c in
  if ((65 <=? n) && (n <=? 90)) ||
     ((192 <=? n) && (n <=? 222) && negb (n =? 215))
  then chr (n + 32) else c.

Definition lower (s : string) : string :=
  string_of_list_ascii (map lower_char (list_ascii_of_string s)).

Fixpoint lstrip_chars (s : list ascii) : list ascii :=
  match s with
  | c :: r => if is_space c then lstrip_chars r else s
  | [] => []
  end.

Definition strip_chars (s : list ascii) : list ascii :=
  rev (lstrip_chars (rev (lstrip_chars s))).

Definition strip (s : string) : string :=
  string_of_list_ascii (strip_chars (list_ascii_of_string s)).

(** [posixpath.join(a, b)] *)
Definition os_path_join (a b : string) : string :=
  match b with
  | String "/" _ => b
  | _ =>
      match rev (list_ascii_of_string a) with
      | [] => b
      | c :: _ => if Ascii.eqb c "/" then a +:+ b else a +:+ "/" +:+ b
      end
  end.

(** ** The [json] module: [json.dump(obj, f, indent=n)] and [json.load]

    The text format is modelled, as CPython writes and reads it with the
    default arguments ([ensure_ascii=True], [allow_nan=True], strict
    strings).  Two limits of CPython are not: its recursion limit and its
    limit on the number of digits of an [int]. *)

#[global] Instance result_ret : MRet result := @Ok.
#[global] Instance result_bind : MBind result := fun A B k r =>
  match r with
  | Ok a => k a
  | Raise e => Raise e
  end.

Definition LF : Z := 10.
Definition dquote : Z := 34.
Definition backslash : Z := 92.

Section Json.
Context `{Env}.

(** *** Writing *)

Definition hex_digit (n : Z) : Z :=
  if n <? 10 then 48 + n else 87 + n.

(** ['\\u{0:04x}'.format(n)] for [n] below 0x10000 *)
Definition u_escape (n : Z) : str :=
  [backslash; ord "u"; hex_digit (n / 4096); hex_digit (n / 256 mod 16);
   hex_digit (n / 16 mod 16); hex_digit (n mod 16)].

(** [ESCAPE_ASCII] and its replacement: the quote, the backslash, and
    everything outside the printable ASCII range are escaped, a character
    beyond the basic plane as a surrogate pair. *)
Definition escape_char (c : Z) : str :=
  if c =? 34 then [backslash; dquote]
  else if c =? 92 then lit "\\"
  else if c =? 10 then lit "\n"
  else if c =? 13 then lit "\r"
  else if c =? 9 then lit "\t"
  else if c =? 8 then lit "\b"
  else if c =? 12 then lit "\f"
  else if (32 <=? c) && (c <=? 126) then [c]
  else if c <? 0x10000 then u_escape c
  else
    let n := c - 0x10000 in
    let s1 := Z.lor 0xd800 (Z.land (Z.shiftr n 10) 0x3ff) in
    let s2 := Z.lor 0xdc00 (Z.land n 0x3ff) in
    u_escape s1 ++ u_escape s2.

Definition encode_basestring_ascii (s : str) : str :=
  dquote :: flat_map escape_char s ++ [dquote].

Definition floatstr (x : float) : str :=
  match float_kind_of x with
  | FNaN => lit "NaN"
  | FPosInf => lit "Infinity"
  | FNegInf => lit "-Infinity"
  | FFinite => float_repr x
  end.

Definition newline_indent (indent level : nat) : str :=
  LF :: repeat (ord " ") (indent * level).

(** [_iterencode] with [indent] an integer: item separator [","],
    key separator [": "]. *)
Fixpoint render (indent level : nat) (j : json) : str :=
  match j with
  | JNull => lit "null"
  | JBool true => lit "true"
  | JBool false => lit "false"
  | JInt n => int_digits n
  | JFloat x => floatstr x
  | JString s => encode_basestring_ascii s
  | JArray [] => lit "[]"
  | JArray (x :: xs) =>
      ord "[" :: newline_indent indent (S level) ++
      render indent (S level) x ++
      flat_map (fun y => ord "," :: newline_indent indent (S level) ++
                         render indent (S level) y) xs ++
      newline_indent indent level ++ [ord "]"]
  | JObject [] => lit "{}"
  | JObject (kv :: fields) =>
      ord "{" :: newline_indent indent (S level) ++
      encode_basestring_ascii (fst kv) ++ lit ": " ++
      render indent (S level) (snd kv) ++
      flat_map (fun kv' => ord "," :: newline_indent indent (S level) ++
                           encode_basestring_ascii (fst kv') ++ lit ": " ++
                           render indent (S level) (snd kv')) fields ++
      newline_indent indent level ++ [ord "}"]
  end.

(** [json.dumps(obj, indent=indent)] *)
Definition json_dumps (obj : json) (indent : nat) : str :=
  render indent 0 obj.

(** *** Reading *)

Definition decode_error {A} (msg : string) : result A :=
  Raise (JSONDecodeError msg).

(** [WHITESPACE]: blank, tab, line feed, carriage return *)
Definition is_ws (c : Z) : bool :=
  (c =? 32) || (c =? 9) || (c =? 10) || (c =? 13).

Fixpoint skip_ws (s : str) : str :=
  match s with
  | c :: r => if is_ws c then skip_ws r else s
  | [] => []
  end.

Definition hex_value (c : Z) : option Z :=
  if (48 <=? c) && (c <=? 57) then Some (c - 48)
  else if (97 <=? c) && (c <=? 102) then Some (c - 87)
  else if (65 <=? c) && (c <=? 70) then Some (c - 55)
  else None.

Definition hex4 (a b c d : Z) : option Z :=
  a' ← hex_value a; b' ← hex_value b; c' ← hex_value c; d' ← hex_value d;
  Some (((a' * 16 + b') * 16 + c') * 16 + d').

(** [BACKSLASH]: the one-letter escapes *)
Definition unescape (c : Z) : option Z :=
  if c =? 34 then Some 34
  else if c =? 92 then Some 92
  else if c =? 47 then Some 47
  else if c =? 98 then Some 8
  else if c =? 102 then Some 12
  else if c =? 110 then Some 10
  else if c =? 114 then Some 13
  else if c =? 116 then Some 9
  else None.

Definition is_high_surrogate (c : Z) : bool := (0xD800 <=? c) && (c <=? 0xDBFF).
Definition is_low_surrogate (c : Z) : bool := (0xDC00 <=? c) && (c <=? 0xDFFF).

(** [Py_UNICODE_JOIN_SURROGATES] *)
Definition join_surrogates (high low : Z) : Z :=
  Z.lor (Z.shiftl (Z.land high 0x3FF) 10) (Z.land low 0x3FF) + 0x10000.

Definition prepend {A} (c : A) (r : result (list A * str))
    : result (list A * str) :=
  '(cs, rest) ← r; Ok (c :: cs, rest).

(** [scanstring], from just after the opening quote: the decoded
    characters and the text after the closing quote.  The four digits of
    a [\u] escape must not be the end of the text.  After an escape for a
    high surrogate, an escape for a low surrogate that is not the end of
    the text either makes one character with it. *)
Fixpoint scanstring (s : str) : result (str * str) :=
  match s with
  | [] => decode_error "Unterminated string starting at"
  | c :: r =>
      if c =? 34 then Ok ([], r)
      else if c =? 92 then
        match r with
        | [] => decode_error "Unterminated string starting at"
        | esc :: r1 =>
            if esc =? 117 then
              match r1 with
              | h1 :: h2 :: h3 :: h4 :: r2 =>
                  match r2 with
                  | [] => decode_error "Invalid \uXXXX escape"
                  | _ :: _ =>
                      match hex4 h1 h2 h3 h4 with
                      | None => decode_error "Invalid \uXXXX escape"
                      | Some n =>
                          match r2 with
                          | b :: u :: k1 :: k2 :: k3 :: k4 :: r3 =>
                              match r3 with
                              | _ :: _ =>
                                  if is_high_surrogate n && (b =? 92) &&
                                     (u =? 117)
                                  then
                                    match hex4 k1 k2 k3 k4 with
                                    | None =>
                                        decode_error "Invalid \uXXXX escape"
                                    | Some n2 =>
                                        if is_low_surrogate n2 then
                                          prepend (join_surrogates n n2)
                                            (scanstring r3)
                                        else prepend n (scanstring r2)
                                    end
                                  else prepend n (scanstring r2)
                              | [] => prepend n (scanstring r2)
                              end
                          | _ => prepend n (scanstring r2)
                          end
                      end
                  end
              | _ => decode_error "Invalid \uXXXX escape"
              end
            else
              match unescape esc with
              | Some ch => prepend ch (scanstring r1)
              | None => decode_error "Invalid \escape"
              end
        end
      else if c <=? 31 then
        decode_error "Invalid control character at"
      else prepend c (scanstring r)
  end.

Fixpoint span_digits (s : str) : str * str :=
  match s with
  | c :: r =>
      if is_digit c then let (ds, r') := span_digits r in (c :: ds, r')
      else ([], s)
  | [] => ([], [])
  end.

(** The three groups of [NUMBER_RE]: an optional minus sign and either
    a single zero or a run of digits that starts with a non-zero one;
    optionally a point and a non-empty run of digits; optionally [e] or
    [E], an optional sign and a non-empty run of digits. *)
Definition scan_unsigned (s : str)
    : option (str * str) :=
  match s with
  | c :: r =>
      if c =? 48 then Some ([c], r)
      else if is_digit c then
        let (ds, r') := span_digits r in Some (c :: ds, r')
      else None
  | [] => None
  end.

Definition scan_integer (s : str)
    : option (str * str) :=
  match s with
  | c :: r =>
      if c =? 45 then
        '(ds, r') ← scan_unsigned r; Some (c :: ds, r')
      else scan_unsigned s
  | [] => None
  end.

Definition scan_frac (s : str) : str * str :=
  match s with
  | c :: r =>
      if c =? 46 then
        match span_digits r with
        | ([], _) => ([], s)
        | (ds, r') => (c :: ds, r')
        end
      else ([], s)
  | [] => ([], s)
  end.

Definition scan_sign (s : str) : str * str :=
  match s with
  | c :: r =>
      if (c =? 43) || (c =? 45) then ([c], r)
      else ([], s)
  | [] => ([], s)
  end.

Definition scan_exp (s : str) : str * str :=
  match s with
  | c :: r =>
      if (c =? 101) || (c =? 69) then
        let (sg, r1) := scan_sign r in
        match span_digits r1 with
        | ([], _) => ([], s)
        | (ds, r2) => (c :: sg ++ ds, r2)
        end
      else ([], s)
  | [] => ([], s)
  end.

(** [int(s)] on the first group *)
Definition int_of_literal (s : str) : Z :=
  match s with
  | c :: r => if c =? 45 then - digits_value r
              else digits_value s
  | [] => 0
  end.

(** A number as [scan_once] reads it: an [int] when the literal has
    neither fraction nor exponent, a float otherwise. *)
Definition scan_number (s : str) : option (json * str) :=
  '(int_part, r) ← scan_integer s;
  let (frac, r1) := scan_frac r in
  let (exp, r2) := scan_exp r1 in
  match frac, exp with
  | [], [] => Some (JInt (int_of_literal int_part), r2)
  | _, _ =>
      Some (JFloat (float_of_literal (int_part ++ frac ++ exp)), r2)
  end.

(** [s.startswith(p)], with the rest of [s] *)
Fixpoint strip_prefix (p s : str) : option (str) :=
  match p, s with
  | [], _ => Some s
  | a :: p', b :: s' => if a =? b then strip_prefix p' s' else None
  | _ :: _, [] => None
  end.

(** The scalar cases of [scan_once], in its order. *)
Definition scan_scalar (s : str) : result (json * str) :=
  match strip_prefix (lit "null") s with
  | Some r => Ok (JNull, r)
  | None =>
  match strip_prefix (lit "true") s with
  | Some r => Ok (JBool true, r)
  | None =>
  match strip_prefix (lit "false") s with
  | Some r => Ok (JBool false, r)
  | None =>
  match scan_number s with
  | Some res => Ok res
  | None =>
  match strip_prefix (lit "NaN") s with
  | Some r => Ok (JFloat float_nan, r)
  | None =>
  match strip_prefix (lit "Infinity") s with
  | Some r => Ok (JFloat float_inf, r)
  | None =>
  match strip_prefix (lit "-Infinity") s with
  | Some r => Ok (JFloat float_neg_inf, r)
  | None => decode_error "Expecting value"
  end end end end end end end.

(** [dict(pairs)]: a repeated key keeps its first place and takes the
    last value. *)
Fixpoint dict_set (k : str) (v : json) (d : list (str * json))
    : list (str * json) :=
  match d with
  | [] => [(k, v)]
  | (k', v') :: d' =>
      if str_eqb k k' then (k, v) :: d' else (k', v') :: dict_set k v d'
  end.

Definition dict_of_pairs (pairs : list (str * json))
    : list (str * json) :=
  fold_left (fun d kv => dict_set (fst kv) (snd kv) d) pairs [].

(** [scan_once], [JSONArray] and [JSONObject].  [fuel] bounds the depth
    of the calls; [parse_items] starts at an item, [parse_pairs] just
    after the opening quote of a key. *)
Fixpoint parse_value (fuel : nat) (s : str)
    : result (json * str) :=
  match fuel with
  | O => Raise RecursionError
  | S fuel' =>
      match s with
      | [] => decode_error "Expecting value"
      | c :: r =>
          if c =? 34 then
            '(cs, r') ← scanstring r;
            Ok (JString cs, r')
          else if c =? 123 then
            match skip_ws r with
            | c1 :: r1 =>
                if c1 =? 125 then Ok (JObject [], r1)
                else if c1 =? 34 then
                  '(pairs, r2) ← parse_pairs fuel' r1;
                  Ok (JObject (dict_of_pairs pairs), r2)
                else decode_error
                  "Expecting property name enclosed in double quotes"
            | [] => decode_error
                  "Expecting property name enclosed in double quotes"
            end
          else if c =? 91 then
            match skip_ws r with
            | c1 :: r1 =>
                if c1 =? 93 then Ok (JArray [], r1)
                else
                  '(items, r2) ← parse_items fuel' (c1 :: r1);
                  Ok (JArray items, r2)
            | [] => decode_error "Expecting value"
            end
          else scan_scalar s
      end
  end
with parse_items (fuel : nat) (s : str)
    : result (list json * str) :=
  match fuel with
  | O => Raise RecursionError
  | S fuel' =>
      '(v, r) ← parse_value fuel' s;
      match skip_ws r with
      | c :: r1 =>
          if c =? 93 then Ok ([v], r1)
          else if c =? 44 then
            '(vs, r2) ← parse_items fuel' (skip_ws r1);
            Ok (v :: vs, r2)
          else decode_error "Expecting ',' delimiter"
      | [] => decode_error "Expecting ',' delimiter"
      end
  end
with parse_pairs (fuel : nat) (s : str)
    : result (list (str * json) * str) :=
  match fuel with
  | O => Raise RecursionError
  | S fuel' =>
      '(k, r) ← scanstring s;
      match skip_ws r with
      | c :: r1 =>
          if c =? 58 then
            '(v, r2) ← parse_value fuel' (skip_ws r1);
            match skip_ws r2 with
            | c2 :: r3 =>
                if c2 =? 125 then
                  Ok ([(k, v)], r3)
                else if c2 =? 44 then
                  match skip_ws r3 with
                  | c3 :: r4 =>
                      if c3 =? 34 then
                        '(ps, r5) ← parse_pairs fuel' r4;
                        Ok ((k, v) :: ps, r5)
                      else decode_error
                        "Expecting property name enclosed in double quotes"
                  | [] => decode_error
                        "Expecting property name enclosed in double quotes"
                  end
                else decode_error "Expecting ',' delimiter"
            | [] => decode_error "Expecting ',' delimiter"
            end
          else decode_error "Expecting ':' delimiter"
      | [] => decode_error "Expecting ':' delimiter"
      end
  end.

(** [s.startswith('\ufeff')] *)
Definition starts_with_bom (s : str) : bool :=
  match s with c :: _ => c =? 0xFEFF | [] => false end.

(** [json.loads(s)]: no byte order mark; then white space, one value,
    white space, end. *)
Definition json_loads (s : str) : result json :=
  if starts_with_bom s then
    decode_error "Unexpected UTF-8 BOM (decode using utf-8-sig)"
  else
    '(v, r) ← parse_value (S (length s)) (skip_ws s);
    match skip_ws r with
    | [] => Ok v
    | _ :: _ => decode_error "Extra data"
    end.
End Json.

(** ** The audio region of a generated token sequence *)
Section AudioRegion.
(** The two reserved sentinel ids. *)
Variables audio_start audio_end : Z.

(** Modelled from the spec: the tokens before the closing sentinel, for
    [PromptProcessor.extract_audio_from_tokens] below; [None] when the
    closing sentinel does not occur. *)
Fixpoint until_audio_end (tokens : list Z) : option (list Z) :=
  match tokens with
  | [] => None
  | tok :: rest =>
      if tok =? audio_end then Some []
      else cons tok <$> until_audio_end rest
  end.

(** Modelled from the spec: [PromptProcessor.extract_audio_from_tokens]
    is defined in prompt_processor.py, which is not among the sources.
    The spec has it scan the sequence for the audio-token region
    delimited by reserved sentinel ids and return the enclosed
    subsequence verbatim, and return empty if no delimited region is
    found. *)
Fixpoint sentinel_region (tokens : list Z) : list Z :=
  match tokens with
  | [] => []
  | tok :: rest =>
      if tok =? audio_start then default [] (until_audio_end rest)
      else sentinel_region rest
  end.

(** The sequence contains an opening sentinel and, later, a closing
    one. *)
Definition has_audio_region (tokens : list Z) : Prop :=
  exists pre mid post,
    tokens = pre ++ audio_start :: mid ++ audio_end :: post.
End AudioRegion.

(** ** Files and the catalog of default speakers *)

(** Text files.  [target] is the file that a path names: paths that
    differ may name the same file.  [files] holds the text of the files
    that exist.  [failure] tells what [open(path, "w")] and the writing of
    a text run into, if anything. *)
Inductive write_failure : Type :=
| OpenFails (e : exn)
| WriteFails (e : exn) (written : nat).

Record FileSystem : Type := {
  target : string -> string;
  files : gmap string str;
  failure : string -> str -> option write_failure
}.

(** The file of [path] holds [content]. *)
Definition set_file (fs : FileSystem) (path : string) (content : str)
    : FileSystem :=
  {| target := target fs;
     files := <[target fs path := content]> (files fs);
     failure := failure fs |}.

(** [with open(path, "r") as f: f.read()] *)
Definition open_read (fs : FileSystem) (path : string) : result str :=
  match files fs !! target fs path with
  | Some content => Ok content
  | None => Raise (FileNotFoundError path)
  end.

(** [with open(path, "w") as f: f.write(content)]: when [open] raises,
    nothing has changed; when the writing raises, the file holds what was
    written before. *)
Definition write_file (fs : FileSystem) (path : string) (content : str)
    : FileSystem * result unit :=
  match failure fs path content with
  | Some (OpenFails e) => (fs, Raise e)
  | Some (WriteFails e written) =>
      (set_file fs path (take written content), Raise e)
  | None => (set_file fs path content, Ok tt)
  end.

(** [l[start:stop]] with Python's treatment of negative and overlong
    indices. *)
Definition slice_index (len i : Z) : Z :=
  if i <? 0 then Z.max 0 (i + len) else Z.min i len.

Definition py_slice {A} (l : list A) (start stop : Z) : list A :=
  let len := Z.of_nat (length l) in
  let a := slice_index len start in
  let b := slice_index len stop in
  take (Z.to_nat (b - a)) (drop (Z.to_nat a) l).

Section Catalog.
Context `{Env}.

Definition DEFAULT_SPEAKERS_DIR : string :=
  os_path_join BASE_DIR "default_speakers".

Definition get_speaker_path (speaker_name : string) : string :=
  os_path_join DEFAULT_SPEAKERS_DIR (speaker_name +:+ ".json").

Definition _DEFAULT_SPEAKERS : gmap string (gmap string string) :=
  list_to_map [
    ("en", list_to_map [
       ("male_1", get_speaker_path "en_male_1");
       ("male_2", get_speaker_path "en_male_2");
       ("male_3", get_speaker_path "en_male_3");
       ("male_4", get_speaker_path "en_male_4");
       ("female_1", get_speaker_path "en_female_1");
       ("female_2", get_speaker_path "en_female_2")]);
    ("ja", list_to_map [
       ("male_1", get_speaker_path "ja_male_1");
       ("female_1", get_speaker_path "ja_female_1");
       ("female_2", get_speaker_path "ja_female_2");
       ("female_3", get_speaker_path "ja_female_3")]);
    ("ko", list_to_map [
       ("male_1", get_speaker_path "ko_male_1");
       ("male_2", get_speaker_path "ko_male_2");
       ("female_1", get_speaker_path "ko_female_1");
       ("female_2", get_speaker_path "ko_female_2")]);
    ("zh", list_to_map [
       ("male_1", get_speaker_path "zh_male_1");
       ("female_1", get_speaker_path "zh_female_1")])].
End Catalog.

(** ** [class InterfaceHF] *)
Module InterfaceHF.
Section Methods.
Context `{Env}.

Definition t : Type := Interface HFModel.

(** [__init__]: the attributes are read off [config]; each class builds
    its own [model], given here with the other two collaborators. *)
Definition init {Model} (cfg : HFModelConfig) (codec : AudioCodec)
    (pp : PromptProcessor) (m : Model) : Interface Model :=
  {| config := cfg;
     languages := config_languages cfg;
     language := config_language cfg;
     verbose := config_verbose cfg;
     audio_codec := codec;
     prompt_processor := pp;
     model := m |}.

Definition prepare_prompt {Model} (self : Interface Model) (text : str)
    (speaker : option json) : M (list Z) :=
  prompt ← call (CallCompletionPrompt text (language self) speaker)
    (get_completion_prompt (prompt_processor self) text (language self)
       speaker);
  call (CallTokenizerEncode prompt)
    (tokenizer_encode (prompt_processor self) prompt).

Definition get_audio {Model} (self : Interface Model) (tokens : list Z)
    : M (option Tensor) :=
  output ← call (CallExtractAudio tokens)
    (extract_audio_from_tokens (prompt_processor self) tokens);
  match output with
  | [] =>
      emit (Log WARNING "No audio tokens found in the output");;
      mret None
  | _ :: _ =>
      a ← call (CallDecode output) (decode (audio_codec self) output);
      mret (Some a)
  end.

(** One entry of a profile's ["words"]. *)
Definition word_entry (word : str) (duration : float)
    (codes : list Z) : json :=
  JObject [(lit "word", JString word);
           (lit "duration", JFloat duration);
           (lit "codes", JArray (map JInt codes))].

(** [full_codes[0][0]] *)
Definition first_row (full_codes : list (list (list Z)))
    : result (list Z) :=
  match full_codes with
  | (row :: _) :: _ => Ok row
  | _ => Raise IndexError
  end.

(** [int(round((x1 / ctc.sample_rate) * 75))] *)
Definition token_end (x1 : Z) : result Z :=
  if ctc_sample_rate =? 0 then Raise ZeroDivisionError
  else Ok (round_to_int
             (float_mul_int (int_truediv x1 ctc_sample_rate) 75)).

(** The [for i in words] loop of [create_speaker]; [start] is the
    running start index, the value is the list [data]. *)
Fixpoint slice_words (full_codes : list (list (list Z)))
    (words : list (str * Tensor * Z * Z)) (start : Z)
    : result (list json) :=
  match words with
  | [] => Ok []
  | (word, _, _, x1) :: rest =>
      end_ ← token_end x1;
      row ← first_row full_codes;
      let word_tokens := py_slice row start end_ in
      let start := end_ in
      let word_tokens :=
        match word_tokens with [] => [1] | _ :: _ => word_tokens end in
      let entry :=
        word_entry word
          (round_ndigits
             (int_truediv (Z.of_nat (length word_tokens)) 75) 2)
          word_tokens in
      data ← slice_words full_codes rest start;
      Ok (entry :: data)
  end.

Definition create_speaker {Model} (self : Interface Model)
    (audio_path : string) (transcript : option str)
    (whisper_model : string) (whisper_device : option string) : M json :=
  transcript ←
    match transcript with
    | None =>
        emit (Log INFO
          "Transcription not provided, transcribing audio with whisper.");;
        call (CallTranscribe audio_path whisper_model)
          (transcribe_once audio_path whisper_model whisper_device)
    | Some text => mret text
    end;
  match transcript with
  | [] => raise (ValueError "Transcript text is empty")
  | _ :: _ =>
      words ← call (CallAlign audio_path transcript (language self))
        (ctc_align (languages self) audio_path transcript (language self));
      emit CallFree;;
      full_codes ← call CallEncode
        (joined ← torch_cat (map (fun i => i.1.1.2) words);
         converted ← convert_audio_tensor (audio_codec self) joined
                       ctc_sample_rate;
         encode (audio_codec self) converted);
      data ← ([], slice_words full_codes words 0);
      mret (JObject [(lit "text", JString transcript);
                     (lit "words", JArray data);
                     (lit "language", JString (language self))])
  end.

Definition save_speaker {Model} (self : Interface Model) (speaker : json)
    (path : string) (fs : FileSystem) : FileSystem * result unit :=
  write_file fs path (json_dumps speaker 2).

Definition load_speaker {Model} (self : Interface Model) (path : string)
    (fs : FileSystem) : result json :=
  content ← open_read fs path;
  json_loads content.

Definition load_default_speaker {Model} (self : Interface Model)
    (name : string) (fs : FileSystem) : result json :=
  let name := strip (lower name) in
  let language := strip (lower (language self)) in
  match _DEFAULT_SPEAKERS !! language with
  | None =>
      Raise (ValueError
               ("Speaker for language " +:+ language +:+ " not found"))
  | Some speakers =>
      match speakers !! name with
      | None =>
          Raise (ValueError
                   ("Speaker " +:+ name +:+ " not found for language " +:+
                    language))
      | Some path => load_speaker self path fs
      end
  end.

(** The interface after [self.language = language], or the error. *)
Definition change_language {Model} (self : Interface Model)
    (lang : string) : result (Interface Model) :=
  let lang := strip (lower lang) in
  if bool_decide (lang ∈ languages self) then Ok (set_language self lang)
  else
    Raise (ValueError
             ("Language " +:+ lang +:+
              " is not supported by the current model")).

Definition check_generation_max_length {Model} (self : Interface Model)
    (max_length : option Z) : M unit :=
  match max_length with
  | None => raise (ValueError "max_length must be specified.")
  | Some n =>
      if max_seq_length (config self) <? n then
        raise (ValueError
          ("Requested max_length (" +:+ str_of_int n +:+
           ") exceeds the current max_seq_length (" +:+
           str_of_int (max_seq_length (config self)) +:+ ")."))
      else mret tt
  end.

Definition generate (self : t) (text : str) (speaker : option json)
    (temperature repetition_penalty : float) (max_length : option Z)
    (additional_gen_config : GenExtra) : M ModelOutput :=
  input_ids ← prepare_prompt self text speaker;
  when (verbose self)
    (emit (Log INFO ("Input tokens: " +:+
                     str_of_int (Z.of_nat (length input_ids))));;
     emit (Log INFO "Generating audio..."));;
  check_generation_max_length self max_length;;
  let cfg := {| temperature := temperature;
                repetition_penalty := repetition_penalty;
                max_length := max_length;
                additional_gen_config := additional_gen_config |} in
  output ← call (CallModelGenerate (InputIds input_ids) cfg None)
    (hf_generate (model self) input_ids cfg);
  audio ← get_audio self (drop (length input_ids) output);
  when (verbose self) (emit (Log INFO "Audio generation completed"));;
  mret (mkModelOutput audio (codec_sr (audio_codec self))).
End Methods.
End InterfaceHF.

(** ** [class InterfaceGGUF(InterfaceHF)] *)
Module InterfaceGGUF.
Section Methods.
Context `{Env}.

Definition t : Type := Interface GGUFModel.

Definition prepare_prompt (self : t) (text : str)
    (speaker : option json) : M (list Z) :=
  prompt ← call (CallCompletionPrompt text (language self) speaker)
    (get_completion_prompt (prompt_processor self) text (language self)
       speaker);
  call (CallTokenizerEncode prompt)
    (tokenizer_encode (prompt_processor self) prompt).

Definition generate (self : t) (text : str) (speaker : option json)
    (temperature repetition_penalty : float) (max_length : option Z)
    (additional_gen_config : GenExtra) : M ModelOutput :=
  input_ids ← prepare_prompt self text speaker;
  when (verbose self)
    (emit (Log INFO ("Input tokens: " +:+
                     str_of_int (Z.of_nat (length input_ids))));;
     emit (Log INFO "Generating audio..."));;
  InterfaceHF.check_generation_max_length self max_length;;
  let cfg := {| temperature := temperature;
                max_length := max_length;
                repetition_penalty := repetition_penalty;
                additional_gen_config := additional_gen_config |} in
  output ← call (CallModelGenerate (InputIds input_ids) cfg None)
    (gguf_generate (model self) input_ids cfg);
  audio ← InterfaceHF.get_audio self output;
  when (verbose self) (emit (Log INFO "Audio generation completed"));;
  mret (mkModelOutput audio (codec_sr (audio_codec self))).

(** One turn of the [for token in ...] loop: the token is appended to
    [generated_tokens]; when the buffer length is a multiple of
    [chunk_size] the buffer is decoded and yielded and a fresh buffer
    is started, all inside the [try].  The value is the buffer that the
    next turn sees. *)
Definition stream_step (self : t) (chunk_size : Z)
    (generated_tokens : list Z) (token : Z) : M (list Z) :=
  let generated_tokens := generated_tokens ++ [token] in
  if chunk_size =? 0 then raise ZeroDivisionError
  else if Z.of_nat (length generated_tokens) mod chunk_size =? 0 then
    try_except
      (audio_chunk ← InterfaceHF.get_audio self generated_tokens;
       emit (Yield (mkModelOutput audio_chunk
                      (codec_sr (audio_codec self))));;
       mret [])
      (fun e =>
         when (verbose self)
           (emit (Log WARNING
                    ("Error generating audio chunk: " +:+ exn_str e)));;
         mret generated_tokens)
  else mret generated_tokens.

Fixpoint stream_loop (self : t) (chunk_size : Z) (tokens : list Z)
    (generated_tokens : list Z) : M (list Z) :=
  match tokens with
  | [] => mret generated_tokens
  | token :: rest =>
      buf ← stream_step self chunk_size generated_tokens token;
      stream_loop self chunk_size rest buf
  end.

(** The generator, run to exhaustion: its [Yield] events are the
    [ModelOutput]s the consumer receives, in order. *)
Definition generate_stream (self : t) (text : str)
    (speaker : option json) (temperature repetition_penalty : float)
    (max_length : option Z) (chunk_size : Z)
    (additional_gen_config : GenExtra) : M unit :=
  input_ids ← prepare_prompt self text speaker;
  when (verbose self)
    (emit (Log INFO ("Input tokens: " +:+
                     str_of_int (Z.of_nat (length input_ids))));;
     emit (Log INFO "Streaming audio generation..."));;
  InterfaceHF.check_generation_max_length self max_length;;
  let cfg := {| temperature := temperature;
                max_length := max_length;
                repetition_penalty := repetition_penalty;
                additional_gen_config := additional_gen_config |} in
  emit (CallModelGenerateStream (InputIds input_ids) cfg);;
  let (tokens, failure) :=
    gguf_generate_stream (model self) input_ids cfg in
  generated_tokens ← stream_loop self chunk_size tokens [];
  match failure with Some e => raise e | None => mret tt end;;
  match generated_tokens with
  | [] => mret tt
  | _ :: _ =>
      final_audio ← InterfaceHF.get_audio self generated_tokens;
      emit (Yield (mkModelOutput final_audio
                     (codec_sr (audio_codec self))))
  end;;
  when (verbose self)
    (emit (Log INFO "Streaming audio generation completed")).
End Methods.
End InterfaceGGUF.

(** ** [class InterfaceEXL2(InterfaceHF)] *)
Module InterfaceEXL2.
Section Methods.
Context `{Env}.

Definition t : Type := Interface EXL2Model.

Definition prepare_prompt (self : t) (text : str)
    (speaker : option json) : M str :=
  call (CallCompletionPrompt text (language self) speaker)
    (get_completion_prompt (prompt_processor self) text (language self)
       speaker).

Definition generate (self : t) (text : str) (speaker : option json)
    (temperature repetition_penalty : float) (max_length : option Z)
    (additional_gen_config : GenExtra)
    (additional_dynamic_generator_config : DynExtra) : M ModelOutput :=
  input_ids ← prepare_prompt self text speaker;
  when (verbose self)
    (emit (Log INFO ("Input tokens: " +:+
                     str_of_int (Z.of_nat (length input_ids))));;
     emit (Log INFO "Generating audio..."));;
  InterfaceHF.check_generation_max_length self max_length;;
  let cfg := {| temperature := temperature;
                repetition_penalty := repetition_penalty;
                max_length := max_length;
                additional_gen_config := additional_gen_config |} in
  output ← call (CallModelGenerate (InputText input_ids) cfg
                   (Some additional_dynamic_generator_config))
    (exl2_generate (model self) input_ids cfg
       additional_dynamic_generator_config);
  audio ← InterfaceHF.get_audio self output;
  when (verbose self) (emit (Log INFO "Audio generation completed"));;
  mret (mkModelOutput audio (codec_sr (audio_codec self))).
End Methods.
End InterfaceEXL2.

(** ** [ModelOutput.save] and [ModelOutput.play]

    The two methods of the result object hand the audio to [torchaudio]
    and to [sounddevice].  What they do there is a trace of its own. *)
Section OutputDevices.
Context `{Env}.
(** [numpy.ndarray], which is what [sounddevice] plays *)
Variable ndarray : Type.

Inductive device_event : Type :=
| LogWarning (msg : string)
| LogError (msg : string)
| CallTorchaudioSave (path : string) (src : Tensor) (sample_rate : Z)
                     (encoding : string) (bits_per_sample : Z)
| CallSdPlay (data : ndarray) (samplerate : Z)
| CallSdWait.

(** The tensor operations and the two libraries, each call returning or
    raising. *)
Record Devices : Type := {
  (** [audio.cpu()] *)
  tensor_cpu : Tensor -> result Tensor;
  (** [torchaudio.save(path, src, sample_rate, encoding,
      bits_per_sample)] *)
  torchaudio_save : string -> Tensor -> Z -> string -> Z -> result unit;
  (** [audio[0].cpu().numpy()] *)
  first_channel : Tensor -> result ndarray;
  (** [sd.play(data, samplerate)] *)
  sd_play : ndarray -> Z -> result unit;
  (** [sd.wait()] *)
  sd_wait : result unit
}.

Definition IO (A : Type) : Type := (list device_event * result A)%type.

Definition io_ret {A} (a : A) : IO A := ([], Ok a).
Definition io_bind {A B} (k : A -> IO B) (m : IO A) : IO B :=
  match m with
  | (t, Ok a) => let (t', r) := k a in (t ++ t', r)
  | (t, Raise e) => (t, Raise e)
  end.
#[global] Instance IO_ret : MRet IO := @io_ret.
#[global] Instance IO_bind : MBind IO := @io_bind.
(** A call that leaves no mark of its own. *)
Definition io_lift {A} (r : result A) : IO A := ([], r).
(** A call into one of the libraries: recorded, and it returns or
    raises. *)
Definition io_call {A} (ev : device_event) (r : result A) : IO A :=
  ([ev], r).
Definition io_emit (ev : device_event) : IO unit := ([ev], Ok tt).
(** [try: m except Exception as e: h e] *)
Definition io_try {A} (m : IO A) (h : exn -> IO A) : IO A :=
  match m with
  | (t, Ok a) => (t, Ok a)
  | (t, Raise e) => let (t', r) := h e in (t ++ t', r)
  end.
End OutputDevices.
Arguments LogWarning {_ _} msg.
Arguments LogError {_ _} msg.
Arguments CallTorchaudioSave {_ _} path src sample_rate encoding
  bits_per_sample.
Arguments CallSdPlay {_ _} data samplerate.
Arguments CallSdWait {_ _}.
Arguments tensor_cpu {_ _} _ _.
Arguments torchaudio_save {_ _} _ _ _ _ _ _.
Arguments first_channel {_ _} _ _.
Arguments sd_play {_ _} _ _ _.
Arguments sd_wait {_ _} _.
Arguments io_ret {_ _ _} a.
Arguments io_bind {_ _ _ _} k m.
Arguments io_lift {_ _ _} r.
Arguments io_call {_ _ _} ev r.
Arguments io_emit {_ _} ev.
Arguments io_try {_ _ _} m h.

Module ModelOutputMethods.
Section Methods.
Context `{Env} {ndarray : Type}.

(** [save(self, path)] *)
Definition save (dev : Devices ndarray) (self : ModelOutput)
    (path : string) : IO ndarray unit :=
  match audio self with
  | None => io_emit (LogWarning "Audio is empty, skipping save.")
  | Some a =>
      src ← io_lift (tensor_cpu dev a);
      io_call (CallTorchaudioSave path src (sr self) "PCM_S" 16)
        (torchaudio_save dev path src (sr self) "PCM_S" 16)
  end.

(** The module binds the name [sd] only when the import at its top
    succeeded, which is also when [ENABLE_PLAYBACK] is [True]. *)
Definition sd_module : IO ndarray unit :=
  if ENABLE_PLAYBACK then io_ret tt
  else io_lift (Raise (CollaboratorError "name 'sd' is not defined")).

(** [play(self)] *)
Definition play (dev : Devices ndarray) (self : ModelOutput)
    : IO ndarray unit :=
  match audio self with
  | None => io_emit (LogWarning "Audio is empty, skipping playback.")
  | Some a =>
      if negb (enable_playback self) then
        io_emit (LogWarning
          "Audio playback is disabled. Check sounddevice installation.")
      else
        io_try
          (sd_module;;
           data ← io_lift (first_channel dev a);
           io_call (CallSdPlay data (sr self)) (sd_play dev data (sr self));;
           io_call CallSdWait (sd_wait dev))
          (fun e => io_emit (LogError (exn_str e)))
  end.
End Methods.
End ModelOutputMethods.

(** ** [str.upper] and [print_default_speakers] *)

(** [c.upper()] on Latin-1.  The small letters move 32 places down; the
    sharp s becomes two capitals.  The capitals of the micro sign and of
    the y with diaeresis lie outside Latin-1. *)
Definition upper_char (c : ascii) : result (list ascii) :=
  let n := ascii_code c in
  if ((97 <=? n) && (n <=? 122)) ||
     ((224 <=? n) && (n <=? 254) && negb (n =? 247))
  then Ok [chr (n - 32)]
  else if n =? 223 then Ok ["S"%char; "S"%char]
  else if (n =? 181) || (n =? 255)
  then Raise (CollaboratorError "character outside Latin-1")
  else Ok [c].

Fixpoint upper_chars (s : list ascii) : result (list ascii) :=
  match s with
  | [] => Ok []
  | c :: r => u ← upper_char c; us ← upper_chars r; Ok (u ++ us)
  end.

Definition upper (s : string) : result string :=
  us ← upper_chars (list_ascii_of_string s); Ok (string_of_list_ascii us).

(** [str(n)] for the length of a collection *)
Definition str_of_len {A} (l : list A) : string :=
  str_of_int (Z.of_nat (length l)).

(** [d[key]] on a [dict] given by its items *)
Fixpoint dict_lookup {V} (key : string) (d : list (string * V))
    : option V :=
  match d with
  | [] => None
  | (k, v) :: d' => if String.eqb key k then Some v else dict_lookup key d'
  end.

Section Listing.
Context `{Env}.

(** The items of [_DEFAULT_SPEAKERS] in the order in which the literal
    gives them, which is the order in which a [dict] is iterated. *)
Definition default_speakers_items : list (string * list (string * string)) :=
  [("en", [("male_1", get_speaker_path "en_male_1");
           ("male_2", get_speaker_path "en_male_2");
           ("male_3", get_speaker_path "en_male_3");
           ("male_4", get_speaker_path "en_male_4");
           ("female_1", get_speaker_path "en_female_1");
           ("female_2", get_speaker_path "en_female_2")]);
   ("ja", [("male_1", get_speaker_path "ja_male_1");
           ("female_1", get_speaker_path "ja_female_1");
           ("female_2", get_speaker_path "ja_female_2");
           ("female_3", get_speaker_path "ja_female_3")]);
   ("ko", [("male_1", get_speaker_path "ko_male_1");
           ("male_2", get_speaker_path "ko_male_2");
           ("female_1", get_speaker_path "ko_female_1");
           ("female_2", get_speaker_path "ko_female_2")]);
   ("zh", [("male_1", get_speaker_path "zh_male_1");
           ("female_1", get_speaker_path "zh_female_1")])].

(** [print(f"  - {speaker_name}")] for each key *)
Definition speaker_lines (speakers : list (string * string)) : list string :=
  map (fun kv => "  - " +:+ fst kv) speakers.

Definition nl : string := String "010" "".
(** ["-" * 50] *)
Definition rule : string := string_of_list_ascii (repeat "-"%char 50).

(** The lines of the first loop: for each language its heading and its
    speakers. *)
Fixpoint language_blocks (items : list (string * list (string * string)))
    : result (list string) :=
  match items with
  | [] => Ok []
  | (language, speakers) :: rest =>
      heading ← upper language;
      lines ← language_blocks rest;
      Ok ((nl +:+ heading +:+ " (" +:+ str_of_len speakers +:+ " speakers):")
          :: speaker_lines speakers ++ lines)
  end.

(** What is printed under the heading for the current language. *)
Definition current_language_block {Model} (self : Interface Model)
    : result (list string) :=
  match dict_lookup (lower (language self)) default_speakers_items with
  | Some current_speakers =>
      heading ← upper (language self);
      Ok (("Language: " +:+ heading +:+ " (" +:+
           str_of_len current_speakers +:+ " speakers)")
          :: rule :: speaker_lines current_speakers)
  | None =>
      Ok ["No speakers available for current language: " +:+ language self]
  end.

(** [print_default_speakers(self)]: the strings given to [print], in
    order. *)
Definition print_default_speakers {Model} (self : Interface Model)
    : result (list string) :=
  let total_speakers :=
    list_sum (map (fun item => length (snd item)) default_speakers_items) in
  blocks ← language_blocks default_speakers_items;
  current ← current_language_block self;
  Ok ([nl +:+ "=== ALL AVAILABLE SPEAKERS ===";
       "Total: " +:+ str_of_int (Z.of_nat total_speakers) +:+
       " speakers across " +:+ str_of_len default_speakers_items +:+
       " languages";
       rule] ++
      blocks ++
      [nl +:+ nl +:+ "=== SPEAKERS FOR CURRENT INTERFACE LANGUAGE ==="] ++
      current ++
      [nl +:+ "To use a speaker: load_default_speaker(name)" +:+ nl]).

(** [HFModelConfig()]: the defaults of the fields that the interface
    reads. *)
Definition default_config : HFModelConfig :=
  {| config_language := "en";
     config_languages := [];
     config_verbose := false;
     max_seq_length := 4096 |}.
End Listing.

(** ** The Python primitives on small inputs *)
Section Examples.

Example py_slice_inner : py_slice [10; 11; 12; 13; 14] 1 3 = [11; 12].
Proof. reflexivity. Qed.

Example py_slice_overlong : py_slice [10; 11; 12] 2 7 = [12].
Proof. reflexivity. Qed.

Example py_slice_backwards : py_slice [10; 11; 12] 2 1 = [].
Proof. reflexivity. Qed.

Example py_slice_negative : py_slice [10; 11; 12; 13] (-3) (-1) = [11; 12].
Proof. reflexivity. Qed.

Example lower_strip_name : strip (lower "  Male_1 ") = "male_1".
Proof. reflexivity. Qed.

Example strip_inner_blank : strip " a b " = "a b".
Proof. reflexivity. Qed.

Example os_path_join_relative :
  os_path_join "/pkg/v1" "default_speakers" = "/pkg/v1/default_speakers".
Proof. reflexivity. Qed.

Example os_path_join_absolute : os_path_join "/pkg/v1" "/etc" = "/etc".
Proof. reflexivity. Qed.

Example str_of_int_negative : str_of_int (-4097) = "-4097".
Proof. reflexivity. Qed.

Example sentinel_region_found :
  sentinel_region 1000 1001 [5; 1000; 7; 8; 1001; 9] = [7; 8].
Proof. reflexivity. Qed.

Example sentinel_region_unclosed :
  sentinel_region 1000 1001 [5; 1000; 7; 8] = [].
Proof. reflexivity. Qed.
End Examples.

(** ** A sample environment

    Concrete collaborators on which the model can be run.  Tensors are
    lists of codec tokens and floats are fixed-point numbers with two
    decimals; they stand in for [torch.Tensor] and binary64. *)
Module Sample.

Inductive fixed : Type :=
| Hundredths (n : Z)
| NotANumber
| PlusInfinity
| MinusInfinity.

(** [a / b] rounded to the nearest integer, ties to even; [0 < b]. *)
Definition round_div (a b : Z) : Z :=
  let q := a / b in
  let r := a mod b in
  if 2 * r <? b then q
  else if b <? 2 * r then q + 1
  else if Z.even q then q else q + 1.

Definition hundredths_of (x : fixed) : Z :=
  match x with Hundredths n => n | _ => 0 end.

Definition fixed_truediv (a b : Z) : fixed :=
  if b <? 0 then Hundredths (round_div (- (100 * a)) (- b))
  else Hundredths (round_div (100 * a) b).

Definition fixed_mul (x : fixed) (k : Z) : fixed :=
  match x with Hundredths n => Hundredths (n * k) | _ => x end.

Definition fixed_round (x : fixed) : Z := round_div (hundredths_of x) 100.

Definition fixed_round_ndigits (x : fixed) (ndigits : Z) : fixed :=
  match x with
  | Hundredths n =>
      if 2 <=? ndigits then x
      else let unit := 10 ^ (2 - ndigits) in
           Hundredths (round_div n unit * unit)
  | _ => x
  end.

Definition fixed_kind (x : fixed) : float_kind :=
  match x with
  | Hundredths _ => FFinite
  | NotANumber => FNaN
  | PlusInfinity => FPosInf
  | MinusInfinity => FNegInf
  end.

(** The number of hundredths as a rational. *)
Definition fixed_value (x : fixed) : Q := Qmake (hundredths_of x) 100.

(** Sign, integer part, point, two decimals. *)
Definition fixed_digits (n : Z) : str :=
  (if n <? 0 then [ord "-"] else []) ++
  nat_digits (Z.abs n / 100) ++
  [ord "."; digit_char (Z.abs n mod 100 / 10);
   digit_char (Z.abs n mod 10)].

Definition fixed_repr (x : fixed) : str :=
  fixed_digits (hundredths_of x).

Definition two_decimals (frac : str) : Z :=
  match frac with
  | _ :: d1 :: d2 :: _ => 10 * digit_value d1 + digit_value d2
  | [_; d1] => 10 * digit_value d1
  | _ => 0
  end.

(** Reads the sign, the integer part and the first two decimals. *)
Definition fixed_of_literal (l : str) : fixed :=
  let (negative, body) :=
    match l with
    | c :: r => if c =? 45 then (true, r) else (false, l)
    | [] => (false, l)
    end in
  let (int_part, frac) := span_digits body in
  let n := 100 * digits_value int_part + two_decimals frac in
  Hundredths (if negative then - n else n).

(** Two Japanese words, and a character beyond the basic plane: the
    code points of the hiragana for "ohayou" and "gozaimasu", and of the
    ideograph U+20BB7. *)
Definition ohayou : str := [0x304A; 0x306F; 0x3088; 0x3046].
Definition gozaimasu : str := [0x3054; 0x3056; 0x3044; 0x307E; 0x3059].
Definition yoshi : str := [0x20BB7].

(** The aligner knows three recordings.  In the first the two words
take three codec tokens each; in the second the last word has no extent;
the third is Japanese. *)
Definition sample_align (languages : list string)
    (audio_path : string) (transcript : str) (lang : string)
    : result (list (str * list Z * Z * Z)) :=
  if String.eqb audio_path "hello_world.wav" then
    Ok [(lit "hello", [11; 12; 13], 0, 4); (lit "world", [14; 15; 16], 4, 8)]
  else if String.eqb audio_path "pause.wav" then
    Ok [(lit "so", [11; 12; 13], 0, 4); (lit "well", [], 4, 4)]
  else if String.eqb audio_path "ohayou.wav" then
    Ok [(ohayou, [21; 22; 23], 0, 4); (gozaimasu ++ yoshi, [24; 25], 4, 7)]
  else Raise (FileNotFoundError audio_path).

#[export] Instance env : Env := {|
  float := fixed;
  Tensor := list Z;
  GenExtra := unit;
  DynExtra := unit;
  ENABLE_PLAYBACK := false;
  BASE_DIR := "/site-packages/outetts/version/v1";
  int_truediv := fixed_truediv;
  float_mul_int := fixed_mul;
  round_to_int := fixed_round;
  round_ndigits := fixed_round_ndigits;
  float_kind_of := fixed_kind;
  float_value := fixed_value;
  float_nan := NotANumber;
  float_inf := PlusInfinity;
  float_neg_inf := MinusInfinity;
  float_repr := fixed_repr;
  float_of_literal := fixed_of_literal;
  transcribe_once := fun _ _ _ => Ok (lit "hello world");
  ctc_align := sample_align;
  ctc_sample_rate := 100;
  torch_cat := fun parts => Ok (concat parts)
|}.

Definition sample_pp : PromptProcessor := {|
  get_completion_prompt := fun text lang speaker =>
    Ok (lit lang ++ lit ": " ++ text);
  tokenizer_encode := fun prompt => Ok prompt;
  extract_audio_from_tokens := fun tokens =>
    Ok (sentinel_region 1000 1001 tokens)
|}.

Definition sample_codec : AudioCodec := {|
  codec_sr := 24000;
  decode := fun codes => Ok codes;
  convert_audio_tensor := fun wave _ => Ok wave;
  encode := fun wave => Ok [[wave]]
|}.

Definition sample_config : HFModelConfig := {|
  config_language := "en";
  config_languages := ["en"; "ja"; "ko"; "zh"];
  config_verbose := false;
  max_seq_length := 4096
|}.

(** Backends stubbed to return a given token sequence. *)
Definition hf (output : list Z) : InterfaceHF.t :=
  InterfaceHF.init sample_config sample_codec sample_pp
    {| hf_generate := fun _ _ => Ok output |}.

Definition gguf (output : list Z) : InterfaceGGUF.t :=
  InterfaceHF.init sample_config sample_codec sample_pp
    {| gguf_generate := fun _ _ => Ok output;
       gguf_generate_stream := fun _ _ => (output, None) |}.

Definition exl2 (output : list Z) : InterfaceEXL2.t :=
  InterfaceHF.init sample_config sample_codec sample_pp
    {| exl2_generate := fun _ _ _ => Ok output |}.

(** A profile of two words, and a file system that holds it as the
bundled Japanese speaker [male_1]. *)
Definition ja_profile : json :=
  JObject [(lit "text", JString (ohayou ++ gozaimasu ++ yoshi));
           (lit "words",
            JArray [InterfaceHF.word_entry ohayou (Hundredths 4)
                      [101; 102; 103];
                    InterfaceHF.word_entry (gozaimasu ++ yoshi)
                      (Hundredths 1) [1]]);
           (lit "language", JString "ja")].

Definition fs : FileSystem := {|
  target := fun path => path;
  files := {[ get_speaker_path "ja_male_1" := json_dumps ja_profile 2 ]};
  failure := fun _ _ => None
|}.

(** An interface whose prompt processor passes every token on as audio
and whose codec cannot decode fewer than four codes; the backend streams
[output]. *)
Definition short_chunk_error : exn :=
  CollaboratorError "too few codes to decode".

Definition flaky (output : list Z) : InterfaceGGUF.t :=
  InterfaceHF.init sample_config
    {| codec_sr := 24000;
       decode := fun codes =>
         if Z.of_nat (length codes) <? 4 then Raise short_chunk_error
         else Ok codes;
       convert_audio_tensor := fun wave _ => Ok wave;
       encode := fun wave => Ok [[wave]] |}
    {| get_completion_prompt := fun text lang speaker =>
         Ok (lit lang ++ lit ": " ++ text);
       tokenizer_encode := fun prompt => Ok prompt;
       extract_audio_from_tokens := fun tokens => Ok tokens |}
    {| gguf_generate := fun _ _ => Ok output;
       gguf_generate_stream := fun _ _ => (output, None) |}.

(** A stream of 125 tokens: three audio regions of 48, 48 and 23 codes,
each between its two sentinels. *)
Definition codes (first count : nat) : list Z :=
  map Z.of_nat (seq first count).

Definition stream_125 : list Z :=
  (1000 :: codes 0 48 ++ [1001]) ++ (1000 :: codes 48 48 ++ [1001]) ++
  (1000 :: codes 96 23 ++ [1001]).

(** A backend that raises once it has streamed [output]. *)
Definition stream_error : exn := CollaboratorError "backend stopped".

Definition broken (output : list Z) : InterfaceGGUF.t :=
  InterfaceHF.init sample_config sample_codec sample_pp
    {| gguf_generate := fun _ _ => Raise stream_error;
       gguf_generate_stream := fun _ _ => (output, Some stream_error) |}.

(** An interface whose prompt processor raises when asked for the
    prompt. *)
Definition prompt_error : exn := CollaboratorError "KeyError: 'words'".

Definition no_prompt (output : list Z) : InterfaceHF.t :=
  InterfaceHF.init sample_config sample_codec
    {| get_completion_prompt := fun _ _ _ => Raise prompt_error;
       tokenizer_encode := fun prompt => Ok prompt;
       extract_audio_from_tokens := fun tokens =>
         Ok (sentinel_region 1000 1001 tokens) |}
    {| hf_generate := fun _ _ => Ok output |}.

(** Devices that accept everything; a numpy array is a list of
    samples. *)
Definition devices : Devices (list Z) := {|
  tensor_cpu := fun a => Ok a;
  torchaudio_save := fun _ _ _ _ _ => Ok tt;
  first_channel := fun a => Ok a;
  sd_play := fun _ _ => Ok tt;
  sd_wait := Ok tt
|}.
End Sample.

(** The JSON text of a list and of a string, and two texts read
    back. *)
Section SampleJson.
#[local] Existing Instance Sample.env.

Example json_dumps_list :
  json_dumps (JArray [JInt 1; JInt (-2); JFloat (Sample.Hundredths 4)]) 2
  = lit "[
  1,
  -2,
  0.04
]".
Proof. reflexivity. Qed.

Example json_dumps_text :
  json_dumps (JString (Sample.ohayou ++ [ord "!"] ++ Sample.yoshi)) 2
  = [dquote] ++ lit "\u304a\u306f\u3088\u3046!\ud842\udfb7" ++ [dquote].
Proof. reflexivity. Qed.

Example json_loads_list :
  json_loads " [1, -2 , [ ], null]"
  = Ok (JArray [JInt 1; JInt (-2); JArray []; JNull]).
Proof. reflexivity. Qed.

Example json_loads_trailing_comma :
  json_loads "[1,]" = Raise (JSONDecodeError "Expecting value").
Proof. reflexivity. Qed.
End SampleJson.
(** ** Facts about the JSON text format *)

Section Bits.
Lemma lor_high h x : 0 <= x < 1024 -> Z.lor (h * 1024) x = h * 1024 + x.
Proof.
  intros Hx. symmetry. apply Z.add_nocarry_lor.
  rewrite <- (Z.mod_small x (2 ^ 10)) by lia.
  rewrite <- Z.land_ones by lia.
  rewrite (Z.land_comm x), Z.land_assoc, (Z.land_ones (h * 1024)) by lia.
  change (2 ^ 10) with 1024. by rewrite Z.mod_mul.
Qed.

Lemma land_low h x : 0 <= x < 1024 -> Z.land (h * 1024 + x) 0x3ff = x.
Proof.
  intros Hx. change 0x3ff with (Z.ones 10). rewrite Z.land_ones by lia.
  change (2 ^ 10) with 1024.
  rewrite Z.add_comm, Z.mod_add by lia. by apply Z.mod_small.
Qed.

Lemma land_small x : 0 <= x < 1024 -> Z.land x 0x3ff = x.
Proof. intros Hx. by rewrite <- (land_low 0 x Hx) at 2. Qed.

(** The high and the low surrogate for the character [0x10000 + n]. *)
Lemma high_surrogate_of n :
  0 <= n < 0x100000 ->
  Z.lor 0xd800 (Z.land (Z.shiftr n 10) 0x3ff) = 0xd800 + n / 1024.
Proof.
  intros Hn. rewrite Z.shiftr_div_pow2 by lia. change (2 ^ 10) with 1024.
  assert (0 <= n / 1024 < 1024) as Hq.
  { split; [apply Z.div_pos; lia|apply Z.div_lt_upper_bound; lia]. }
  rewrite land_small by done.
  by rewrite (lor_high 54).
Qed.

Lemma low_surrogate_of n :
  Z.lor 0xdc00 (Z.land n 0x3ff) = 0xdc00 + n mod 1024.
Proof.
  change 0x3ff with (Z.ones 10). rewrite Z.land_ones by lia.
  change (2 ^ 10) with 1024.
  apply (lor_high 55). apply Z.mod_pos_bound. lia.
Qed.

Lemma join_surrogates_of n :
  0 <= n < 0x100000 ->
  join_surrogates (0xd800 + n / 1024) (0xdc00 + n mod 1024) = n + 0x10000.
Proof.
  intros Hn. unfold join_surrogates.
  assert (0 <= n / 1024 < 1024) as Hq.
  { split; [apply Z.div_pos; lia|apply Z.div_lt_upper_bound; lia]. }
  pose proof (Z.mod_pos_bound n 1024 ltac:(lia)) as Hr.
  rewrite (land_low 54), (land_low 55) by done.
  rewrite Z.shiftl_mul_pow2 by lia. change (2 ^ 10) with 1024.
  rewrite lor_high by done.
  pose proof (Z.div_mod n 1024 ltac:(lia)). lia.
Qed.
End Bits.

Section JsonStrings.
Context `{Env}.

Lemma hex_value_hex_digit d :
  0 <= d < 16 -> hex_value (hex_digit d) = Some d.
Proof.
  intros Hd.
  assert (d = 0 \/ d = 1 \/ d = 2 \/ d = 3 \/ d = 4 \/ d = 5 \/ d = 6 \/
          d = 7 \/ d = 8 \/ d = 9 \/ d = 10 \/ d = 11 \/ d = 12 \/ d = 13 \/
          d = 14 \/ d = 15) as Hcases by lia.
  repeat (destruct Hcases as [->|Hcases]; [reflexivity|]). by subst d.
Qed.

(** The four digits of an escape, read back. *)
Lemma hex4_digits n :
  0 <= n < 0x10000 ->
  hex4 (hex_digit (n / 4096)) (hex_digit (n / 256 mod 16))
    (hex_digit (n / 16 mod 16)) (hex_digit (n mod 16)) = Some n.
Proof.
  intros Hn. unfold hex4.
  assert (0 <= n / 4096 < 16) as H1
    by (split; [apply Z.div_pos; lia|apply Z.div_lt_upper_bound; lia]).
  pose proof (Z.mod_pos_bound (n / 256) 16 ltac:(lia)) as H2.
  pose proof (Z.mod_pos_bound (n / 16) 16 ltac:(lia)) as H3.
  pose proof (Z.mod_pos_bound n 16 ltac:(lia)) as H4.
  rewrite !hex_value_hex_digit by done.
  cbn [mbind option_bind]. f_equal. Z.div_mod_to_equations. lia.
Qed.

(** The text begins with the escape of a low surrogate, or with an
    escape that cannot be read, which have at least one character after
    them. *)
Definition low_escape_ahead (s : str) : bool :=
  match s with
  | b :: u :: r =>
      if (b =? 92) && (u =? 117) then
        match r with
        | k1 :: k2 :: k3 :: k4 :: _ :: _ =>
            match hex4 k1 k2 k3 k4 with
            | Some n2 => is_low_surrogate n2
            | None => true
            end
        | _ => false
        end
      else false
  | _ => false
  end.

(** An escape that is read as the character it names. *)
Lemma scanstring_u n r2 :
  0 <= n < 0x10000 -> r2 <> [] ->
  is_high_surrogate n && low_escape_ahead r2 = false ->
  scanstring (u_escape n ++ r2) = prepend n (scanstring r2).
Proof.
  intros Hn Hr2 Hpair. unfold u_escape. cbn [app scanstring].
  change (backslash =? 34) with false. change (backslash =? 92) with true.
  change (ord "u" =? 117) with true. cbn match.
  rewrite hex4_digits by done.
  destruct r2 as [|b r2]; [done|].
  destruct r2 as [|u [|k1 [|k2 [|k3 [|k4 [|x r3]]]]]]; try done.
  cbn [low_escape_ahead] in Hpair.
  destruct (is_high_surrogate n); [|done]. cbn [andb] in Hpair |- *.
  destruct ((b =? 92) && (u =? 117)); [|done].
  destruct (hex4 k1 k2 k3 k4) as [n2|]; [|done]. by rewrite Hpair.
Qed.

(** The two escapes of a character beyond the basic plane, read as that
    character. *)
Lemma scanstring_pair c tail :
  0x10000 <= c < 0x110000 -> tail <> [] ->
  scanstring (escape_char c ++ tail) = prepend c (scanstring tail).
Proof.
  intros Hc Htail. unfold escape_char.
  repeat match goal with
         | |- context [?a =? ?b] =>
             destruct (Z.eqb_spec a b) as [?|_]; [lia|]
         end.
  destruct (Z.leb_spec 32 c); [|lia]. destruct (Z.leb_spec c 126); [lia|].
  destruct (Z.ltb_spec c 0x10000); [lia|]. cbn [andb]. cbv zeta.
  rewrite high_surrogate_of, low_surrogate_of by lia.
  set (n := c - 0x10000).
  assert (0 <= n < 0x100000) as Hn by (unfold n; lia).
  assert (0 <= n / 1024 < 1024) as Hq.
  { split; [apply Z.div_pos; lia|apply Z.div_lt_upper_bound; lia]. }
  pose proof (Z.mod_pos_bound n 1024 ltac:(lia)) as Hr.
  destruct tail as [|x tail]; [done|].
  rewrite <- app_assoc. unfold u_escape at 1. cbn [app scanstring].
  change (backslash =? 34) with false. change (backslash =? 92) with true.
  change (ord "u" =? 117) with true. cbn match.
  rewrite hex4_digits by lia.
  assert (is_high_surrogate (0xd800 + n / 1024) = true) as ->.
  { unfold is_high_surrogate. apply andb_true_intro.
    split; apply Z.leb_le; lia. }
  unfold u_escape. cbn [app].
  change (backslash =? 92) with true. change (ord "u" =? 117) with true.
  cbn [andb]. rewrite hex4_digits by lia.
  assert (is_low_surrogate (0xdc00 + n mod 1024) = true) as ->.
  { unfold is_low_surrogate. apply andb_true_intro.
    split; apply Z.leb_le; lia. }
  rewrite join_surrogates_of by done. unfold n.
  by replace (c - 0x10000 + 0x10000) with c by lia.
Qed.

(** A Python [str] holds code points only. *)
Definition is_str (s : str) : Prop := forallb is_code_point s = true.

(** No high surrogate stands directly before a low one. *)
Fixpoint no_surrogate_pair (s : str) : bool :=
  match s with
  | [] => true
  | c :: r =>
      negb (is_high_surrogate c &&
            match r with c' :: _ => is_low_surrogate c' | [] => false end) &&
      no_surrogate_pair r
  end.

(** Text that [json] writes and reads back as it is. *)
Definition well_formed (s : str) : Prop :=
  is_str s /\ no_surrogate_pair s = true.

Lemma low_escape_ahead_dquote rest : low_escape_ahead (dquote :: rest) = false.
Proof. by destruct rest. Qed.

Ltac code_cases c :=
  repeat match goal with
         | |- context [c =? ?b] =>
             destruct (Z.eqb_spec c b) as [->|?]; [try reflexivity|]
         end.

Lemma low_escape_ahead_escape c tail :
  is_code_point c = true -> is_low_surrogate c = false ->
  low_escape_ahead (escape_char c ++ tail) = false.
Proof.
  unfold is_code_point. intros [Hc0 Hc1]%andb_prop Hlow.
  apply Z.leb_le in Hc0. apply Z.ltb_lt in Hc1.
  unfold escape_char. code_cases c.
  destruct ((32 <=? c) && (c <=? 126)) eqn:Hprint.
  { cbn [app]. destruct tail as [|u r]; [done|]. cbn [low_escape_ahead].
    by destruct (Z.eqb_spec c 92). }
  destruct (Z.ltb_spec c 0x10000) as [Hbmp|Hastral].
  - unfold u_escape. cbn [app low_escape_ahead].
    change (backslash =? 92) with true. change (ord "u" =? 117) with true.
    cbn [andb]. destruct tail as [|x tail]; [done|].
    by rewrite hex4_digits, Hlow by lia.
  - cbv zeta. rewrite high_surrogate_of, low_surrogate_of by lia.
    unfold u_escape. cbn [app low_escape_ahead].
    change (backslash =? 92) with true. change (ord "u" =? 117) with true.
    cbn [andb].
    assert (0 <= (c - 65536) / 1024 < 1024) as Hq.
    { split; [apply Z.div_pos; lia|apply Z.div_lt_upper_bound; lia]. }
    rewrite hex4_digits by lia.
    unfold is_low_surrogate. apply andb_false_intro1, Z.leb_gt. lia.
Qed.

(** The escape of a character is read back as that character. *)
Lemma scanstring_escape_char c tail :
  is_code_point c = true -> tail <> [] ->
  is_high_surrogate c && low_escape_ahead tail = false ->
  scanstring (escape_char c ++ tail) = prepend c (scanstring tail).
Proof.
  unfold is_code_point. intros [Hc0 Hc1]%andb_prop Htail Hpair.
  apply Z.leb_le in Hc0. apply Z.ltb_lt in Hc1.
  destruct (Z.ltb_spec c 0x10000) as [Hbmp|Hastral];
    [|apply scanstring_pair; [lia|done]].
  unfold escape_char. code_cases c.
  destruct (Z.leb_spec 32 c) as [Hlo|Hlo]; cbn [andb].
  - destruct (Z.leb_spec c 126) as [Hhi|Hhi].
    + cbn [app scanstring].
      destruct (Z.eqb_spec c 34); [done|]. destruct (Z.eqb_spec c 92); [done|].
      by destruct (Z.leb_spec c 31); [lia|].
    + destruct (Z.ltb_spec c 0x10000); [|lia].
      apply scanstring_u; [lia|done..].
  - destruct (Z.ltb_spec c 0x10000); [|lia].
    apply scanstring_u; [lia|done..].
Qed.

Lemma scanstring_escaped cs rest :
  well_formed cs ->
  scanstring (flat_map escape_char cs ++ dquote :: rest) = Ok (cs, rest).
Proof.
  intros [Hstr Hpairs]. unfold is_str in Hstr.
  induction cs as [|c cs IH]; [done|].
  cbn [forallb] in Hstr. apply andb_prop in Hstr as [Hc Hstr].
  cbn [no_surrogate_pair] in Hpairs. apply andb_prop in Hpairs as [Hpair Hpairs].
  cbn [flat_map]. rewrite <- app_assoc, scanstring_escape_char.
  - by rewrite IH.
  - done.
  - intros Hnil. by apply app_eq_nil in Hnil as [_ ?].
  - destruct (is_high_surrogate c); [|done]. cbn [andb] in Hpair |- *.
    destruct cs as [|c' cs]; [apply low_escape_ahead_dquote|].
    cbn [flat_map]. rewrite <- app_assoc. cbn [forallb] in Hstr.
    apply andb_prop in Hstr as [Hc' _].
    apply low_escape_ahead_escape; [done|]. by apply negb_true_iff.
Qed.

Lemma parse_string_encoded fuel s rest :
  well_formed s ->
  parse_value (S fuel) (encode_basestring_ascii s ++ rest) =
  Ok (JString s, rest).
Proof.
  intros Hs. unfold encode_basestring_ascii. cbn [app parse_value].
  change (dquote =? 34) with true. cbn match.
  rewrite <- app_assoc. cbn [app]. by rewrite scanstring_escaped.
Qed.
End JsonStrings.
Section Digits.
Lemma ascii_code_chr n : 0 <= n < 256 -> ascii_code (chr n) = n.
Proof.
  intros Hn. unfold ascii_code, chr.
  rewrite N_ascii_embedding; lia.
Qed.

Lemma ascii_code_range c : 0 <= ascii_code c < 256.
Proof.
  unfold ascii_code. pose proof (N_ascii_bounded c). lia.
Qed.

Lemma chr_ascii_code c : chr (ascii_code c) = c.
Proof.
  unfold ascii_code, chr. rewrite N2Z.id. apply ascii_N_embedding.
Qed.

Lemma ascii_code_inj c d : ascii_code c = ascii_code d -> c = d.
Proof.
  intros Heq. rewrite <- (chr_ascii_code c), <- (chr_ascii_code d).
  by rewrite Heq.
Qed.

(** A string is the string of its text. *)
Lemma string_of_codes_lit s : string_of_codes (lit s) = s.
Proof.
  unfold string_of_codes, lit. rewrite map_map.
  rewrite (map_ext _ id) by apply chr_ascii_code.
  by rewrite map_id, string_of_list_ascii_of_string.
Qed.

Lemma lit_inj a b : lit a = lit b -> a = b.
Proof.
  intros Heq. by rewrite <- (string_of_codes_lit a), Heq, string_of_codes_lit.
Qed.

Lemma str_eqb_spec a b : reflect (a = b) (str_eqb a b).
Proof.
  revert b. induction a as [|x a IH]; intros [|y b]; cbn;
    try (by constructor).
  destruct (Z.eqb_spec x y) as [->|Hne]; cbn.
  - destruct (IH b) as [->|Hne]; constructor; congruence.
  - constructor. congruence.
Qed.

Lemma digit_char_is_digit d : 0 <= d <= 9 -> is_digit (digit_char d) = true.
Proof.
  intros Hd. unfold is_digit, digit_char.
  apply andb_true_iff. split; apply Z.leb_le; lia.
Qed.

Lemma digit_char_value d : digit_value (digit_char d) = d.
Proof. unfold digit_value, digit_char. lia. Qed.

Lemma digits_value_snoc ds c :
  digits_value (ds ++ [c]) = 10 * digits_value ds + digit_value c.
Proof. unfold digits_value. by rewrite fold_left_app. Qed.

Lemma digits_fuel_acc fuel : forall n acc,
  digits_fuel fuel n acc = digits_fuel fuel n [] ++ acc.
Proof.
  induction fuel as [|fuel IH]; intros n acc; [done|].
  cbn [digits_fuel]. destruct (n <? 10); [done|].
  rewrite (IH _ (_ :: acc)), (IH _ [_]), <- app_assoc. done.
Qed.

Lemma digits_fuel_S fuel n acc :
  digits_fuel (S fuel) n acc =
  if n <? 10 then digit_char (n mod 10) :: acc
  else digits_fuel fuel (n / 10) (digit_char (n mod 10) :: acc).
Proof. done. Qed.

(** Text without surrogates is well formed; so is every Latin-1
    string. *)
Lemma no_surrogates_well_formed s :
  Forall (fun c => 0 <= c < 0xD800) s -> well_formed s.
Proof.
  intros Hs. split.
  - unfold is_str. apply forallb_forall. intros c Hc%list_elem_of_In.
    pose proof (proj1 (Forall_forall _ _) Hs c Hc) as Hrange.
    cbn beta in Hrange. unfold is_code_point. apply andb_true_intro.
    split; [apply Z.leb_le|apply Z.ltb_lt]; lia.
  - induction Hs as [|c r Hc _ IH]; [done|].
    cbn [no_surrogate_pair]. rewrite IH.
    assert (is_high_surrogate c = false) as ->; [|done].
    unfold is_high_surrogate. apply andb_false_intro1, Z.leb_gt. lia.
Qed.


Lemma lit_well_formed s : well_formed (lit s).
Proof.
  apply no_surrogates_well_formed, Forall_map, Forall_forall.
  intros c _. pose proof (ascii_code_range c). unfold compose. lia.
Qed.

(** What makes a run of characters the decimal numeral of [n]. *)
Record numeral (ds : str) (n : Z) : Prop := {
  numeral_digits : Forall (fun c => is_digit c = true) ds;
  numeral_value : digits_value ds = n;
  numeral_head :
    match ds with
    | [] => False
    | c :: ds' => if n =? 0 then ds' = [] else c <> 48
    end
}.

Lemma digits_fuel_numeral fuel : forall n,
  0 <= n < 2 ^ Z.of_nat (S fuel) ->
  numeral (digits_fuel (S fuel) n []) n.
Proof.
  induction fuel as [|fuel IH]; intros n Hn.
  - assert ((n <? 10) = true) as Hlt by (apply Z.ltb_lt; cbn in Hn; lia).
    cbn [digits_fuel]. rewrite Hlt.
    assert (n = 0 \/ n = 1) as [-> | ->] by (cbn in Hn; lia);
      split; cbn; try done; repeat constructor.
  - rewrite digits_fuel_S. destruct (Z.ltb_spec n 10) as [Hlt|Hge].
    + rewrite Z.mod_small by lia. split.
      * repeat constructor. apply digit_char_is_digit. lia.
      * unfold digits_value. cbn. rewrite digit_char_value; lia.
      * destruct (Z.eqb_spec n 0); [done|].
        unfold digit_char. lia.
    + rewrite digits_fuel_acc.
      assert (0 <= n / 10 < 2 ^ Z.of_nat (S fuel)) as Hq.
      { split; [apply Z.div_pos; lia|].
        apply Z.div_lt_upper_bound; [lia|].
        rewrite Nat2Z.inj_succ, Z.pow_succ_r in Hn by lia. lia. }
      destruct (IH _ Hq) as [Hd Hv Hh].
      pose proof (Z.mod_pos_bound n 10 ltac:(lia)) as Hm.
      split.
      * apply Forall_app. split; [done|].
        repeat constructor. apply digit_char_is_digit. lia.
      * rewrite digits_value_snoc, Hv, digit_char_value.
        pose proof (Z.div_mod n 10 ltac:(lia)). lia.
      * destruct (digits_fuel (S fuel) (n `div` 10) []) as [|c ds']; [done|].
        cbn [app].
        assert (n / 10 <> 0) as Hnz.
        { intros H0. apply Z.div_small_iff in H0; lia. }
        destruct (Z.eqb_spec (n / 10) 0); [done|].
        destruct (Z.eqb_spec n 0); [lia|done].
Qed.

Lemma nat_digits_numeral n : 0 <= n -> numeral (nat_digits n) n.
Proof.
  intros Hn. unfold nat_digits. apply digits_fuel_numeral.
  split; [done|]. rewrite Nat2Z.inj_succ, Z2Nat.id by apply Z.log2_nonneg.
  destruct (Z.eq_dec n 0) as [->|Hnz]; [done|].
  apply Z.log2_spec. lia.
Qed.
End Digits.
Section Numbers.
Context `{Env}.

(** What follows a value in the text that [render] writes: nothing, a
    comma, or a line feed. *)
Definition delimited (rest : str) : Prop :=
  match rest with
  | [] => True
  | c :: _ => c = 44 \/ c = 10
  end.

(** What may follow the integer part of a number: no digit and no
    minus sign. *)
Definition ends_integer (rest : str) : Prop :=
  match rest with
  | [] => True
  | c :: _ => is_digit c = false /\ c <> 45
  end.

Lemma delimited_ends_integer rest : delimited rest -> ends_integer rest.
Proof.
  destruct rest as [|c r]; [done|].
  intros [Hc|Hc]; unfold ends_integer, is_digit; rewrite Hc; done.
Qed.

Ltac delim_cases rest Hd :=
  destruct rest as [|? ?]; [|destruct Hd as [Hd|Hd]];
  cbn; unfold is_digit; rewrite ?Hd; try done.

Lemma span_digits_split s :
  (span_digits s).1 ++ (span_digits s).2 = s.
Proof.
  induction s as [|c s IH]; [done|]. cbn.
  destruct (is_digit c); [|done].
  destruct (span_digits s) as [ds r]. cbn in *. by rewrite IH.
Qed.

Lemma span_digits_rest s rest :
  ends_integer rest ->
  span_digits (s ++ rest) = ((span_digits s).1, (span_digits s).2 ++ rest).
Proof.
  intros Hd. induction s as [|c s IH].
  - destruct rest as [|c r]; [done|]. destruct Hd as [Hc _].
    cbn. by rewrite Hc.
  - cbn. destruct (is_digit c); [|done].
    rewrite IH. by destruct (span_digits s).
Qed.

Lemma span_digits_all ds :
  Forall (fun c => is_digit c = true) ds -> span_digits ds = (ds, []).
Proof.
  induction 1 as [|c ds Hc _ IH]; [done|]. cbn. by rewrite Hc, IH.
Qed.

Definition with_rest {A} (rest : str)
    (r : option (A * str)) : option (A * str) :=
  match r with
  | Some (a, s) => Some (a, s ++ rest)
  | None => None
  end.

Lemma scan_unsigned_rest s rest :
  ends_integer rest ->
  scan_unsigned (s ++ rest) = with_rest rest (scan_unsigned s).
Proof.
  intros Hd. destruct s as [|c s].
  - destruct rest as [|c r]; [done|]. destruct Hd as [Hc _].
    cbn. rewrite Hc. by destruct (c =? 48) eqn:H0;
      [apply Z.eqb_eq in H0; unfold is_digit in Hc; rewrite H0 in Hc|].
  - cbn. destruct (c =? 48); [done|].
    destruct (is_digit c); [|done].
    rewrite span_digits_rest by done. by destruct (span_digits s).
Qed.

Lemma scan_integer_rest s rest :
  ends_integer rest ->
  scan_integer (s ++ rest) = with_rest rest (scan_integer s).
Proof.
  intros Hd. destruct s as [|c s].
  - pose proof (scan_unsigned_rest [] rest Hd) as Hu.
    destruct rest as [|c r]; [done|]. destruct Hd as [_ Hc].
    cbn [app scan_integer] in *.
    by destruct (Z.eqb_spec (c) 45).
  - cbn [app scan_integer]. destruct (c =? 45).
    + rewrite scan_unsigned_rest by done.
      by destruct (scan_unsigned s) as [[ds r]|].
    + by rewrite <- scan_unsigned_rest.
Qed.

Lemma scan_frac_rest s rest :
  delimited rest ->
  scan_frac (s ++ rest) = ((scan_frac s).1, (scan_frac s).2 ++ rest).
Proof.
  intros Hd. destruct s as [|c s].
  - delim_cases rest Hd.
  - cbn. destruct (c =? 46); [|done].
    rewrite span_digits_rest by (by apply delimited_ends_integer).
    by destruct (span_digits s) as [[|d ds] r].
Qed.

Lemma scan_sign_rest s rest :
  delimited rest ->
  scan_sign (s ++ rest) = ((scan_sign s).1, (scan_sign s).2 ++ rest).
Proof.
  intros Hd. destruct s as [|c s].
  - delim_cases rest Hd.
  - cbn. by destruct (_ || _).
Qed.

Lemma scan_exp_rest s rest :
  delimited rest ->
  scan_exp (s ++ rest) = ((scan_exp s).1, (scan_exp s).2 ++ rest).
Proof.
  intros Hd. destruct s as [|c s].
  - delim_cases rest Hd.
  - cbn. destruct (_ || _); [|done].
    rewrite scan_sign_rest by done.
    destruct (scan_sign s) as [sg r1]. cbn.
    rewrite span_digits_rest by (by apply delimited_ends_integer).
    by destruct (span_digits r1) as [[|d ds] r2].
Qed.

Lemma scan_unsigned_split s ds r :
  scan_unsigned s = Some (ds, r) -> ds ++ r = s.
Proof.
  destruct s as [|c s]; [done|]. cbn.
  destruct (c =? 48); [by intros [= <- <-]|].
  destruct (is_digit c); [|done].
  pose proof (span_digits_split s) as Hs.
  destruct (span_digits s) as [ds' r']. intros [= <- <-].
  cbn in *. by rewrite Hs.
Qed.

Lemma scan_integer_split s ds r :
  scan_integer s = Some (ds, r) -> ds ++ r = s.
Proof.
  destruct s as [|c s]; [done|]. cbn [scan_integer].
  destruct (c =? 45); [|apply scan_unsigned_split].
  destruct (scan_unsigned s) as [[ds' r']|] eqn:Hu; [|done].
  cbn. intros [= <- <-]. cbn. f_equal. by apply scan_unsigned_split.
Qed.

Lemma scan_frac_split s : (scan_frac s).1 ++ (scan_frac s).2 = s.
Proof.
  destruct s as [|c s]; [done|]. cbn.
  destruct (c =? 46); [|done].
  pose proof (span_digits_split s) as Hs.
  destruct (span_digits s) as [[|d ds] r]; [done|].
  cbn in *. by rewrite Hs.
Qed.

Lemma scan_sign_split s : (scan_sign s).1 ++ (scan_sign s).2 = s.
Proof. destruct s as [|c s]; [done|]. cbn. by destruct (_ || _). Qed.

Lemma scan_exp_split s : (scan_exp s).1 ++ (scan_exp s).2 = s.
Proof.
  destruct s as [|c s]; [done|]. cbn.
  destruct (_ || _); [|done].
  pose proof (scan_sign_split s) as Hs.
  destruct (scan_sign s) as [sg r1]. cbn in Hs.
  pose proof (span_digits_split r1) as Hd.
  destruct (span_digits r1) as [[|d ds] r2]; [done|].
  cbn in *. rewrite <- Hs, <- Hd, <- app_assoc. done.
Qed.

(** A number literal that is read to its end and as a float. *)
Definition float_literal (l : str) : Prop :=
  match scan_integer l with
  | Some (int_part, r) =>
      (scan_exp (scan_frac r).2).2 = [] /\
      ((scan_frac r).1 <> [] \/ (scan_exp (scan_frac r).2).1 <> [])
  | None => False
  end.

Lemma scan_number_float l rest :
  float_literal l -> delimited rest ->
  scan_number (l ++ rest) =
  Some (JFloat (float_of_literal l), rest).
Proof.
  unfold float_literal, scan_number. intros Hl Hd.
  rewrite scan_integer_rest by (by apply delimited_ends_integer).
  destruct (scan_integer l) as [[ip r]|] eqn:Hi; [|done].
  cbn. rewrite scan_frac_rest by done.
  apply scan_integer_split in Hi.
  pose proof (scan_frac_split r) as Hf.
  destruct (scan_frac r) as [fr r1]. cbn in *.
  rewrite scan_exp_rest by done.
  pose proof (scan_exp_split r1) as He.
  destruct (scan_exp r1) as [ex r2]. cbn in *.
  destruct Hl as [-> Hne]. rewrite app_nil_r in He. subst r1 r l.
  destruct fr as [|f fr]; [destruct ex as [|e ex]|]; cbn; try done.
  by destruct Hne.
Qed.
End Numbers.
Section Integers.
Context `{Env}.

Lemma is_digit_code c : is_digit c = true <-> 48 <= c <= 57.
Proof. unfold is_digit. rewrite andb_true_iff, !Z.leb_le. done. Qed.

Lemma scan_unsigned_nat_digits n :
  0 <= n -> scan_unsigned (nat_digits n) = Some (nat_digits n, []).
Proof.
  intros Hn. destruct (nat_digits_numeral n Hn) as [Hd Hv Hh].
  destruct (nat_digits n) as [|c ds]; [done|].
  apply Forall_cons in Hd as [Hc Hds]. cbn.
  destruct (Z.eqb_spec n 0) as [->|Hnz].
  - subst ds. unfold digits_value, digit_value in Hv. cbn in Hv.
    assert (c = 48) as -> by lia. done.
  - destruct (Z.eqb_spec (c) 48); [done|].
    by rewrite Hc, span_digits_all.
Qed.

Lemma scan_integer_minus s :
  scan_integer (ord "-" :: s) =
  match scan_unsigned s with
  | Some (ds, r) => Some (ord "-" :: ds, r)
  | None => None
  end.
Proof. cbn. by destruct (scan_unsigned s) as [[??]|]. Qed.

Lemma scan_integer_int_digits n :
  scan_integer (int_digits n) = Some (int_digits n, []).
Proof.
  unfold int_digits. destruct (Z.ltb_spec n 0) as [Hneg|Hpos].
  - by rewrite scan_integer_minus, scan_unsigned_nat_digits by lia.
  - pose proof (scan_unsigned_nat_digits n Hpos) as Hs.
    destruct (nat_digits_numeral n Hpos) as [Hd _ _].
    destruct (nat_digits n) as [|c ds]; [done|].
    apply Forall_cons in Hd as [Hc _]. apply is_digit_code in Hc.
    cbn [scan_integer].
    destruct (Z.eqb_spec (c) 45); [lia|done].
Qed.

Lemma int_of_literal_int_digits n : int_of_literal (int_digits n) = n.
Proof.
  unfold int_digits. destruct (Z.ltb_spec n 0) as [Hneg|Hpos].
  - destruct (nat_digits_numeral (- n) ltac:(lia)) as [_ Hv _].
    change (- digits_value (nat_digits (- n)) = n). lia.
  - destruct (nat_digits_numeral n Hpos) as [Hd Hv _].
    destruct (nat_digits n) as [|c ds]; [done|].
    apply Forall_cons in Hd as [Hc _]. apply is_digit_code in Hc.
    cbn [int_of_literal].
    destruct (Z.eqb_spec (c) 45); [lia|done].
Qed.

Lemma scan_frac_delimited rest : delimited rest -> scan_frac rest = ([], rest).
Proof.
  intros Hd. destruct rest as [|c r]; [done|].
  cbn. destruct Hd as [-> | ->]; done.
Qed.

Lemma scan_exp_delimited rest : delimited rest -> scan_exp rest = ([], rest).
Proof.
  intros Hd. destruct rest as [|c r]; [done|].
  cbn. destruct Hd as [-> | ->]; done.
Qed.

Lemma scan_number_int n rest :
  delimited rest ->
  scan_number (int_digits n ++ rest) = Some (JInt n, rest).
Proof.
  intros Hd. unfold scan_number.
  rewrite scan_integer_rest by (by apply delimited_ends_integer).
  rewrite scan_integer_int_digits. cbn.
  rewrite scan_frac_delimited, scan_exp_delimited by done.
  by rewrite int_of_literal_int_digits.
Qed.

(** A character that starts a number. *)
Definition number_head (c : Z) : Prop :=
  c = 45 \/ is_digit c = true.

Lemma int_digits_head n :
  exists c ds, int_digits n = c :: ds /\ number_head c.
Proof.
  unfold int_digits. destruct (Z.ltb_spec n 0) as [Hneg|Hpos].
  - exists (ord "-"), (nat_digits (- n)). split; [reflexivity|]. by left.
  - destruct (nat_digits_numeral n Hpos) as [Hd _ Hh].
    destruct (nat_digits n) as [|c ds]; [done|].
    apply Forall_cons in Hd as [Hc _]. exists c, ds. split; [reflexivity|].
    by right.
Qed.

Lemma float_literal_head l :
  float_literal l -> exists c ds, l = c :: ds /\ number_head c.
Proof.
  unfold float_literal. destruct l as [|c l]; [done|]. intros Hl.
  exists c, l. split; [done|]. cbn [scan_integer] in Hl.
  destruct (Z.eqb_spec (c) 45); [by left|]. right.
  cbn in Hl. destruct (c =? 48) eqn:H0.
  - apply Z.eqb_eq in H0. apply is_digit_code. lia.
  - by destruct (is_digit c).
Qed.

Lemma number_head_code c :
  number_head c -> c = 45 \/ 48 <= c <= 57.
Proof. intros [?|?%is_digit_code]; auto. Qed.

Lemma eqb_code_false (a c : Z) : a <> c -> (a =? c) = false.
Proof. apply Z.eqb_neq. Qed.

Ltac code_neq :=
  match goal with
  | |- ?a <> _ =>
      let v := eval vm_compute in a in
      change a with v; lia
  end.

Lemma scan_scalar_number c s r :
  number_head c -> scan_number (c :: s) = Some r ->
  scan_scalar (c :: s) = Ok r.
Proof.
  intros Hc%number_head_code Hs. unfold scan_scalar. cbn [lit list_ascii_of_string map strip_prefix].
  rewrite !eqb_code_false by code_neq. by rewrite Hs.
Qed.

Lemma parse_value_scalar fuel c s :
  c <> 34 -> c <> 123 -> c <> 91 ->
  parse_value (S fuel) (c :: s) = scan_scalar (c :: s).
Proof.
  intros H1 H2 H3. cbn [parse_value].
  destruct (Z.eqb_spec (c) 34); [done|].
  destruct (Z.eqb_spec (c) 123); [done|].
  destruct (Z.eqb_spec (c) 91); done.
Qed.

Lemma parse_value_number fuel l rest r :
  (exists c ds, l = c :: ds /\ number_head c) ->
  scan_number (l ++ rest) = Some r ->
  parse_value (S fuel) (l ++ rest) = Ok r.
Proof.
  intros (c & ds & -> & Hc) Hs. cbn [app] in *.
  pose proof (number_head_code c Hc).
  rewrite parse_value_scalar by lia. by apply scan_scalar_number.
Qed.

Lemma parse_value_int fuel n rest :
  delimited rest ->
  parse_value (S fuel) (int_digits n ++ rest) = Ok (JInt n, rest).
Proof.
  intros Hd. apply parse_value_number; [apply int_digits_head|].
  by apply scan_number_int.
Qed.
End Integers.

(** What is assumed of Python's floats: nan and the two infinities are
    single values, and [repr] of a finite float is a number literal with
    a fraction or an exponent that [float] reads back as the same
    float. *)
Class FloatLaws `{Env} : Prop := {
  nan_unique x : float_kind_of x = FNaN -> x = float_nan;
  inf_unique x : float_kind_of x = FPosInf -> x = float_inf;
  neg_inf_unique x : float_kind_of x = FNegInf -> x = float_neg_inf;
  repr_literal x :
    float_kind_of x = FFinite -> float_literal (float_repr x);
  repr_roundtrip x :
    float_kind_of x = FFinite -> float_of_literal (float_repr x) = x
}.

Section Floats.
Context `{FloatLaws}.

Lemma parse_value_float fuel x rest :
  delimited rest ->
  parse_value (S fuel) (floatstr x ++ rest) = Ok (JFloat x, rest).
Proof.
  intros Hd. unfold floatstr.
  destruct (float_kind_of x) eqn:Hk.
  - by rewrite (nan_unique x Hk).
  - by rewrite (inf_unique x Hk).
  - by rewrite (neg_inf_unique x Hk).
  - apply parse_value_number.
    + apply float_literal_head. by apply repr_literal.
    + rewrite scan_number_float by (done || by apply repr_literal).
      by rewrite repr_roundtrip.
Qed.
End Floats.
(** Induction on [json] with the hypothesis for every item of an array
    and every value of an object. *)
Section JsonInduction.
Context `{Env} (P : json -> Prop).
Hypothesis Hnull : P JNull.
Hypothesis Hbool : forall b, P (JBool b).
Hypothesis Hint : forall n, P (JInt n).
Hypothesis Hfloat : forall x, P (JFloat x).
Hypothesis Hstring : forall s, P (JString s).
Hypothesis Harray : forall items, Forall P items -> P (JArray items).
Hypothesis Hobject :
  forall fields, Forall (fun kv => P (snd kv)) fields -> P (JObject fields).

Fixpoint json_induction (j : json) : P j :=
  match j with
  | JNull => Hnull
  | JBool b => Hbool b
  | JInt n => Hint n
  | JFloat x => Hfloat x
  | JString s => Hstring s
  | JArray items =>
      Harray items
        ((fix all (l : list json) : Forall P l :=
            match l with
            | [] => List.Forall_nil P
            | x :: l' => @List.Forall_cons _ P x l' (json_induction x) (all l')
            end) items)
  | JObject fields =>
      Hobject fields
        ((fix all (l : list (str * json))
            : Forall (fun kv => P (snd kv)) l :=
            match l with
            | [] => List.Forall_nil _
            | kv :: l' =>
                @List.Forall_cons _ (fun kv => P (snd kv)) kv l'
                  (json_induction (snd kv)) (all l')
            end) fields)
  end.
End JsonInduction.

Section JsonShape.
Context `{Env}.

(** The number of values in [j], counting one more for each item of an
    array and each field of an object. *)
Fixpoint json_size (j : json) : nat :=
  match j with
  | JArray items => S (list_sum (map (fun x => S (json_size x)) items))
  | JObject fields =>
      S (list_sum (map (fun kv => S (json_size (snd kv))) fields))
  | _ => 1%nat
  end.

(** A Python [dict] has each key once. *)
Fixpoint wf_json (j : json) : Prop :=
  match j with
  | JArray items => fold_right (fun x acc => wf_json x /\ acc) True items
  | JObject fields =>
      NoDup (map fst fields) /\
      fold_right (fun kv acc => wf_json (snd kv) /\ acc) True fields
  | _ => True
  end.

Lemma wf_json_array items :
  wf_json (JArray items) <-> Forall wf_json items.
Proof.
  cbn. induction items as [|x items IH]; cbn.
  - split; [constructor|done].
  - rewrite Forall_cons. by rewrite IH.
Qed.

Lemma wf_json_object fields :
  wf_json (JObject fields) <->
  NoDup (map fst fields) /\ Forall (fun kv => wf_json (snd kv)) fields.
Proof.
  cbn. apply and_iff_compat_l.
  induction fields as [|kv fields IH]; cbn.
  - split; [constructor|done].
  - rewrite Forall_cons. by rewrite IH.
Qed.

(** Every string of [j], the keys of its objects included, satisfies
    [P]. *)
Fixpoint all_strings (P : str -> Prop) (j : json) : Prop :=
  match j with
  | JString s => P s
  | JArray items => fold_right (fun x acc => all_strings P x /\ acc) True items
  | JObject fields =>
      fold_right (fun kv acc => (P (fst kv) /\ all_strings P (snd kv)) /\ acc)
        True fields
  | _ => True
  end.

Lemma all_strings_array P items :
  all_strings P (JArray items) <-> Forall (all_strings P) items.
Proof.
  cbn. induction items as [|x items IH]; cbn.
  - split; [constructor|done].
  - rewrite Forall_cons. by rewrite IH.
Qed.

Lemma all_strings_object P fields :
  all_strings P (JObject fields) <->
  Forall (fun kv => P (fst kv) /\ all_strings P (snd kv)) fields.
Proof.
  cbn. induction fields as [|kv fields IH]; cbn.
  - split; [constructor|done].
  - rewrite Forall_cons. by rewrite IH.
Qed.

Lemma dict_set_fresh k v d :
  k ∉ map fst d -> dict_set k v d = d ++ [(k, v)].
Proof.
  induction d as [|[k' v'] d IH]; [done|]. cbn.
  rewrite not_elem_of_cons. intros [Hne Hd].
  destruct (str_eqb_spec k k'); [done|]. by rewrite IH.
Qed.

Lemma dict_of_pairs_nodup pairs :
  NoDup (map fst pairs) -> dict_of_pairs pairs = pairs.
Proof.
  unfold dict_of_pairs.
  assert (forall acc, NoDup (map fst (acc ++ pairs)) ->
            fold_left (fun d kv => dict_set (fst kv) (snd kv) d) pairs acc
            = acc ++ pairs) as Hgen; [|apply (Hgen [])].
  induction pairs as [|[k v] pairs IH]; intros acc Hnd; cbn.
  - by rewrite app_nil_r.
  - rewrite dict_set_fresh.
    + rewrite IH; rewrite <- app_assoc; done.
    + rewrite map_app in Hnd. cbn in Hnd.
      apply NoDup_app in Hnd as (_ & Hdisj & _).
      intros Hin. apply (Hdisj k Hin). by left.
Qed.
End JsonShape.
Section RoundTrip.
Context `{FloatLaws}.
Variable indent : nat.

Definition render_items (level : nat) (xs : list json) : str :=
  flat_map (fun y => ord "," :: newline_indent indent (S level) ++
                     render indent (S level) y) xs.

Definition render_fields (level : nat) (fields : list (str * json))
    : str :=
  flat_map (fun kv => ord "," :: newline_indent indent (S level) ++
                      encode_basestring_ascii (fst kv) ++ lit ": " ++
                      render indent (S level) (snd kv)) fields.

Lemma render_array_cons level x xs :
  render indent level (JArray (x :: xs)) =
  ord "[" :: newline_indent indent (S level) ++
  render indent (S level) x ++ render_items level xs ++
  newline_indent indent level ++ [ord "]"].
Proof. done. Qed.

Lemma render_object_cons level k v fields :
  render indent level (JObject ((k, v) :: fields)) =
  ord "{" :: newline_indent indent (S level) ++
  encode_basestring_ascii k ++ lit ": " ++
  render indent (S level) v ++ render_fields level fields ++
  newline_indent indent level ++ [ord "}"].
Proof. done. Qed.

Lemma render_items_cons level y ys :
  render_items level (y :: ys) =
  ord "," :: newline_indent indent (S level) ++
  render indent (S level) y ++ render_items level ys.
Proof. unfold render_items. cbn [flat_map app]. by rewrite <- app_assoc. Qed.

Lemma render_fields_cons level k v fields :
  render_fields level ((k, v) :: fields) =
  ord "," :: newline_indent indent (S level) ++
  encode_basestring_ascii k ++ lit ": " ++
  render indent (S level) v ++ render_fields level fields.
Proof.
  unfold render_fields. cbn [flat_map app fst snd].
  by rewrite <- !app_assoc.
Qed.

Lemma skip_ws_stop c s : is_ws c = false -> skip_ws (c :: s) = c :: s.
Proof. intros Hc. cbn. by rewrite Hc. Qed.

Lemma skip_ws_spaces n s : skip_ws (repeat (ord " ") n ++ s) = skip_ws s.
Proof. induction n as [|n IH]; [done|]. cbn. apply IH. Qed.

Lemma skip_ws_newline_indent level s :
  skip_ws (newline_indent indent level ++ s) = skip_ws s.
Proof. unfold newline_indent. cbn. apply skip_ws_spaces. Qed.

Lemma newline_indent_delimited level s :
  delimited (newline_indent indent level ++ s).
Proof. by right. Qed.

(** The first character of a rendered value: not white space and not a
    closing bracket. *)
Definition token_head (c : Z) : Prop :=
  is_ws c = false /\ c <> 93 /\ c < 128.

Lemma number_head_token c : number_head c -> token_head c.
Proof.
  intros Hc%number_head_code. unfold token_head, is_ws.
  split; [|lia]. repeat (apply orb_false_iff; split); apply Z.eqb_neq; lia.
Qed.

Lemma render_head level v :
  exists c tl, render indent level v = c :: tl /\ token_head c.
Proof.
  destruct v as [|[]|n|x|s|[|x xs]|[|kv fields]];
    try (eexists _, _; split; [reflexivity|done]).
  - destruct (int_digits_head n) as (c & ds & Hn & Hc).
    exists c, ds. split; [done|]. by apply number_head_token.
  - cbn. unfold floatstr. destruct (float_kind_of x) eqn:Hk;
      try (eexists _, _; split; [reflexivity|done]).
    destruct (float_literal_head _ (repr_literal x Hk)) as (c & ds & Hl & Hc).
    exists c, ds. split; [done|]. by apply number_head_token.
Qed.

Lemma skip_ws_render level v s :
  skip_ws (render indent level v ++ s) = render indent level v ++ s.
Proof.
  destruct (render_head level v) as (c & tl & -> & Hc & _).
  by apply skip_ws_stop.
Qed.

Lemma list_sum_cons a l : list_sum (a :: l) = (a + list_sum l)%nat.
Proof. done. Qed.

Lemma render_size level v :
  (json_size v <= length (render indent level v))%nat.
Proof.
  revert level.
  induction v as [| | | | |items IH|fields IH] using json_induction;
    intros level.
  1-5: match goal with
       | |- (json_size ?v <= _)%nat =>
           destruct (render_head level v) as (c & tl & Hr & _);
           rewrite Hr; cbn; lia
       end.
  - destruct items as [|x xs]; [cbn; lia|].
    rewrite render_array_cons. cbn [json_size map length]; rewrite list_sum_cons.
    rewrite !length_app. apply Forall_cons in IH as [IHx IHxs].
    specialize (IHx (S level)).
    assert (list_sum (map (fun x => S (json_size x)) xs)
            <= length (render_items level xs))%nat as Hxs.
    { clear IHx. induction IHxs as [|y ys IHy _ IHys]; [done|].
      rewrite render_items_cons. cbn [map length]; rewrite list_sum_cons.
      rewrite !length_app. specialize (IHy (S level)). lia. }
    cbn [newline_indent length]. lia.
  - destruct fields as [|[k v] fields]; [cbn; lia|].
    rewrite render_object_cons. cbn [json_size map length snd]; rewrite list_sum_cons.
    rewrite !length_app. apply Forall_cons in IH as [IHx IHxs].
    cbn [snd] in IHx. specialize (IHx (S level)).
    assert (list_sum (map (fun kv => S (json_size (snd kv))) fields)
            <= length (render_fields level fields))%nat as Hxs.
    { clear IHx. induction IHxs as [|[k' v'] ys IHy _ IHys]; [done|].
      rewrite render_fields_cons. cbn [map length snd] in *; rewrite list_sum_cons.
      rewrite !length_app. specialize (IHy (S level)). lia. }
    cbn [newline_indent length]. lia.
Qed.

(** The property proved by induction on the value. *)
Definition reads_back (v : json) : Prop :=
  wf_json v -> all_strings well_formed v ->
  forall level fuel rest,
    (json_size v <= fuel)%nat -> delimited rest ->
    parse_value fuel (render indent level v ++ rest) = Ok (v, rest).

Lemma parse_items_render level rest xs : forall x fuel,
  Forall reads_back (x :: xs) -> Forall wf_json (x :: xs) ->
  Forall (all_strings well_formed) (x :: xs) ->
  (list_sum (map (fun x => S (json_size x)) (x :: xs)) <= fuel)%nat ->
  parse_items fuel
    (render indent (S level) x ++ render_items level xs ++
     newline_indent indent level ++ ord "]" :: rest)
  = Ok (x :: xs, rest).
Proof.
  induction xs as [|y ys IH]; intros x fuel Hrb Hwf Hstr Hfuel;
    apply Forall_cons in Hrb as [Hx Hrb];
    apply Forall_cons in Hwf as [Hwx Hwf];
    apply Forall_cons in Hstr as [Hsx Hstr];
    cbn [map] in Hfuel; rewrite list_sum_cons in Hfuel;
    (destruct fuel as [|fuel]; [lia|]); cbn [parse_items].
  - cbn [render_items flat_map app].
    rewrite (Hx Hwx Hsx) by (lia || apply newline_indent_delimited).
    cbn [mbind result_bind]. by rewrite skip_ws_newline_indent.
  - rewrite render_items_cons. cbn [app].
    rewrite (Hx Hwx Hsx) by (lia || by left).
    cbn [mbind result_bind]. rewrite skip_ws_stop by done.
    change (ord "," =? 93) with false.
    change (ord "," =? 44) with true. cbn match.
    rewrite <- !app_assoc, skip_ws_newline_indent, skip_ws_render.
    rewrite IH; [done..|cbn [map]; lia].
Qed.

Definition key_tail (k : str) : str :=
  flat_map escape_char k ++ [dquote].

Lemma encode_key k : encode_basestring_ascii k = dquote :: key_tail k.
Proof. done. Qed.

Lemma scanstring_key k s :
  well_formed k -> scanstring (key_tail k ++ s) = Ok (k, s).
Proof.
  intros Hk. unfold key_tail. rewrite <- app_assoc. by apply scanstring_escaped.
Qed.

Lemma parse_pairs_render level rest fields : forall k v fuel,
  Forall (fun kv => reads_back (snd kv)) ((k, v) :: fields) ->
  Forall (fun kv => wf_json (snd kv)) ((k, v) :: fields) ->
  Forall (fun kv => well_formed (fst kv) /\ all_strings well_formed (snd kv))
    ((k, v) :: fields) ->
  (list_sum (map (fun kv => S (json_size (snd kv))) ((k, v) :: fields))
   <= fuel)%nat ->
  parse_pairs fuel
    (key_tail k ++ lit ": " ++ render indent (S level) v ++
     render_fields level fields ++
     newline_indent indent level ++ ord "}" :: rest)
  = Ok ((k, v) :: fields, rest).
Proof.
  induction fields as [|[k' v'] fields IH]; intros k v fuel Hrb Hwf Hstr Hfuel;
    apply Forall_cons in Hrb as [Hx Hrb];
    apply Forall_cons in Hwf as [Hwx Hwf];
    apply Forall_cons in Hstr as [[Hk Hsx] Hstr];
    cbn [fst snd] in Hx, Hwx, Hk, Hsx;
    cbn [map snd] in Hfuel; rewrite list_sum_cons in Hfuel;
    (destruct fuel as [|fuel]; [lia|]); cbn [parse_pairs];
    rewrite scanstring_key by done;
    cbn [mbind result_bind lit list_ascii_of_string map app];
    rewrite skip_ws_stop by done;
    change (ascii_code ":" =? 58) with true; cbn match;
    change (skip_ws (ascii_code " " :: ?s)) with (skip_ws s);
    rewrite skip_ws_render.
  - cbn [render_fields flat_map app].
    rewrite (Hx Hwx Hsx) by (lia || apply newline_indent_delimited).
    cbn [mbind result_bind]. rewrite skip_ws_newline_indent.
    rewrite skip_ws_stop by done.
    by change (ord "}" =? 125) with true.
  - rewrite render_fields_cons. cbn [app].
    rewrite (Hx Hwx Hsx) by (lia || by left).
    cbn [mbind result_bind]. rewrite skip_ws_stop by done.
    change (ord "," =? 125) with false.
    change (ord "," =? 44) with true. cbn match.
    rewrite <- !app_assoc, skip_ws_newline_indent, encode_key. cbn [app].
    rewrite skip_ws_stop by done.
    change (dquote =? 34) with true. cbn match.
    by rewrite IH; [|done..|cbn [map snd]; lia].
Qed.

Lemma parse_render v : reads_back v.
Proof.
  induction v as [|b|n|x|s|items IH|fields IH] using json_induction;
    intros Hwf Hstr level fuel rest Hfuel Hd;
    (destruct fuel as [|fuel]; [cbn in Hfuel; lia|]).
  - done.
  - by destruct b.
  - by apply parse_value_int.
  - by apply parse_value_float.
  - by apply parse_string_encoded.
  - destruct items as [|x xs]; [done|].
    apply wf_json_array in Hwf. apply all_strings_array in Hstr.
    pose proof (parse_items_render level rest xs x fuel IH Hwf Hstr)
      as Hitems.
    rewrite render_array_cons. cbn [app parse_value].
    change (ord "[" =? 34) with false.
    change (ord "[" =? 123) with false.
    change (ord "[" =? 91) with true. cbn match.
    rewrite <- !app_assoc, skip_ws_newline_indent, skip_ws_render.
    destruct (render_head (S level) x) as (c & tl & Hr & _ & Hc & _).
    rewrite Hr in Hitems |- *. cbn [app] in Hitems |- *.
    destruct (Z.eqb_spec c 93) as [|_]; [done|].
    rewrite Hitems; [done|]. cbn [json_size] in Hfuel. lia.
  - destruct fields as [|[k v] fields]; [done|].
    apply wf_json_object in Hwf as [Hnd Hwf].
    apply all_strings_object in Hstr.
    pose proof (parse_pairs_render level rest fields k v fuel IH Hwf Hstr)
      as Hpairs.
    rewrite render_object_cons. cbn [app parse_value].
    change (ord "{" =? 34) with false.
    change (ord "{" =? 123) with true. cbn match.
    rewrite <- !app_assoc, skip_ws_newline_indent, encode_key.
    cbn [app]. rewrite skip_ws_stop by done.
    change (dquote =? 125) with false.
    change (dquote =? 34) with true. cbn match.
    rewrite <- ?app_assoc in Hpairs |- *.
    rewrite Hpairs; [|cbn [json_size] in Hfuel; lia].
    cbn [mbind result_bind]. by rewrite dict_of_pairs_nodup.
Qed.

(** The text of a value begins with no byte order mark. *)
Lemma render_no_bom v : starts_with_bom (render indent 0 v) = false.
Proof.
  destruct (render_head 0 v) as (c & tl & -> & _ & _ & Hc).
  cbn. apply Z.eqb_neq. lia.
Qed.

(** [json.loads(json.dumps(obj, indent=indent)) == obj] *)
Lemma json_loads_dumps v :
  wf_json v -> all_strings well_formed v ->
  json_loads (json_dumps v indent) = Ok v.
Proof.
  intros Hwf Hstr. unfold json_loads, json_dumps.
  rewrite render_no_bom.
  rewrite <- (app_nil_r (render indent 0 v)) at 2.
  rewrite skip_ws_render, app_nil_r.
  pose proof (parse_render v Hwf Hstr 0%nat
                (S (length (render indent 0 v))) []) as Hp.
  rewrite app_nil_r in Hp. rewrite Hp; [done| |done].
  pose proof (render_size 0 v). lia.
Qed.
End RoundTrip.

(** ** The sample environment satisfies what is assumed of floats *)
Module SampleFacts.
Import Sample.

Lemma scan_integer_nat_digits q :
  0 <= q -> scan_integer (nat_digits q) = Some (nat_digits q, []).
Proof.
  intros Hq. pose proof (scan_integer_int_digits q) as Hs.
  unfold int_digits in Hs. by destruct (Z.ltb_spec q 0); [lia|].
Qed.

Lemma fixed_digits_scan n :
  exists int_part d1 d2,
    fixed_digits n = int_part ++ [ord "."; d1; d2] /\
    scan_integer (int_part ++ [ord "."; d1; d2])
      = Some (int_part, [ord "."; d1; d2]) /\
    is_digit d1 = true /\ is_digit d2 = true /\
    digit_value d1 = Z.abs n mod 100 / 10 /\
    digit_value d2 = Z.abs n mod 10.
Proof.
  assert (0 <= Z.abs n / 100) as Hq by (apply Z.div_pos; lia).
  assert (0 <= Z.abs n mod 100 / 10 <= 9) as H1.
  { pose proof (Z.mod_pos_bound (Z.abs n) 100 ltac:(lia)).
    split; [apply Z.div_pos; lia|].
    apply Z.lt_succ_r, Z.div_lt_upper_bound; lia. }
  pose proof (Z.mod_pos_bound (Z.abs n) 10 ltac:(lia)) as H2.
  exists ((if n <? 0 then [ord "-"] else []) ++ nat_digits (Z.abs n / 100)),
    (digit_char (Z.abs n mod 100 / 10)), (digit_char (Z.abs n mod 10)).
  split; [by unfold fixed_digits; rewrite <- app_assoc|].
  split; [|by rewrite !digit_char_is_digit, !digit_char_value by lia].
  rewrite scan_integer_rest.
  - destruct (n <? 0); cbn [app].
    + by rewrite scan_integer_minus, scan_unsigned_nat_digits.
    + by rewrite scan_integer_nat_digits.
  - done.
Qed.

#[export] Instance float_laws : FloatLaws.
Proof.
  split.
  - by intros [].
  - by intros [].
  - by intros [].
  - intros [n| | |] Hk; try done. cbn. unfold fixed_repr.
    cbn [hundredths_of].
    destruct (fixed_digits_scan n)
      as (ip & d1 & d2 & -> & Hs & Hd1 & Hd2 & _).
    unfold float_literal. rewrite Hs. cbn. rewrite Hd1, Hd2. cbn.
    split; [done|by left].
  - intros [n| | |] Hk; try done. cbn.
    unfold fixed_of_literal, fixed_repr. cbn [hundredths_of].
    unfold fixed_digits.
    assert (0 <= Z.abs n / 100) as Hq by (apply Z.div_pos; lia).
    assert (0 <= Z.abs n mod 100 / 10 <= 9) as H1.
    { pose proof (Z.mod_pos_bound (Z.abs n) 100 ltac:(lia)).
      split; [apply Z.div_pos; lia|].
      apply Z.lt_succ_r, Z.div_lt_upper_bound; lia. }
    pose proof (Z.mod_pos_bound (Z.abs n) 10 ltac:(lia)) as H2.
    destruct (nat_digits_numeral _ Hq) as [Hds Hv Hh].
    assert (span_digits
              (nat_digits (Z.abs n / 100) ++
               [ord "."; digit_char (Z.abs n mod 100 / 10);
                digit_char (Z.abs n mod 10)])
            = (nat_digits (Z.abs n / 100),
               [ord "."; digit_char (Z.abs n mod 100 / 10);
                digit_char (Z.abs n mod 10)])) as Hspan.
    { rewrite span_digits_rest by done. by rewrite span_digits_all. }
    assert (Z.abs n =
            100 * (Z.abs n / 100) + (10 * (Z.abs n mod 100 / 10)
                                     + Z.abs n mod 10)) as Habs.
    { Z.div_mod_to_equations. lia. }
    destruct (Z.ltb_spec n 0) as [Hneg|Hpos]; cbn [app].
    + change (ord "-" =? 45) with true. cbn match.
      rewrite Hspan, Hv. cbn [two_decimals].
      rewrite !digit_char_value. f_equal. lia.
    + destruct (nat_digits (Z.abs n / 100)) as [|c ds] eqn:Hnd; [done|].
      apply Forall_cons in Hds as [Hc%is_digit_code _].
      cbn [app]. destruct (Z.eqb_spec c 45); [lia|].
      change (c :: ds ++ ?r) with ((c :: ds) ++ r).
      rewrite Hspan, Hv. cbn [two_decimals].
      rewrite !digit_char_value. f_equal. lia.
Qed.

(** [round_div a b] is within half a unit of [a / b]. *)
Lemma round_div_error a b : 0 < b -> 2 * Z.abs (a - b * round_div a b) <= b.
Proof.
  intros Hb. unfold round_div.
  pose proof (Z.div_mod a b ltac:(lia)) as Hdm.
  pose proof (Z.mod_pos_bound a b Hb) as Hm.
  destruct (Z.ltb_spec (2 * (a mod b)) b); [lia|].
  destruct (Z.ltb_spec b (2 * (a mod b))); [lia|].
  destruct (Z.even (a / b)); lia.
Qed.

(** In the fixed-point stand-in a duration [round(n / 75, 2)] is within
    half a hundredth of [n / 75]: with [d] hundredths,
    [|d / 100 - n / 75| <= 1 / 200]. *)
Lemma fixed_duration_error n :
  0 <= n ->
  let d := hundredths_of (fixed_round_ndigits (fixed_truediv n 75) 2) in
  2 * Z.abs (100 * n - 75 * d) <= 75.
Proof.
  intros Hn d. subst d. cbn.
  apply (round_div_error (100 * n) 75). lia.
Qed.
End SampleFacts.

(** * Properties *)

Ltac run_m :=
  cbn [mbind M_bind bind mret M_ret ret call emit raise when try_except
       trace outcome fst snd].

(** ** The length gate of [generate] *)
Section MaxLengthGate.
Context `{Env}.

(** An invocation of the backend model. *)
Definition is_model_call (ev : event) : bool :=
  match ev with
  | CallModelGenerate _ _ _ | CallModelGenerateStream _ _ => true
  | _ => false
  end.

Definition model_calls (t : list event) : list event :=
  filter (fun ev => is_model_call ev = true) t.

(** [max_length] is [None] or exceeds [config.max_seq_length]. *)
Definition gate_violated {Model} (self : Interface Model)
    (max_length : option Z) : Prop :=
  match max_length with
  | None => True
  | Some n => max_seq_length (config self) < n
  end.

(** The [ValueError] of [check_generation_max_length]. *)
Definition gate_error {Model} (self : Interface Model)
    (max_length : option Z) : exn :=
  match max_length with
  | None => ValueError "max_length must be specified."
  | Some n =>
      ValueError
        ("Requested max_length (" +:+ str_of_int n +:+
         ") exceeds the current max_seq_length (" +:+
         str_of_int (max_seq_length (config self)) +:+ ").")
  end.

(** What the gate does to a run that first prepares its prompt with
    [prep]: the model is never called and the run raises; if the prompt
    was built the exception is the gate's [ValueError], and if building
    it raised, the exception is that one. *)
Definition stopped_at_gate {Model A B} (self : Interface Model)
    (max_length : option Z) (prep : M A) (run : M B) : Prop :=
  model_calls (trace run) = [] /\
  is_ok (outcome run) = false /\
  (is_ok (outcome prep) = true ->
   outcome run = Raise (gate_error self max_length)) /\
  (forall e, outcome prep = Raise e -> outcome run = Raise e).

(** A [ValueError], whatever its message. *)
Definition raises_ValueError {A} (r : result A) : Prop :=
  exists msg, r = Raise (ValueError msg).

Lemma check_generation_max_length_violated {Model}
    (self : Interface Model) max_length :
  gate_violated self max_length ->
  InterfaceHF.check_generation_max_length self max_length
  = ([], Raise (gate_error self max_length)).
Proof.
  destruct max_length as [n|]; cbn; intros Hv; [|done].
  apply Z.ltb_lt in Hv. by rewrite Hv.
Qed.

Lemma check_generation_max_length_ok {Model}
    (self : Interface Model) n :
  n <= max_seq_length (config self) ->
  InterfaceHF.check_generation_max_length self (Some n) = ([], Ok tt).
Proof.
  intros Hn. cbn.
  destruct (Z.ltb_spec (max_seq_length (config self)) n); [lia|done].
Qed.

Ltac gate_case self ml Hv :=
  rewrite (check_generation_max_length_violated self ml Hv);
  destruct (verbose self); run_m; done.

Ltac prompt_failed :=
  split; [done|]; split; [done|]; split; [done|]; by intros ? [= <-].

Lemma generate_HF_gate (self : InterfaceHF.t) text speaker temp rp ml extra :
  gate_violated self ml ->
  stopped_at_gate self ml (InterfaceHF.prepare_prompt self text speaker)
    (InterfaceHF.generate self text speaker temp rp ml extra).
Proof.
  intros Hv.
  unfold stopped_at_gate, InterfaceHF.generate, InterfaceHF.prepare_prompt.
  run_m.
  destruct (get_completion_prompt _ _ _ _) as [prompt|e1]; run_m;
    [|prompt_failed].
  destruct (tokenizer_encode _ _) as [ids|e2]; run_m; [|prompt_failed].
  gate_case self ml Hv.
Qed.

Lemma generate_GGUF_gate (self : InterfaceGGUF.t) text speaker temp rp ml
    extra :
  gate_violated self ml ->
  stopped_at_gate self ml (InterfaceGGUF.prepare_prompt self text speaker)
    (InterfaceGGUF.generate self text speaker temp rp ml extra).
Proof.
  intros Hv.
  unfold stopped_at_gate, InterfaceGGUF.generate,
    InterfaceGGUF.prepare_prompt.
  run_m.
  destruct (get_completion_prompt _ _ _ _) as [prompt|e1]; run_m;
    [|prompt_failed].
  destruct (tokenizer_encode _ _) as [ids|e2]; run_m; [|prompt_failed].
  gate_case self ml Hv.
Qed.

Lemma generate_EXL2_gate (self : InterfaceEXL2.t) text speaker temp rp ml
    extra dyn :
  gate_violated self ml ->
  stopped_at_gate self ml (InterfaceEXL2.prepare_prompt self text speaker)
    (InterfaceEXL2.generate self text speaker temp rp ml extra dyn).
Proof.
  intros Hv.
  unfold stopped_at_gate, InterfaceEXL2.generate,
    InterfaceEXL2.prepare_prompt.
  run_m.
  destruct (get_completion_prompt _ _ _ _) as [prompt|e1]; run_m;
    [|prompt_failed].
  gate_case self ml Hv.
Qed.

(** The streaming generator has the same gate. *)
Lemma generate_stream_gate (self : InterfaceGGUF.t) text speaker temp rp ml
    chunk_size extra :
  gate_violated self ml ->
  stopped_at_gate self ml (InterfaceGGUF.prepare_prompt self text speaker)
    (InterfaceGGUF.generate_stream self text speaker temp rp ml chunk_size
       extra).
Proof.
  intros Hv.
  unfold stopped_at_gate, InterfaceGGUF.generate_stream,
    InterfaceGGUF.prepare_prompt.
  run_m.
  destruct (get_completion_prompt _ _ _ _) as [prompt|e1]; run_m;
    [|prompt_failed].
  destruct (tokenizer_encode _ _) as [ids|e2]; run_m; [|prompt_failed].
  gate_case self ml Hv.
Qed.

(** C1, amended.  On each of the three interfaces, a call of [generate]
    whose [max_length] is [None] or exceeds [config.max_seq_length]
    raises without ever calling the backend model.  The prompt is built
    before the check: once it has been built, what the call raises is the
    [ValueError] of [check_generation_max_length]; when building it
    raises, the call raises that exception. *)
Theorem generate_max_length_gate (ml : option Z) text speaker temp rp extra :
  (forall self : InterfaceHF.t,
     gate_violated self ml ->
     stopped_at_gate self ml (InterfaceHF.prepare_prompt self text speaker)
       (InterfaceHF.generate self text speaker temp rp ml extra)) /\
  (forall self : InterfaceGGUF.t,
     gate_violated self ml ->
     stopped_at_gate self ml
       (InterfaceGGUF.prepare_prompt self text speaker)
       (InterfaceGGUF.generate self text speaker temp rp ml extra)) /\
  (forall (self : InterfaceEXL2.t) dyn,
     gate_violated self ml ->
     stopped_at_gate self ml
       (InterfaceEXL2.prepare_prompt self text speaker)
       (InterfaceEXL2.generate self text speaker temp rp ml extra dyn)).
Proof.
  split; [|split]; intros.
  - by apply generate_HF_gate.
  - by apply generate_GGUF_gate.
  - by apply generate_EXL2_gate.
Qed.
End MaxLengthGate.

(** On an interface whose prompt processor cannot build the prompt, a
    call of [generate] without [max_length] raises the exception of the
    prompt processor, which is no [ValueError]; the model is not
    called. *)
Lemma failed_prompt_is_raised_before_the_gate :
  let temp : @float Sample.env := Sample.Hundredths 10 in
  let rp : @float Sample.env := Sample.Hundredths 110 in
  let self := Sample.no_prompt [1; 2] in
  let run := InterfaceHF.generate self "hi" None temp rp None tt in
  gate_violated self None /\
  outcome run = Raise Sample.prompt_error /\
  ~ raises_ValueError (outcome run) /\
  model_calls (trace run) = [].
Proof.
  intros temp rp self run.
  split; [exact I|]. split; [reflexivity|]. split; [|reflexivity].
  intros [msg Hmsg]. discriminate Hmsg.
Qed.

(** The gate on the sample interfaces, with [max_length = 4097] against a
    ceiling of 4096. *)
Lemma generate_max_length_gate_witness :
  let temp : @float Sample.env := Sample.Hundredths 10 in
  let rp : @float Sample.env := Sample.Hundredths 110 in
  let ml := Some 4097 in
  gate_violated (Sample.hf [1; 2]) ml /\
  stopped_at_gate (Sample.hf [1; 2]) ml
    (InterfaceHF.prepare_prompt (Sample.hf [1; 2]) "hi" None)
    (InterfaceHF.generate (Sample.hf [1; 2]) "hi" None temp rp ml tt) /\
  stopped_at_gate (Sample.gguf [1; 2]) ml
    (InterfaceGGUF.prepare_prompt (Sample.gguf [1; 2]) "hi" None)
    (InterfaceGGUF.generate (Sample.gguf [1; 2]) "hi" None temp rp ml tt) /\
  stopped_at_gate (Sample.exl2 [1; 2]) ml
    (InterfaceEXL2.prepare_prompt (Sample.exl2 [1; 2]) "hi" None)
    (InterfaceEXL2.generate (Sample.exl2 [1; 2]) "hi" None temp rp ml tt tt).
Proof.
  intros temp rp ml.
  pose proof (generate_max_length_gate ml "hi" None temp rp tt)
    as (Hhf & Hgguf & Hexl2).
  split; [reflexivity|].
  split; [apply Hhf; reflexivity|].
  split; [apply Hgguf; reflexivity|apply Hexl2; reflexivity].
Defined.

(** ** Sequences without an audio region *)
Section NoAudioRegion.
Variables audio_start audio_end : Z.

Lemma until_audio_end_Some tokens region :
  until_audio_end audio_end tokens = Some region ->
  exists post, tokens = region ++ audio_end :: post.
Proof.
  revert region. induction tokens as [|tok rest IH]; intros region; [done|].
  cbn. destruct (Z.eqb_spec tok audio_end) as [->|Hne].
  - intros [= <-]. by exists rest.
  - destruct (until_audio_end audio_end rest) as [r|]; [|done].
    intros [= <-]. destruct (IH r eq_refl) as [post ->]. by exists post.
Qed.

Lemma has_audio_region_cons tok tokens :
  has_audio_region audio_start audio_end tokens ->
  has_audio_region audio_start audio_end (tok :: tokens).
Proof.
  intros (pre & mid & post & ->). by exists (tok :: pre), mid, post.
Qed.

Lemma has_audio_region_drop n tokens :
  has_audio_region audio_start audio_end (drop n tokens) ->
  has_audio_region audio_start audio_end tokens.
Proof.
  revert tokens. induction n as [|n IH]; intros [|tok tokens]; try done.
  cbn. intros Hr. by apply has_audio_region_cons, IH.
Qed.

Lemma sentinel_region_none tokens :
  ~ has_audio_region audio_start audio_end tokens ->
  sentinel_region audio_start audio_end tokens = [].
Proof.
  induction tokens as [|tok rest IH]; intros Hno; [done|].
  cbn. destruct (Z.eqb_spec tok audio_start) as [->|Hne].
  - destruct (until_audio_end audio_end rest) as [r|] eqn:Hr; [|done].
    destruct (until_audio_end_Some _ _ Hr) as [post ->].
    destruct Hno. by exists [], r, post.
  - apply IH. intros Hr. by apply Hno, has_audio_region_cons.
Qed.
End NoAudioRegion.

Section GenerateWithoutAudio.
Context `{Env}.

Definition no_audio_warning : event :=
  Log WARNING "No audio tokens found in the output".

(** A [generate] that found no audio: it returns, the audio is [None]
    and the warning was logged. *)
Definition returns_no_audio {Model} (self : Interface Model)
    (run : M ModelOutput) : Prop :=
  outcome run = Ok (mkModelOutput None (codec_sr (audio_codec self))) /\
  no_audio_warning ∈ trace run.

Lemma get_audio_no_tokens {Model} (self : Interface Model) tokens :
  extract_audio_from_tokens (prompt_processor self) tokens = Ok [] ->
  InterfaceHF.get_audio self tokens =
  ([CallExtractAudio tokens; no_audio_warning], Ok None).
Proof. intros He. unfold InterfaceHF.get_audio. run_m. by rewrite He. Qed.

Ltac finish_no_audio self :=
  unfold returns_no_audio; destruct (verbose self); run_m;
  (split; [done|]); rewrite !elem_of_app, !elem_of_cons; tauto.

Lemma generate_HF_no_audio (self : InterfaceHF.t) text speaker temp rp n extra
    ids output :
  outcome (InterfaceHF.prepare_prompt self text speaker) = Ok ids ->
  n <= max_seq_length (config self) ->
  hf_generate (model self) ids
    {| temperature := temp; repetition_penalty := rp; max_length := Some n;
       additional_gen_config := extra |} = Ok output ->
  extract_audio_from_tokens (prompt_processor self)
    (drop (length ids) output) = Ok [] ->
  returns_no_audio self
    (InterfaceHF.generate self text speaker temp rp (Some n) extra).
Proof.
  unfold InterfaceHF.generate, InterfaceHF.prepare_prompt. run_m.
  destruct (get_completion_prompt _ _ _ _) as [prompt|e1]; run_m; [|done].
  destruct (tokenizer_encode _ _) as [ids'|e2]; run_m; [|done].
  intros [= ->] Hn Hgen Hex.
  rewrite (check_generation_max_length_ok self n Hn), Hgen.
  rewrite (get_audio_no_tokens self _ Hex).
  finish_no_audio self.
Qed.

Lemma generate_GGUF_no_audio (self : InterfaceGGUF.t) text speaker temp rp n
    extra ids output :
  outcome (InterfaceGGUF.prepare_prompt self text speaker) = Ok ids ->
  n <= max_seq_length (config self) ->
  gguf_generate (model self) ids
    {| temperature := temp; repetition_penalty := rp; max_length := Some n;
       additional_gen_config := extra |} = Ok output ->
  extract_audio_from_tokens (prompt_processor self) output = Ok [] ->
  returns_no_audio self
    (InterfaceGGUF.generate self text speaker temp rp (Some n) extra).
Proof.
  unfold InterfaceGGUF.generate, InterfaceGGUF.prepare_prompt. run_m.
  destruct (get_completion_prompt _ _ _ _) as [prompt|e1]; run_m; [|done].
  destruct (tokenizer_encode _ _) as [ids'|e2]; run_m; [|done].
  intros [= ->] Hn Hgen Hex.
  rewrite (check_generation_max_length_ok self n Hn), Hgen.
  rewrite (get_audio_no_tokens self _ Hex).
  finish_no_audio self.
Qed.

Lemma generate_EXL2_no_audio (self : InterfaceEXL2.t) text speaker temp rp n
    extra dyn prompt output :
  outcome (InterfaceEXL2.prepare_prompt self text speaker) = Ok prompt ->
  n <= max_seq_length (config self) ->
  exl2_generate (model self) prompt
    {| temperature := temp; repetition_penalty := rp; max_length := Some n;
       additional_gen_config := extra |} dyn = Ok output ->
  extract_audio_from_tokens (prompt_processor self) output = Ok [] ->
  returns_no_audio self
    (InterfaceEXL2.generate self text speaker temp rp (Some n) extra dyn).
Proof.
  unfold InterfaceEXL2.generate, InterfaceEXL2.prepare_prompt. run_m.
  destruct (get_completion_prompt _ _ _ _) as [prompt'|e1]; run_m; [|done].
  intros [= ->] Hn Hgen Hex.
  rewrite (check_generation_max_length_ok self n Hn), Hgen.
  rewrite (get_audio_no_tokens self _ Hex).
  finish_no_audio self.
Qed.

(** The prompt processor finds the audio tokens as the spec describes,
    with the sentinels [audio_start] and [audio_end]. *)
Definition extracts_sentinel_region {Model} (self : Interface Model)
    (audio_start audio_end : Z) : Prop :=
  forall tokens,
    extract_audio_from_tokens (prompt_processor self) tokens
    = Ok (sentinel_region audio_start audio_end tokens).

(** C4.  When the sequence that the backend returns contains no
    sentinel-delimited audio region, the extraction is empty and
    [generate] returns, on each of the three interfaces, a [ModelOutput]
    whose audio is [None], after logging the warning. *)
Theorem generate_without_audio_region (audio_start audio_end : Z)
    text speaker temp rp n extra output :
  ~ has_audio_region audio_start audio_end output ->
  sentinel_region audio_start audio_end output = [] /\
  (forall (self : InterfaceHF.t) ids,
     extracts_sentinel_region self audio_start audio_end ->
     outcome (InterfaceHF.prepare_prompt self text speaker) = Ok ids ->
     n <= max_seq_length (config self) ->
     hf_generate (model self) ids
       {| temperature := temp; repetition_penalty := rp;
          max_length := Some n; additional_gen_config := extra |}
     = Ok output ->
     returns_no_audio self
       (InterfaceHF.generate self text speaker temp rp (Some n) extra)) /\
  (forall (self : InterfaceGGUF.t) ids,
     extracts_sentinel_region self audio_start audio_end ->
     outcome (InterfaceGGUF.prepare_prompt self text speaker) = Ok ids ->
     n <= max_seq_length (config self) ->
     gguf_generate (model self) ids
       {| temperature := temp; repetition_penalty := rp;
          max_length := Some n; additional_gen_config := extra |}
     = Ok output ->
     returns_no_audio self
       (InterfaceGGUF.generate self text speaker temp rp (Some n) extra)) /\
  (forall (self : InterfaceEXL2.t) dyn prompt,
     extracts_sentinel_region self audio_start audio_end ->
     outcome (InterfaceEXL2.prepare_prompt self text speaker) = Ok prompt ->
     n <= max_seq_length (config self) ->
     exl2_generate (model self) prompt
       {| temperature := temp; repetition_penalty := rp;
          max_length := Some n; additional_gen_config := extra |} dyn
     = Ok output ->
     returns_no_audio self
       (InterfaceEXL2.generate self text speaker temp rp (Some n) extra dyn)).
Proof.
  intros Hno. pose proof (sentinel_region_none _ _ _ Hno) as Hnone.
  split; [done|]. split; [|split].
  - intros self ids Hex Hprep Hn Hgen.
    apply (generate_HF_no_audio _ _ _ _ _ _ _ ids output); try done.
    rewrite Hex. f_equal. apply sentinel_region_none.
    intros Hr. by apply Hno, (has_audio_region_drop _ _ (length ids)).
  - intros self ids Hex Hprep Hn Hgen.
    apply (generate_GGUF_no_audio _ _ _ _ _ _ _ ids output); try done.
    by rewrite Hex, Hnone.
  - intros self dyn prompt Hex Hprep Hn Hgen.
    apply (generate_EXL2_no_audio _ _ _ _ _ _ _ _ prompt output); try done.
    by rewrite Hex, Hnone.
Qed.
End GenerateWithoutAudio.

(** The sample interfaces on the output [[7; 1000; 8; 9]]: it opens an
    audio region and never closes it. *)
Lemma generate_without_audio_region_witness :
  let temp : @float Sample.env := Sample.Hundredths 10 in
  let rp : @float Sample.env := Sample.Hundredths 110 in
  let output := [7; 1000; 8; 9] in
  ~ has_audio_region 1000 1001 output /\
  sentinel_region 1000 1001 output = [] /\
  returns_no_audio (Sample.hf output)
    (InterfaceHF.generate (Sample.hf output) "" None temp rp (Some 4096) tt) /\
  returns_no_audio (Sample.gguf output)
    (InterfaceGGUF.generate (Sample.gguf output) "hi" None temp rp
       (Some 4096) tt) /\
  returns_no_audio (Sample.exl2 output)
    (InterfaceEXL2.generate (Sample.exl2 output) "hi" None temp rp
       (Some 4096) tt tt).
Proof.
  intros temp rp output.
  assert (~ has_audio_region 1000 1001 output) as Hno.
  { intros (pre & mid & post & Heq).
    assert (In 1001 output) as Hin.
    { rewrite Heq. apply in_or_app. right. right.
      apply in_or_app. right. by left. }
    cbn in Hin. intuition lia. }
  split; [exact Hno|].
  destruct (generate_without_audio_region 1000 1001 "" None temp rp 4096 tt
              output Hno) as (Hnone & Hhf & _).
  destruct (generate_without_audio_region 1000 1001 "hi" None temp rp 4096 tt
              output Hno) as (_ & _ & Hgguf & Hexl2).
  split; [exact Hnone|].
  split; [|split].
  - by eapply Hhf.
  - by eapply Hgguf.
  - by eapply Hexl2.
Defined.

(** ** The chunk buffer of [generate_stream] *)
Section Monad.
Context `{Env}.

Lemma bind_assoc {A B C} (m : M A) (f : A -> M B) (g : B -> M C) :
  (m ≫= f) ≫= g = m ≫= (fun a => f a ≫= g).
Proof.
  destruct m as [t [a|e]]; [|done]. run_m.
  destruct (f a) as [t1 [b|e]]; run_m; [|done].
  destruct (g b) as [t2 r]. by rewrite app_assoc.
Qed.

Lemma bind_ext {A B} (m : M A) (f g : A -> M B) :
  (forall a, f a = g a) -> m ≫= f = m ≫= g.
Proof. intros Hfg. destruct m as [t [a|e]]; [|done]. run_m. by rewrite Hfg. Qed.

Lemma bind_ret_l {A B} (a : A) (f : A -> M B) :
  (([], Ok a) : M A) ≫= f = f a.
Proof. run_m. by destruct (f a). Qed.

(** The [ModelOutput]s that a run hands to its consumer. *)
Definition yields (t : list event) : list ModelOutput :=
  omap (fun ev => match ev with Yield out => Some out | _ => None end) t.

(** The token buffers that a run passes to [get_audio]. *)
Definition decoded_buffers (t : list event) : list (list Z) :=
  omap (fun ev =>
          match ev with CallExtractAudio b => Some b | _ => None end) t.

Lemma yields_app t1 t2 : yields (t1 ++ t2) = yields t1 ++ yields t2.
Proof. apply omap_app. Qed.

Lemma decoded_buffers_app t1 t2 :
  decoded_buffers (t1 ++ t2) = decoded_buffers t1 ++ decoded_buffers t2.
Proof. apply omap_app. Qed.

Lemma get_audio_trace {Model} (self : Interface Model) tokens :
  yields (trace (InterfaceHF.get_audio self tokens)) = [] /\
  decoded_buffers (trace (InterfaceHF.get_audio self tokens)) = [tokens].
Proof.
  unfold InterfaceHF.get_audio. run_m.
  destruct (extract_audio_from_tokens _ _) as [[|c codes]|e]; run_m;
    [done| |done].
  by destruct (decode _ _).
Qed.
End Monad.

Section Streaming.
Context `{Env}.
Variable self : InterfaceGGUF.t.
Variable chunk_size : Z.
Hypothesis chunk_size_pos : 0 < chunk_size.

Local Abbreviation stream_step := (InterfaceGGUF.stream_step self chunk_size).
Local Abbreviation stream_loop := (InterfaceGGUF.stream_loop self chunk_size).
Local Abbreviation get_audio := (InterfaceHF.get_audio self).

Definition chunk_output (a : option Tensor) : ModelOutput :=
  mkModelOutput a (codec_sr (audio_codec self)).

(** What the [except] branch logs. *)
Definition chunk_warning (e : exn) : list event :=
  if verbose self
  then [Log WARNING ("Error generating audio chunk: " +:+ exn_str e)]
  else [].

Lemma stream_loop_app t1 t2 : forall buf,
  stream_loop (t1 ++ t2) buf =
  stream_loop t1 buf ≫= stream_loop t2.
Proof.
  induction t1 as [|tok t1 IH]; intros buf.
  - symmetry. apply bind_ret_l.
  - cbn [app InterfaceGGUF.stream_loop]. rewrite bind_assoc.
    apply bind_ext. intros b. apply IH.
Qed.

Lemma between_multiples k n :
  k * chunk_size < n < (k + 1) * chunk_size -> n mod chunk_size <> 0.
Proof.
  intros Hn Hmod. apply Z.mod_divide in Hmod as [q ->]; [|lia].
  assert (k < q) by nia. assert (q < k + 1) by nia. lia.
Qed.

Lemma stream_step_inside k buf tok :
  k * chunk_size <= Z.of_nat (length buf) ->
  Z.of_nat (length buf) + 1 < (k + 1) * chunk_size ->
  stream_step buf tok = ([], Ok (buf ++ [tok])).
Proof.
  intros Hlo Hhi. unfold InterfaceGGUF.stream_step.
  destruct (Z.eqb_spec chunk_size 0) as [|_]; [lia|].
  rewrite length_app, Nat2Z.inj_add. cbn [length].
  destruct (Z.eqb_spec ((Z.of_nat (length buf) + Z.of_nat 1) mod chunk_size) 0)
    as [Hmod|_]; [|done].
  by apply (between_multiples k) in Hmod; [|lia].
Qed.

(** Between two multiples of [chunk_size] the loop only buffers. *)
Lemma stream_loop_inside k tokens : forall buf,
  k * chunk_size <= Z.of_nat (length buf) ->
  Z.of_nat (length buf) + Z.of_nat (length tokens) < (k + 1) * chunk_size ->
  stream_loop tokens buf = ([], Ok (buf ++ tokens)).
Proof.
  induction tokens as [|tok tokens IH]; intros buf Hlo Hhi.
  - cbn. by rewrite app_nil_r.
  - cbn [InterfaceGGUF.stream_loop length] in *.
    rewrite (stream_step_inside k) by lia. rewrite bind_ret_l.
    rewrite IH; [by rewrite <- app_assoc|..];
      rewrite length_app; cbn [length]; lia.
Qed.

(** At a multiple of [chunk_size]: the buffer is decoded; on success the
    audio is yielded and the buffer starts afresh, on failure nothing is
    yielded and the buffer is kept. *)
Definition at_boundary (buf : list Z) : M (list Z) :=
  match get_audio buf with
  | (t, Ok a) => (t ++ [Yield (chunk_output a)], Ok [])
  | (t, Raise e) => (t ++ chunk_warning e, Ok buf)
  end.

Lemma stream_step_boundary k buf tok :
  Z.of_nat (length buf) + 1 = (k + 1) * chunk_size ->
  stream_step buf tok = at_boundary (buf ++ [tok]).
Proof.
  intros Hlen. unfold InterfaceGGUF.stream_step, at_boundary.
  destruct (Z.eqb_spec chunk_size 0) as [|_]; [lia|].
  rewrite length_app, Nat2Z.inj_add. cbn [length].
  change (Z.of_nat 1) with 1. rewrite Hlen, Z.mod_mul by lia.
  cbn [Z.eqb]. unfold chunk_warning, chunk_output.
  destruct (get_audio (buf ++ [tok])) as [t [a|e]]; run_m.
  - by rewrite app_nil_r.
  - destruct (verbose self); run_m; by rewrite ?app_nil_r.
Qed.

Lemma stream_loop_boundary k tokens buf :
  tokens <> [] ->
  k * chunk_size <= Z.of_nat (length buf) ->
  Z.of_nat (length buf) + Z.of_nat (length tokens) = (k + 1) * chunk_size ->
  stream_loop tokens buf = at_boundary (buf ++ tokens).
Proof.
  intros Hne Hlo Hlen.
  destruct (exists_last Hne) as (init & tok & ->).
  rewrite length_app in Hlen. cbn [length] in Hlen.
  rewrite stream_loop_app, (stream_loop_inside k) by lia.
  rewrite bind_ret_l. cbn [InterfaceGGUF.stream_loop].
  rewrite (stream_step_boundary k) by (rewrite length_app; lia).
  rewrite app_assoc. by destruct (at_boundary _) as [t [b|e]]; run_m;
    rewrite ?app_nil_r.
Qed.
End Streaming.

Section StreamRun.
Context `{Env}.

(** What [generate_stream] does once the prompt is built, the gate is
    passed and the backend has produced [tokens]: the loop, the final
    flush and the closing log line. *)
Definition stream_body (self : InterfaceGGUF.t) (chunk_size : Z)
    (tokens : list Z) : M unit :=
  generated_tokens ← InterfaceGGUF.stream_loop self chunk_size tokens [];
  match generated_tokens with
  | [] => mret tt
  | _ :: _ =>
      final_audio ← InterfaceHF.get_audio self generated_tokens;
      emit (Yield (mkModelOutput final_audio (codec_sr (audio_codec self))))
  end;;
  when (verbose self) (emit (Log INFO "Streaming audio generation completed")).

Lemma generate_stream_body (self : InterfaceGGUF.t) text speaker temp rp n
    chunk_size extra ids tokens :
  outcome (InterfaceGGUF.prepare_prompt self text speaker) = Ok ids ->
  n <= max_seq_length (config self) ->
  gguf_generate_stream (model self) ids
    {| temperature := temp; repetition_penalty := rp; max_length := Some n;
       additional_gen_config := extra |} = (tokens, None) ->
  let run := InterfaceGGUF.generate_stream self text speaker temp rp (Some n)
               chunk_size extra in
  outcome run = outcome (stream_body self chunk_size tokens) /\
  yields (trace run) = yields (trace (stream_body self chunk_size tokens)) /\
  decoded_buffers (trace run)
  = decoded_buffers (trace (stream_body self chunk_size tokens)).
Proof.
  unfold InterfaceGGUF.generate_stream, InterfaceGGUF.prepare_prompt,
    stream_body. run_m.
  destruct (get_completion_prompt _ _ _ _) as [prompt|e1]; run_m; [|done].
  destruct (tokenizer_encode _ _) as [ids'|e2]; run_m; [|done].
  intros [= ->] Hn Hgen.
  rewrite (check_generation_max_length_ok self n Hn), Hgen.
  destruct (InterfaceGGUF.stream_loop self chunk_size tokens [])
    as [t [[|tok buf]|e]]; run_m.
  - destruct (verbose self); run_m;
      by rewrite ?yields_app, ?decoded_buffers_app.
  - destruct (InterfaceHF.get_audio self (tok :: buf)) as [t' [a|e]]; run_m;
      destruct (verbose self); run_m;
      by rewrite ?yields_app, ?decoded_buffers_app.
  - destruct (verbose self); run_m;
      by rewrite ?yields_app, ?decoded_buffers_app.
Qed.

(** C5.  With a backend that streams exactly 125 tokens and
    [chunk_size = 50], and no failing decode, [generate_stream] yields
    exactly three [ModelOutput]s: the audio of the first 50 tokens, of
    the next 50, and of the remaining 25, which are flushed after the
    loop. *)
Theorem generate_stream_125_tokens (self : InterfaceGGUF.t) text speaker
    temp rp n extra ids tokens a1 a2 a3 :
  outcome (InterfaceGGUF.prepare_prompt self text speaker) = Ok ids ->
  n <= max_seq_length (config self) ->
  gguf_generate_stream (model self) ids
    {| temperature := temp; repetition_penalty := rp; max_length := Some n;
       additional_gen_config := extra |} = (tokens, None) ->
  length tokens = 125%nat ->
  outcome (InterfaceHF.get_audio self (take 50 tokens)) = Ok a1 ->
  outcome (InterfaceHF.get_audio self (take 50 (drop 50 tokens))) = Ok a2 ->
  outcome (InterfaceHF.get_audio self (drop 100 tokens)) = Ok a3 ->
  let run := InterfaceGGUF.generate_stream self text speaker temp rp (Some n)
               50 extra in
  outcome run = Ok tt /\
  yields (trace run) =
    [chunk_output self a1; chunk_output self a2; chunk_output self a3] /\
  decoded_buffers (trace run) =
    [take 50 tokens; take 50 (drop 50 tokens); drop 100 tokens] /\
  length (take 50 tokens) = 50%nat /\
  length (take 50 (drop 50 tokens)) = 50%nat /\
  length (drop 100 tokens) = 25%nat.
Proof.
  intros Hprep Hn Hgen Hlen Ha1 Ha2 Ha3 run. subst run.
  destruct (generate_stream_body self text speaker temp rp n 50 extra ids
              tokens Hprep Hn Hgen) as (-> & -> & ->).
  clear Hprep Hgen.
  set (c1 := take 50 tokens) in *.
  set (c2 := take 50 (drop 50 tokens)) in *.
  set (c3 := drop 100 tokens) in *.
  assert (tokens = c1 ++ c2 ++ c3) as Htok.
  { subst c1 c2 c3. rewrite <- (take_drop 50 tokens) at 1. f_equal.
    rewrite <- (take_drop 50 (drop 50 tokens)) at 1. f_equal.
    by rewrite drop_drop. }
  assert (length c1 = 50%nat) as H1 by (subst c1; rewrite length_take; lia).
  assert (length c2 = 50%nat) as H2
    by (subst c2; rewrite length_take, length_drop; lia).
  assert (length c3 = 25%nat) as H3 by (subst c3; rewrite length_drop; lia).
  assert (c1 <> []) as Hne1 by (intros Hnil; by rewrite Hnil in H1).
  assert (c2 <> []) as Hne2 by (intros Hnil; by rewrite Hnil in H2).
  unfold stream_body. rewrite Htok.
  rewrite stream_loop_app.
  rewrite (stream_loop_boundary self 50 ltac:(lia) 0 c1 [] Hne1)
    by (cbn [length]; lia).
  unfold at_boundary. cbn [app].
  destruct (get_audio_trace self c1) as [Hy1 Hb1].
  destruct (get_audio_trace self c2) as [Hy2 Hb2].
  destruct (get_audio_trace self c3) as [Hy3 Hb3].
  destruct (InterfaceHF.get_audio self c1) as [t1 r1].
  cbn [outcome trace snd fst] in Ha1, Hy1, Hb1. subst r1. run_m.
  rewrite stream_loop_app.
  rewrite (stream_loop_boundary self 50 ltac:(lia) 0 c2 [] Hne2)
    by (cbn [length]; lia).
  unfold at_boundary. cbn [app].
  destruct (InterfaceHF.get_audio self c2) as [t2 r2].
  cbn [outcome trace snd fst] in Ha2, Hy2, Hb2. subst r2. run_m.
  rewrite (stream_loop_inside self 50 ltac:(lia) 0 c3 [])
    by (cbn [length]; lia).
  cbn [app]. destruct c3 as [|tok c3']; [done|]. run_m.
  destruct (InterfaceHF.get_audio self (tok :: c3')) as [t3 r3].
  cbn [outcome trace snd fst] in Ha3, Hy3, Hb3. subst r3. run_m.
  destruct (verbose self); run_m;
    rewrite ?yields_app, ?decoded_buffers_app, ?Hy1, ?Hy2, ?Hy3,
      ?Hb1, ?Hb2, ?Hb3; done.
Qed.
End StreamRun.

(** The sample backend streaming [Sample.stream_125]. *)
Lemma generate_stream_125_tokens_witness :
  let temp : @float Sample.env := Sample.Hundredths 10 in
  let rp : @float Sample.env := Sample.Hundredths 110 in
  let self := Sample.gguf Sample.stream_125 in
  let run := InterfaceGGUF.generate_stream self "hi" None temp rp (Some 4096)
               50 tt in
  length Sample.stream_125 = 125%nat /\
  outcome run = Ok tt /\
  yields (trace run) =
    [chunk_output self (Some (Sample.codes 0 48));
     chunk_output self (Some (Sample.codes 48 48));
     chunk_output self (Some (Sample.codes 96 23))].
Proof.
  intros temp rp self run.
  split; [reflexivity|].
  destruct (generate_stream_125_tokens self "hi" None temp rp 4096 tt
              (map ascii_code (list_ascii_of_string "en: hi"))
              Sample.stream_125
              (Some (Sample.codes 0 48)) (Some (Sample.codes 48 48))
              (Some (Sample.codes 96 23)))
    as (Hout & Hyields & _); try reflexivity.
  split; assumption.
Defined.

(** ** A chunk that fails to decode *)
Section FailedChunk.
Context `{Env}.

(** The reading under which the tokens of a failed chunk are dropped: no
    token of a buffer whose decoding raised is in a buffer decoded
    later. *)
Definition failed_chunks_discarded (self : InterfaceGGUF.t)
    (run : M unit) : Prop :=
  forall i j failed later tok,
    decoded_buffers (trace run) !! i = Some failed ->
    is_ok (outcome (InterfaceHF.get_audio self failed)) = false ->
    (i < j)%nat ->
    decoded_buffers (trace run) !! j = Some later ->
    tok ∈ failed -> tok ∉ later.

(** C2, amended.  When the buffer reaches a multiple of [chunk_size] and
    its decoding raises, the exception is caught, nothing is yielded, and
    the buffer is kept whole.  The next decoding, at the next multiple of
    [chunk_size], is therefore over the tokens of the failed chunk
    followed by the newer ones; and a shorter remainder is buffered
    behind them for the final flush. *)
Theorem stream_failed_chunk_is_kept (self : InterfaceGGUF.t) chunk_size k
    buf tok e :
  0 < chunk_size ->
  Z.of_nat (length buf) + 1 = (k + 1) * chunk_size ->
  outcome (InterfaceHF.get_audio self (buf ++ [tok])) = Raise e ->
  let failed := buf ++ [tok] in
  outcome (InterfaceGGUF.stream_step self chunk_size buf tok) = Ok failed /\
  yields (trace (InterfaceGGUF.stream_step self chunk_size buf tok)) = [] /\
  (forall rest,
     Z.of_nat (length rest) = chunk_size ->
     InterfaceGGUF.stream_loop self chunk_size rest failed
     = at_boundary self (failed ++ rest)) /\
  (forall rest,
     Z.of_nat (length rest) < chunk_size ->
     InterfaceGGUF.stream_loop self chunk_size rest failed
     = ([], Ok (failed ++ rest))).
Proof.
  intros Hpos Hlen Hfail failed. subst failed.
  assert (Z.of_nat (length (buf ++ [tok])) = (k + 1) * chunk_size) as Hfl.
  { rewrite length_app. cbn [length]. lia. }
  rewrite (stream_step_boundary self chunk_size Hpos k) by done.
  unfold at_boundary at 1 2.
  destruct (get_audio_trace self (buf ++ [tok])) as [Hy _].
  destruct (InterfaceHF.get_audio self (buf ++ [tok])) as [t r].
  cbn [outcome trace fst snd] in *. subst r. cbn [outcome trace fst snd].
  split; [done|]. split.
  { rewrite yields_app, Hy. unfold chunk_warning. by destruct (verbose self). }
  split; intros rest Hrest.
  - apply (stream_loop_boundary self chunk_size Hpos (k + 1)); [|lia..].
    intros ->. cbn in Hrest. lia.
  - apply (stream_loop_inside self chunk_size Hpos (k + 1)); lia.
Qed.
End FailedChunk.

(** With [chunk_size = 2] and a codec that cannot decode two codes, the
    stream [[10; 11; 12; 13]]: the first chunk fails, and the one
    [ModelOutput] that is yielded is decoded from all four tokens. *)
Lemma failed_chunk_is_decoded_again :
  let temp : @float Sample.env := Sample.Hundredths 10 in
  let rp : @float Sample.env := Sample.Hundredths 110 in
  let self := Sample.flaky [10; 11; 12; 13] in
  let run := InterfaceGGUF.generate_stream self "hi" None temp rp (Some 4096)
               2 tt in
  outcome (InterfaceHF.get_audio self [10; 11])
    = Raise Sample.short_chunk_error /\
  decoded_buffers (trace run) = [[10; 11]; [10; 11; 12; 13]] /\
  yields (trace run) = [chunk_output self (Some [10; 11; 12; 13])] /\
  ~ failed_chunks_discarded self run.
Proof.
  intros temp rp self run.
  split; [reflexivity|]. split; [reflexivity|]. split; [reflexivity|].
  intros Hclaim.
  apply (Hclaim 0%nat 1%nat [10; 11] [10; 11; 12; 13] 10);
    try reflexivity; try lia; set_solver.
Qed.

(** The step at the failing boundary of that run, and what follows it. *)
Lemma stream_failed_chunk_is_kept_witness :
  let self := Sample.flaky [10; 11; 12; 13] in
  outcome (InterfaceGGUF.stream_step self 2 [10] 11) = Ok [10; 11] /\
  yields (trace (InterfaceGGUF.stream_step self 2 [10] 11)) = [] /\
  InterfaceGGUF.stream_loop self 2 [12; 13] [10; 11]
  = at_boundary self [10; 11; 12; 13] /\
  InterfaceGGUF.stream_loop self 2 [12] [10; 11] = ([], Ok [10; 11; 12]).
Proof.
  intros self.
  destruct (stream_failed_chunk_is_kept self 2 0 [10] 11
              Sample.short_chunk_error)
    as (Hstep & Hyield & Hnext & Hflush); try reflexivity.
  split; [exact Hstep|]. split; [exact Hyield|].
  split; [exact (Hnext [12; 13] eq_refl)|exact (Hflush [12] eq_refl)].
Defined.

(** ** Normalisation of names and languages *)
Section Normalise.


Lemma is_space_lower_char c : is_space (lower_char c) = is_space c.
Proof. destruct c as [[] [] [] [] [] [] [] []]; reflexivity. Qed.

Lemma lower_char_idemp c : lower_char (lower_char c) = lower_char c.
Proof. destruct c as [[] [] [] [] [] [] [] []]; reflexivity. Qed.

(** Every character is white space. *)
Definition blank (l : list ascii) : Prop :=
  Forall (fun c => is_space c = true) l.

(** The first character, if any, is not white space. *)
Definition no_leading_space (l : list ascii) : Prop :=
  match l with
  | [] => True
  | c :: _ => is_space c = false
  end.


Lemma lstrip_chars_id l : no_leading_space l -> lstrip_chars l = l.
Proof. destruct l as [|c l]; [done|]. cbn. by intros ->. Qed.

Lemma lstrip_chars_split l :
  exists pad, blank pad /\ l = pad ++ lstrip_chars l /\
              no_leading_space (lstrip_chars l).
Proof.
  induction l as [|c l (pad & Hpad & Hl & Hno)].
  - exists []. split; [constructor|done].
  - cbn. destruct (is_space c) eqn:Hc.
    + exists (c :: pad). split; [by constructor|]. split; [|done].
      cbn. by f_equal.
    + exists []. split; [constructor|]. cbn. by rewrite Hc.
Qed.

Lemma lstrip_chars_map_lower l :
  lstrip_chars (map lower_char l) = map lower_char (lstrip_chars l).
Proof.
  induction l as [|c l IH]; [done|]. cbn.
  rewrite is_space_lower_char. by destruct (is_space c).
Qed.

Lemma strip_chars_map_lower l :
  strip_chars (map lower_char l) = map lower_char (strip_chars l).
Proof.
  unfold strip_chars.
  by rewrite lstrip_chars_map_lower, <- map_rev, lstrip_chars_map_lower,
    map_rev.
Qed.




Lemma strip_chars_no_leading_space l : no_leading_space (strip_chars l).
Proof.
  unfold strip_chars.
  destruct (lstrip_chars_split l) as (_ & _ & _ & Hno).
  destruct (lstrip_chars l) as [|c l']; [done|].
  destruct (lstrip_chars_split (rev (c :: l'))) as (pad & Hpad & Heq & _).
  apply (f_equal (@rev ascii)) in Heq. rewrite rev_involutive, rev_app_distr in Heq.
  destruct (rev (lstrip_chars (rev (c :: l')))) as [|d l'']; [done|].
  by injection Heq as <- _.
Qed.

Lemma strip_chars_idemp l : strip_chars (strip_chars l) = strip_chars l.
Proof.
  pose proof (strip_chars_no_leading_space l) as Hno.
  unfold strip_chars at 1. rewrite (lstrip_chars_id (strip_chars l)) by done.
  unfold strip_chars. rewrite rev_involutive.
  destruct (lstrip_chars_split (rev (lstrip_chars l))) as (_ & _ & _ & Hno').
  by rewrite (lstrip_chars_id (lstrip_chars _)) by done.
Qed.


(** [s.lower().strip()] *)
Definition normalise (s : string) : string := strip (lower s).

Lemma normalise_chars s :
  list_ascii_of_string (normalise s)
  = strip_chars (map lower_char (list_ascii_of_string s)).
Proof.
  unfold normalise, strip, lower.
  by rewrite !list_ascii_of_string_of_list_ascii.
Qed.

Lemma normalise_idemp s : normalise (normalise s) = normalise s.
Proof.
  rewrite <- (string_of_list_ascii_of_string (normalise (normalise s))).
  rewrite <- (string_of_list_ascii_of_string (normalise s)) at 2.
  f_equal. rewrite !normalise_chars.
  rewrite strip_chars_map_lower, strip_chars_idemp, <- strip_chars_map_lower.
  rewrite map_map. f_equal. apply map_ext. intros c. apply lower_char_idemp.
Qed.



End Normalise.

(** ** The catalog of default speakers *)
Section CatalogLookups.
Context `{Env}.

Lemma catalog_ja_male_1 :
  _DEFAULT_SPEAKERS !! "ja" ≫= (.!! "male_1")
  = Some (get_speaker_path "ja_male_1").
Proof. vm_compute. reflexivity. Qed.

Lemma catalog_ja_male_2 :
  _DEFAULT_SPEAKERS !! "ja" ≫= (.!! "male_2") = None.
Proof. vm_compute. reflexivity. Qed.

Lemma change_language_Ok {Model} (self self' : Interface Model) lang :
  InterfaceHF.change_language self lang = Ok self' ->
  self' = set_language self (normalise lang).
Proof.
  unfold InterfaceHF.change_language, normalise.
  case_bool_decide; [|done]. by intros [= <-].
Qed.

(** The [ValueError] for a name that the catalog does not have. *)
Definition speaker_not_found {A} (r : result A) : Prop :=
  exists msg, r = Raise (ValueError msg).

(** C3, amended.  After a successful [change_language("ja")], the name
    ["male_1"] is found in the catalog: [load_default_speaker("male_1")]
    is [load_speaker] on the path of [ja_male_1.json] and raises no
    speaker-not-found error.  A name that the catalog does not have under
    ["ja"], such as ["male_2"], raises it. *)
Theorem load_default_speaker_after_change_to_ja {Model}
    (self self' : Interface Model) fs :
  InterfaceHF.change_language self "ja" = Ok self' ->
  InterfaceHF.load_default_speaker self' "male_1" fs
  = InterfaceHF.load_speaker self' (get_speaker_path "ja_male_1") fs /\
  InterfaceHF.load_default_speaker self' "male_2" fs
  = Raise (ValueError "Speaker male_2 not found for language ja").
Proof.
  intros ->%change_language_Ok.
  unfold InterfaceHF.load_default_speaker. cbn [language set_language].
  change (strip (lower (normalise "ja"))) with "ja".
  change (strip (lower "male_1")) with "male_1".
  change (strip (lower "male_2")) with "male_2".
  pose proof catalog_ja_male_1 as H1. pose proof catalog_ja_male_2 as H2.
  destruct (_DEFAULT_SPEAKERS !! "ja") as [speakers|]; [|done].
  cbn [mbind option_bind] in H1, H2. by rewrite H1, H2.
Qed.
End CatalogLookups.

(** On the sample interface and a file system that holds
    [ja_male_1.json]: the language changes to ["ja"] and the profile is
    loaded; without the file, the error is that of [open]. *)
Lemma ja_male_1_is_loaded :
  let self := Sample.hf [] in
  let self' := set_language self "ja" in
  let no_files :=
    {| target := fun path => path; files := ∅;
       failure := fun _ _ => None |} in
  InterfaceHF.change_language self "ja" = Ok self' /\
  InterfaceHF.load_default_speaker self' "male_1" Sample.fs
  = Ok Sample.ja_profile /\
  InterfaceHF.load_default_speaker self' "male_1" no_files
  = Raise (FileNotFoundError
      "/site-packages/outetts/version/v1/default_speakers/ja_male_1.json") /\
  ~ speaker_not_found
      (InterfaceHF.load_default_speaker self' "male_1" Sample.fs) /\
  ~ speaker_not_found
      (InterfaceHF.load_default_speaker self' "male_1" no_files).
Proof.
  intros self self' no_files.
  assert (InterfaceHF.load_default_speaker self' "male_1" Sample.fs
          = Ok Sample.ja_profile) as Hload by reflexivity.
  assert (InterfaceHF.load_default_speaker self' "male_1" no_files
          = Raise (FileNotFoundError
              "/site-packages/outetts/version/v1/default_speakers/ja_male_1.json"))
    as Hmissing by reflexivity.
  split; [reflexivity|]. split; [exact Hload|].
  split; [exact Hmissing|].
  rewrite Hload, Hmissing. split; intros [msg Hmsg]; discriminate Hmsg.
Qed.

Lemma load_default_speaker_after_change_to_ja_witness :
  let self := Sample.hf [] in
  let self' := set_language self "ja" in
  InterfaceHF.change_language self "ja" = Ok self' /\
  InterfaceHF.load_default_speaker self' "male_1" Sample.fs
  = InterfaceHF.load_speaker self'
      (@get_speaker_path Sample.env "ja_male_1") Sample.fs /\
  InterfaceHF.load_default_speaker self' "male_2" Sample.fs
  = Raise (ValueError "Speaker male_2 not found for language ja").
Proof.
  intros self self'.
  assert (InterfaceHF.change_language self "ja" = Ok self') as Hchange
    by reflexivity.
  split; [exact Hchange|].
  exact (load_default_speaker_after_change_to_ja self self' Sample.fs Hchange).
Defined.

Section NormalisedLookups.
Context `{Env}.



End NormalisedLookups.


(** ** Speaker enrollment *)
Section Enrollment.
Context `{Env}.

(** [int(round((x1 / ctc.sample_rate) * 75))] *)
Definition token_end_value (x1 : Z) : Z :=
  round_to_int (float_mul_int (int_truediv x1 ctc_sample_rate) 75).

(** The codes of a word: its span, or the placeholder for an empty one. *)
Definition fill (span : list Z) : list Z :=
  match span with [] => [1] | _ :: _ => span end.

(** [round(len(word_tokens) / 75, 2)] *)
Definition duration_of (codes : list Z) : float :=
  round_ndigits (int_truediv (Z.of_nat (length codes)) 75) 2.

Definition entry_of (word : str) (span : list Z) : json :=
  InterfaceHF.word_entry word (duration_of (fill span)) (fill span).

(** The spans [row[start:end]] of consecutive boundaries. *)
Fixpoint raw_spans (row : list Z) (ends : list Z) (start : Z)
    : list (list Z) :=
  match ends with
  | [] => []
  | end_ :: rest => py_slice row start end_ :: raw_spans row rest end_
  end.

Definition word_of (i : str * Tensor * Z * Z) : str := i.1.1.1.
Definition end_of (i : str * Tensor * Z * Z) : Z := token_end_value i.2.

Definition spans (row : list Z) (words : list (str * Tensor * Z * Z))
    : list (list Z) :=
  raw_spans row (map end_of words) 0.

(** The list [data] that the loop builds from the first row of the
    encoding. *)
Fixpoint entries (row : list Z) (words : list (str * Tensor * Z * Z))
    (start : Z) : list json :=
  match words with
  | [] => []
  | i :: rest =>
      entry_of (word_of i) (py_slice row start (end_of i))
      :: entries row rest (end_of i)
  end.

Lemma token_end_Ok x1 :
  ctc_sample_rate <> 0 -> InterfaceHF.token_end x1 = Ok (token_end_value x1).
Proof.
  intros Hsr. unfold InterfaceHF.token_end.
  by destruct (Z.eqb_spec ctc_sample_rate 0).
Qed.

Lemma slice_words_Ok full words : forall start data,
  InterfaceHF.slice_words full words start = Ok data ->
  (words = [] /\ data = []) \/
  (exists row, InterfaceHF.first_row full = Ok row /\
               ctc_sample_rate <> 0 /\ data = entries row words start).
Proof.
  induction words as [|[[[word wave] x0] x1] rest IH]; intros start data.
  - cbn. intros [= <-]. by left.
  - cbn [InterfaceHF.slice_words]. unfold InterfaceHF.token_end.
    destruct (Z.eqb_spec ctc_sample_rate 0) as [|Hsr]; [done|].
    cbn [mbind result_bind].
    destruct (InterfaceHF.first_row full) as [row|e] eqn:Hrow; [|done].
    cbn [mbind result_bind].
    destruct (InterfaceHF.slice_words full rest _) as [data'|e] eqn:Hrest;
      [|done].
    cbn [mbind result_bind]. intros [= <-]. right. exists row.
    split; [done|]. split; [done|]. cbn [entries].
    unfold entry_of, duration_of, fill, end_of, word_of. cbn [fst snd].
    fold (token_end_value x1). f_equal.
    destruct (IH _ _ Hrest) as [[Hnil Hdata]|(row' & Hrow' & _ & Hdata)].
    + by rewrite Hnil, Hdata.
    + injection Hrow' as <-. exact Hdata.
Qed.

(** [p[key]] on a [dict] *)
Definition dict_get (key : str) (p : json) : option json :=
  match p with
  | JObject fields =>
      snd <$> List.find (fun kv => str_eqb (fst kv) key) fields
  | _ => None
  end.

(** [p["words"]] *)
Definition profile_words (p : json) : list json :=
  match dict_get "words" p with
  | Some (JArray items) => items
  | _ => []
  end.

(** [e["codes"]] *)
Definition entry_codes (e : json) : list Z :=
  match dict_get "codes" e with
  | Some (JArray items) =>
      omap (fun j => match j with JInt n => Some n | _ => None end) items
  | _ => []
  end.

(** [e["word"]] *)
Definition entry_word (e : json) : option str :=
  match dict_get "word" e with
  | Some (JString w) => Some w
  | _ => None
  end.

(** [e["duration"]] *)
Definition entry_duration (e : json) : option float :=
  match dict_get "duration" e with
  | Some (JFloat d) => Some d
  | _ => None
  end.

Lemma entry_codes_word_entry word duration codes :
  entry_codes (InterfaceHF.word_entry word duration codes) = codes.
Proof.
  unfold entry_codes.
  change (dict_get "codes" (InterfaceHF.word_entry word duration codes))
    with (Some (JArray (map JInt codes))).
  cbn match. induction codes as [|c codes IH]; [done|]. cbn. by rewrite IH.
Qed.

Lemma entries_codes row words : forall start,
  map entry_codes (entries row words start)
  = map fill (raw_spans row (map end_of words) start).
Proof.
  induction words as [|i rest IH]; intros start; [done|].
  cbn [entries map raw_spans]. unfold entry_of.
  by rewrite entry_codes_word_entry, IH.
Qed.

Lemma entries_words row words : forall start,
  map entry_word (entries row words start) = map (Some ∘ word_of) words.
Proof.
  induction words as [|i rest IH]; intros start; [done|].
  cbn [entries map]. by rewrite IH.
Qed.

Lemma entries_durations row words : forall start,
  Forall (fun e => entry_duration e = Some (duration_of (entry_codes e)))
    (entries row words start).
Proof.
  induction words as [|i rest IH]; intros start; constructor; [|apply IH].
  unfold entry_of. by rewrite entry_codes_word_entry.
Qed.

Lemma fill_nonempty span : (1 <= length (fill span))%nat.
Proof. destruct span; cbn; lia. Qed.

(** What a successful [create_speaker] has gone through: the transcript
    (given, or transcribed), the aligned words, the encoding of their
    joined audio, and the profile built from the first row of the
    encoding. *)
Record enrolled {Model} (self : Interface Model)
    (audio_path : string) (transcript : option str)
    (whisper_model : string) (whisper_device : option string)
    (profile : json) (text : str)
    (words : list (str * Tensor * Z * Z)) (row : list Z) : Prop := {
  enrolled_text :
    match transcript with
    | Some given => text = given
    | None =>
        transcribe_once audio_path whisper_model whisper_device = Ok text
    end;
  enrolled_nonempty : text <> [];
  enrolled_words :
    ctc_align (languages self) audio_path text (language self) = Ok words;
  enrolled_row :
    words <> [] ->
    exists full_codes,
      (joined ← torch_cat (map (fun i => i.1.1.2) words);
       converted ← convert_audio_tensor (audio_codec self) joined
                     ctc_sample_rate;
       encode (audio_codec self) converted) = Ok full_codes /\
      InterfaceHF.first_row full_codes = Ok row;
  enrolled_profile :
    profile = JObject [(lit "text", JString text);
                       (lit "words", JArray (entries row words 0));
                       (lit "language", JString (language self))]
}.

Lemma create_speaker_Ok {Model} (self : Interface Model) audio_path transcript
    whisper_model whisper_device profile :
  outcome (InterfaceHF.create_speaker self audio_path transcript
             whisper_model whisper_device) = Ok profile ->
  exists text words row,
    enrolled self audio_path transcript whisper_model whisper_device
      profile text words row.
Proof.
  unfold InterfaceHF.create_speaker.
  assert (forall text (pre : list event),
    (transcript = Some text \/
     transcribe_once audio_path whisper_model whisper_device = Ok text /\
     transcript = None) ->
    outcome
      (bind (A := str) (B := json)
         (fun transcript0 =>
            match transcript0 with
            | [] => raise (ValueError "Transcript text is empty")
            | _ :: _ =>
                words ← call (CallAlign audio_path transcript0 (language self))
                  (ctc_align (languages self) audio_path transcript0
                     (language self));
                emit CallFree;;
                full_codes ← call CallEncode
                  (joined ← torch_cat (map (fun i => i.1.1.2) words);
                   converted ← convert_audio_tensor (audio_codec self) joined
                                 ctc_sample_rate;
                   encode (audio_codec self) converted);
                data ← ([], InterfaceHF.slice_words full_codes words 0);
                mret (JObject [(lit "text", JString transcript0);
                               (lit "words", JArray data);
                               (lit "language", JString (language self))])
            end) (pre, Ok text)) = Ok profile ->
    exists text words row,
      enrolled self audio_path transcript whisper_model whisper_device
        profile text words row) as Hbody.
  { intros text pre Htext. run_m.
    destruct text as [|c text]; [done|].
    destruct (ctc_align _ _ _ _) as [words|e] eqn:Hwords; run_m; [|done].
    destruct (mbind _ (torch_cat _)) as [full|e] eqn:Henc; run_m; [|done].
    destruct (InterfaceHF.slice_words full words 0) as [data|e] eqn:Hdata;
      run_m; [|done].
    intros [= <-].
    destruct (slice_words_Ok _ _ _ _ Hdata)
      as [[-> ->]|(row & Hrow & _ & ->)].
    - exists (c :: text), [], []. split; try done.
      by destruct Htext as [->|[? ->]].
    - exists (c :: text), words, row. split; try done.
      + by destruct Htext as [->|[? ->]].
      + intros _. by exists full. }
  destruct transcript as [given|].
  - apply (Hbody given []). by left.
  - run_m.
    destruct (transcribe_once audio_path whisper_model whisper_device)
      as [text|e] eqn:Htr; [|done].
    intros Hrun. apply (Hbody text
      [Log INFO "Transcription not provided, transcribing audio with whisper.";
       CallTranscribe audio_path whisper_model]); [by right|].
    exact Hrun.
Qed.
End Enrollment.

Section Spans.
Context `{Env}.

(** [l[a:b]] for non-negative [a] and [b]. *)
Lemma py_slice_nonneg {A} (l : list A) a b :
  0 <= a -> 0 <= b ->
  py_slice l a b = take (Z.to_nat b - Z.to_nat a) (drop (Z.to_nat a) l).
Proof.
  intros Ha Hb. unfold py_slice, slice_index.
  destruct (Z.ltb_spec a 0); [lia|]. destruct (Z.ltb_spec b 0); [lia|].
  destruct (Z.le_gt_cases a (Z.of_nat (length l))) as [Hal|Hal].
  - rewrite (Z.min_l a) by lia.
    destruct (Z.le_gt_cases b (Z.of_nat (length l))) as [Hbl|Hbl].
    + rewrite (Z.min_l b) by lia. f_equal. lia.
    + rewrite (Z.min_r b) by lia.
      rewrite !take_ge; [done|rewrite length_drop; lia..].
  - rewrite (Z.min_r a) by lia. rewrite Nat2Z.id.
    rewrite (drop_ge l (length l)), (drop_ge l (Z.to_nat a)) by lia.
    by rewrite !take_nil.
Qed.

(** Boundaries that never go back. *)
Fixpoint nondecreasing_from (start : Z) (ends : list Z) : Prop :=
  match ends with
  | [] => True
  | end_ :: rest => start <= end_ /\ nondecreasing_from end_ rest
  end.

Lemma last_default_irrelevant {A} (l : list A) a d d' :
  List.last (a :: l) d = List.last (a :: l) d'.
Proof.
  revert a. induction l as [|b l IH]; intros a; [done|].
  change (List.last (b :: l) d = List.last (b :: l) d'). apply IH.
Qed.

Lemma last_cons {A} (l : list A) a d :
  List.last (a :: l) d = List.last l a.
Proof.
  destruct l as [|b l]; [done|].
  change (List.last (b :: l) d = List.last (b :: l) a).
  apply last_default_irrelevant.
Qed.

Lemma nondecreasing_last start ends :
  nondecreasing_from start ends -> start <= List.last ends start.
Proof.
  revert start. induction ends as [|end_ rest IH]; intros start; [cbn; lia|].
  intros [Hle Hnd]. rewrite last_cons. specialize (IH _ Hnd). lia.
Qed.

(** Consecutive spans join up: together they are the slice from the first
    start to the last boundary. *)
Lemma concat_raw_spans row ends : forall start,
  0 <= start -> nondecreasing_from start ends ->
  concat (raw_spans row ends start) = py_slice row start (List.last ends start).
Proof.
  induction ends as [|end_ rest IH]; intros start Hstart Hnd.
  - cbn. rewrite py_slice_nonneg by lia.
    by rewrite Nat.sub_diag, take_0.
  - destruct Hnd as [Hle Hnd]. cbn [raw_spans concat].
    rewrite IH by (done || lia).
    rewrite last_cons.
    pose proof (nondecreasing_last _ _ Hnd) as Hlast.
    rewrite !py_slice_nonneg by lia.
    replace (Z.to_nat (List.last rest end_) - Z.to_nat start)%nat
      with ((Z.to_nat end_ - Z.to_nat start) +
            (Z.to_nat (List.last rest end_) - Z.to_nat end_))%nat by lia.
    rewrite <- take_take_drop, drop_drop. do 3 f_equal. lia.
Qed.

Lemma map_fill_nonempty (l : list (list Z)) :
  Forall (fun span => span <> []) l -> map fill l = l.
Proof.
  induction 1 as [|span l Hne _ IH]; [done|]. cbn. rewrite IH.
  by destruct span.
Qed.
End Spans.

Section Profiles.
Context `{Env}.

Lemma profile_words_enrolled {Model} (self : Interface Model) audio_path
    transcript whisper_model whisper_device profile text words row :
  enrolled self audio_path transcript whisper_model whisper_device profile
    text words row ->
  profile_words profile = entries row words 0.
Proof. intros [_ _ _ _ ->]. reflexivity. Qed.

(** The duration of every entry is computed from the codes it ends up
    with: [round(len(codes) / 75, 2)]. *)
Lemma create_speaker_durations {Model} (self : Interface Model) audio_path
    transcript whisper_model whisper_device profile :
  outcome (InterfaceHF.create_speaker self audio_path transcript
             whisper_model whisper_device) = Ok profile ->
  Forall (fun e => entry_duration e = Some (duration_of (entry_codes e)))
    (profile_words profile).
Proof.
  intros (text & words & row & Hen)%create_speaker_Ok.
  rewrite (profile_words_enrolled _ _ _ _ _ _ _ _ _ Hen).
  apply entries_durations.
Qed.

(** C6.  Every entry of the profile that [create_speaker] returns has at
    least one code: the codes of a word are its span of the encoding, or
    the single placeholder [1] when that span is empty. *)
Theorem create_speaker_codes_nonempty {Model} (self : Interface Model)
    audio_path transcript whisper_model whisper_device profile :
  outcome (InterfaceHF.create_speaker self audio_path transcript
             whisper_model whisper_device) = Ok profile ->
  Forall (fun e => (1 <= length (entry_codes e))%nat)
    (profile_words profile) /\
  exists text words row,
    enrolled self audio_path transcript whisper_model whisper_device
      profile text words row /\
    map entry_codes (profile_words profile) = map fill (spans row words) /\
    fill [] = [1].
Proof.
  intros (text & words & row & Hen)%create_speaker_Ok.
  pose proof (profile_words_enrolled _ _ _ _ _ _ _ _ _ Hen) as Hwords.
  assert (map entry_codes (profile_words profile) = map fill (spans row words))
    as Hcodes by (rewrite Hwords; apply entries_codes).
  split; [|by exists text, words, row].
  apply (Forall_map entry_codes (fun codes => (1 <= length codes)%nat)).
  rewrite Hcodes. apply Forall_map, Forall_forall. intros span _.
  apply fill_nonempty.
Qed.

(** The reading under which the codes of the words, joined in order, are
    the encoded sequence. *)
Definition codes_reconstruct (profile : json) (row : list Z) : Prop :=
  concat (map entry_codes (profile_words profile)) = row.

(** C8, amended.  The entries of the profile are the aligned words in the
    aligner's order, and the codes of each are its span of the first row
    of the encoding, or the placeholder when the span is empty.  When the
    token boundaries never go back, the spans joined in order are the
    encoded sequence up to the last boundary; they are the whole sequence,
    and so are the codes, when moreover no span is empty and the last
    boundary reaches the end. *)
Theorem create_speaker_codes_join_up {Model} (self : Interface Model)
    audio_path transcript whisper_model whisper_device profile :
  outcome (InterfaceHF.create_speaker self audio_path transcript
             whisper_model whisper_device) = Ok profile ->
  exists text words row,
    enrolled self audio_path transcript whisper_model whisper_device
      profile text words row /\
    map entry_word (profile_words profile) = map (Some ∘ word_of) words /\
    map entry_codes (profile_words profile) = map fill (spans row words) /\
    (nondecreasing_from 0 (map end_of words) ->
     concat (spans row words)
     = py_slice row 0 (List.last (map end_of words) 0) /\
     (Forall (fun span => span <> []) (spans row words) ->
      Z.of_nat (length row) <= List.last (map end_of words) 0 ->
      codes_reconstruct profile row)).
Proof.
  intros (text & words & row & Hen)%create_speaker_Ok.
  pose proof (profile_words_enrolled _ _ _ _ _ _ _ _ _ Hen) as Hwords.
  exists text, words, row. split; [done|].
  split; [rewrite Hwords; apply entries_words|].
  assert (map entry_codes (profile_words profile) = map fill (spans row words))
    as Hcodes by (rewrite Hwords; apply entries_codes).
  split; [done|]. intros Hnd.
  assert (concat (spans row words)
          = py_slice row 0 (List.last (map end_of words) 0)) as Hjoin
    by (by apply concat_raw_spans).
  split; [done|]. intros Hfull Hlast.
  unfold codes_reconstruct. rewrite Hcodes, map_fill_nonempty, Hjoin by done.
  rewrite py_slice_nonneg by lia. cbn [Z.to_nat drop].
  apply take_ge. lia.
Qed.
End Profiles.

Section SampleEnrollment.
#[local] Existing Instance Sample.env.

(** The sample recording [hello_world.wav]: two words of three codes. *)
Lemma create_speaker_codes_nonempty_witness :
  let self := Sample.hf [] in
  let run := InterfaceHF.create_speaker self "hello_world.wav" None "turbo"
               None in
  let profile :=
    JObject [(lit "text", JString "hello world");
             (lit "words",
              JArray [InterfaceHF.word_entry "hello" (Sample.Hundredths 4)
                        [11; 12; 13];
                      InterfaceHF.word_entry "world" (Sample.Hundredths 4)
                        [14; 15; 16]]);
             (lit "language", JString "en")] in
  outcome run = Ok profile /\
  Forall (fun e => (1 <= length (entry_codes e))%nat) (profile_words profile).
Proof.
  intros self run profile.
  assert (outcome run = Ok profile) as Hrun by reflexivity.
  split; [exact Hrun|].
  exact (proj1 (create_speaker_codes_nonempty self "hello_world.wav" None
                  "turbo" None profile Hrun)).
Defined.

(** The sample recording [pause.wav], whose second word has an empty
    span: the encoding is [[11; 12; 13]] and the codes of the two words,
    joined, are [[11; 12; 13; 1]]. *)
Lemma placeholder_breaks_reconstruction :
  let self := Sample.hf [] in
  let run := InterfaceHF.create_speaker self "pause.wav" (Some (lit "so well"))
               "turbo" None in
  let profile :=
    JObject [(lit "text", JString "so well");
             (lit "words",
              JArray [InterfaceHF.word_entry "so" (Sample.Hundredths 4)
                        [11; 12; 13];
                      InterfaceHF.word_entry "well" (Sample.Hundredths 1)
                        [1]]);
             (lit "language", JString "en")] in
  outcome run = Ok profile /\
  encode (audio_codec self) [11; 12; 13] = Ok [[[11; 12; 13]]] /\
  concat (map entry_codes (profile_words profile)) = [11; 12; 13; 1] /\
  ~ codes_reconstruct profile [11; 12; 13].
Proof.
  intros self run profile.
  split; [reflexivity|]. split; [reflexivity|]. split; [reflexivity|].
  unfold codes_reconstruct. intros Heq. discriminate Heq.
Qed.

Lemma create_speaker_codes_join_up_witness :
  let self := Sample.hf [] in
  let run := InterfaceHF.create_speaker self "hello_world.wav" None "turbo"
               None in
  let profile :=
    JObject [(lit "text", JString "hello world");
             (lit "words",
              JArray [InterfaceHF.word_entry "hello" (Sample.Hundredths 4)
                        [11; 12; 13];
                      InterfaceHF.word_entry "world" (Sample.Hundredths 4)
                        [14; 15; 16]]);
             (lit "language", JString "en")] in
  outcome run = Ok profile /\
  exists text words row,
    enrolled self "hello_world.wav" None "turbo" None profile text words row /\
    map entry_word (profile_words profile) = map (Some ∘ word_of) words /\
    map entry_codes (profile_words profile) = map fill (spans row words) /\
    (nondecreasing_from 0 (map end_of words) ->
     concat (spans row words)
     = py_slice row 0 (List.last (map end_of words) 0) /\
     (Forall (fun span => span <> []) (spans row words) ->
      Z.of_nat (length row) <= List.last (map end_of words) 0 ->
      codes_reconstruct profile row)).
Proof.
  intros self run profile.
  assert (outcome run = Ok profile) as Hrun by reflexivity.
  split; [exact Hrun|].
  exact (create_speaker_codes_join_up self "hello_world.wav" None "turbo"
           None profile Hrun).
Defined.
End SampleEnrollment.

(** ** The duration of a word *)
Section DecimalRounding.

(** The integer nearest to [q]; of two that are equally near, the even
    one. *)
Definition round_half_even (q : Q) : Z :=
  let f := Qfloor q in
  match (q - inject_Z f ?= 1 # 2)%Q with
  | Lt => f
  | Gt => f + 1
  | Eq => if Z.even f then f else f + 1
  end.

(** The decimal with [ndigits] places after the point that is nearest
    to [q]. *)
Definition decimal_round (q : Q) (ndigits : Z) : Q :=
  (inject_Z (round_half_even (q * inject_Z (10 ^ ndigits)))
   / inject_Z (10 ^ ndigits))%Q.

Lemma round_half_even_error q :
  (Qabs (inject_Z (round_half_even q) - q) <= 1 # 2)%Q.
Proof.
  unfold round_half_even.
  pose proof (Qfloor_le q) as Hlo. pose proof (Qlt_floor q) as Hhi.
  rewrite inject_Z_plus in Hhi. change (inject_Z 1) with 1%Q in Hhi.
  apply Qabs_Qle_condition.
  destruct (Qcompare_spec (q - inject_Z (Qfloor q)) (1 # 2)) as [He|Hl|Hg].
  - destruct (Z.even (Qfloor q)); rewrite ?inject_Z_plus;
      change (inject_Z 1) with 1%Q; lra.
  - lra.
  - rewrite inject_Z_plus. change (inject_Z 1) with 1%Q. lra.
Qed.

Lemma decimal_round_error q :
  (Qabs (decimal_round q 2 - q) <= 1 # 200)%Q.
Proof.
  unfold decimal_round. change (inject_Z (10 ^ 2)) with 100%Q.
  pose proof (round_half_even_error (q * 100)) as Herr.
  apply Qabs_Qle_condition in Herr. apply Qabs_Qle_condition.
  set (z := inject_Z (round_half_even (q * 100))) in *.
  assert (z / 100 == z * (1 # 100))%Q as -> by (by field).
  lra.
Qed.

(** An integer is its own rounding. *)
Lemma round_half_even_Z z : round_half_even (inject_Z z) = z.
Proof.
  unfold round_half_even. rewrite Qfloor_Z.
  assert ((inject_Z z - inject_Z z ?= 1 # 2)%Q = Lt) as ->; [|done].
  apply (proj1 (Qlt_alt _ _)). lra.
Qed.
End DecimalRounding.

(** What is assumed of Python's arithmetic on floats.  The quotient of
    two [int]s of the size of a length is a finite float, and no float is
    nearer to the exact quotient.  No float is nearer than [round(x, 2)]
    to the decimal with two places that is nearest to the finite float
    [x].  Up to [2 ^ 45] there is a float within half a hundredth of
    every number. *)
Class FloatArith `{Env} : Prop := {
  truediv_finite a b :
    0 <= a < 2 ^ 63 -> 0 < b < 2 ^ 63 ->
    float_kind_of (int_truediv a b) = FFinite;
  truediv_nearest a b y :
    0 <= a < 2 ^ 63 -> 0 < b < 2 ^ 63 -> float_kind_of y = FFinite ->
    (Qabs (float_value (int_truediv a b) - inject_Z a / inject_Z b)
     <= Qabs (float_value y - inject_Z a / inject_Z b))%Q;
  round_nearest x y :
    float_kind_of x = FFinite -> float_kind_of y = FFinite ->
    (Qabs (float_value (round_ndigits x 2) - decimal_round (float_value x) 2)
     <= Qabs (float_value y - decimal_round (float_value x) 2))%Q;
  float_near q :
    (0 <= q <= inject_Z (2 ^ 45))%Q ->
    exists y,
      float_kind_of y = FFinite /\ (Qabs (float_value y - q) <= 1 # 200)%Q
}.

Section DurationLaw.
Context `{FloatArith}.

(** [round(n / 75, 2)] is within a hundredth of the float [n / 75]. *)
Lemma duration_near_float n :
  0 <= n < 2 ^ 63 ->
  (Qabs (float_value (round_ndigits (int_truediv n 75) 2)
         - float_value (int_truediv n 75)) <= 1 # 100)%Q.
Proof.
  intros Hn. set (x := int_truediv n 75).
  assert (float_kind_of x = FFinite) as Hx by (apply truediv_finite; lia).
  pose proof (round_nearest x x Hx Hx) as Hnear.
  pose proof (decimal_round_error (float_value x)) as Hdec.
  set (d := decimal_round (float_value x) 2) in *.
  set (r := float_value (round_ndigits x 2)) in *.
  rewrite (Qabs_Qminus (float_value x) d) in Hnear.
  apply Qabs_Qle_condition in Hdec. apply Qabs_Qle_condition.
  assert (Qabs (r - d) <= 1 # 200)%Q as Hrd.
  { eapply Qle_trans; [exact Hnear|]. by apply Qabs_Qle_condition. }
  apply Qabs_Qle_condition in Hrd. lra.
Qed.

(** It is within two hundredths of the number [n / 75]. *)
Lemma duration_near_quotient n :
  0 <= n <= 75 * 2 ^ 45 ->
  (Qabs (float_value (round_ndigits (int_truediv n 75) 2) - inject_Z n / 75)
   < 2 # 100)%Q.
Proof.
  intros Hn.
  pose proof (duration_near_float n ltac:(lia)) as Hround.
  set (x := int_truediv n 75) in *.
  set (q := (inject_Z n / 75)%Q).
  assert (0 <= q <= inject_Z (2 ^ 45))%Q as Hq.
  { unfold q. assert (0 <= inject_Z n <= inject_Z (75 * 2 ^ 45))%Q as Hz.
    { split; [change 0%Q with (inject_Z 0)|]; rewrite <- Zle_Qle; lia. }
    rewrite inject_Z_mult in Hz. change (inject_Z 75) with 75%Q in Hz.
    set (a := inject_Z n) in *. set (b := inject_Z (2 ^ 45)) in *.
    assert (a / 75 == a * (1 # 75))%Q as -> by (by field). lra. }
  destruct (float_near q Hq) as (y & Hy & Hnear).
  pose proof (truediv_nearest n 75 y ltac:(lia) ltac:(lia) Hy) as Hdiv.
  change (inject_Z 75) with 75%Q in Hdiv. fold q x in Hdiv.
  assert (Qabs (float_value x - q) <= 1 # 200)%Q as Hxq
    by (eapply Qle_trans; [exact Hdiv|exact Hnear]).
  apply Qabs_Qle_condition in Hround, Hxq.
  apply Qabs_Qlt_condition. lra.
Qed.
End DurationLaw.

Section DurationClaim.
Context `{FloatArith}.

(** C7.  The duration of every word of a created profile is
    [round(len(codes) / 75, 2)].  For a list of a length that Python
    allows, the float it stands for is within a hundredth of the float
    [len(codes) / 75]; and up to a length of [75 * 2 ^ 45] it is within
    less than two hundredths of the number [len(codes) / 75]. *)
Theorem create_speaker_duration_law {Model} (self : Interface Model)
    audio_path transcript whisper_model whisper_device profile :
  outcome (InterfaceHF.create_speaker self audio_path transcript
             whisper_model whisper_device) = Ok profile ->
  Forall (fun entry =>
            let n := Z.of_nat (length (entry_codes entry)) in
            exists duration,
              entry_duration entry = Some duration /\
              duration = round_ndigits (int_truediv n 75) 2 /\
              (n < 2 ^ 63 ->
               (Qabs (float_value duration - float_value (int_truediv n 75))
                <= 1 # 100)%Q) /\
              (n <= 75 * 2 ^ 45 ->
               (Qabs (float_value duration - inject_Z n / 75) < 2 # 100)%Q))
    (profile_words profile).
Proof.
  intros Hdur%create_speaker_durations.
  eapply Forall_impl; [exact Hdur|].
  intros entry Hentry. cbn beta in Hentry. cbv zeta.
  eexists. split; [exact Hentry|]. split; [reflexivity|]. split.
  - intros Hn. apply duration_near_float. lia.
  - intros Hn. apply duration_near_quotient. lia.
Qed.
End DurationClaim.

(** ** The fixed-point stand-in satisfies what is assumed of the
    arithmetic *)
Module SampleArith.
Import Sample.

Lemma hundredths_value n : (n # 100 == inject_Z n * (1 # 100))%Q.
Proof. unfold Qeq. cbn. lia. Qed.

(** No integer is nearer to [a / b] than [round_div a b]. *)
Lemma round_div_near a b :
  0 < b ->
  (Qabs (inject_Z (round_div a b) - inject_Z a / inject_Z b) <= 1 # 2)%Q.
Proof.
  intros Hb. pose proof (SampleFacts.round_div_error a b Hb) as Herr.
  set (k := round_div a b) in *.
  assert (- b <= 2 * (a + - (b * k)) <= b) as [Hlo Hhi] by lia.
  rewrite Zle_Qle in Hlo, Hhi.
  rewrite inject_Z_mult, inject_Z_plus, !inject_Z_opp, inject_Z_mult in Hlo.
  rewrite inject_Z_mult, inject_Z_plus, inject_Z_opp, inject_Z_mult in Hhi.
  change (inject_Z 2) with 2%Q in *.
  assert (0 < inject_Z b)%Q as HB
    by (change 0%Q with (inject_Z 0); rewrite <- Zlt_Qlt; lia).
  set (A := inject_Z a) in *. set (B := inject_Z b) in *.
  set (K := inject_Z k) in *.
  assert (A / B * B == A)%Q as Hq by (field; lra).
  set (q := (A / B)%Q) in *.
  apply Qabs_Qle_condition. split; nra.
Qed.

Lemma round_half_even_comp q q' :
  (q == q')%Q -> round_half_even q = round_half_even q'.
Proof.
  intros Heq. unfold round_half_even.
  rewrite (Qfloor_comp _ _ Heq).
  assert ((q - inject_Z (Qfloor q') ?= 1 # 2)%Q
          = (q' - inject_Z (Qfloor q') ?= 1 # 2)%Q) as ->; [|done].
  apply Qcompare_comp; [by rewrite Heq|reflexivity].
Qed.

Lemma decimal_round_hundredths n :
  (decimal_round (n # 100) 2 == n # 100)%Q.
Proof.
  unfold decimal_round. change (inject_Z (10 ^ 2)) with 100%Q.
  rewrite (round_half_even_comp _ (inject_Z n)), round_half_even_Z.
  - rewrite (hundredths_value n). field.
  - rewrite (hundredths_value n). field.
Qed.

#[export] Instance float_arith : FloatArith.
Proof.
  split.
  - intros a b _ _. cbn. unfold fixed_truediv. by destruct (b <? 0).
  - intros a b [m| | |] Ha Hb Hy; try done.
    change (Qabs (fixed_value (fixed_truediv a b) - inject_Z a / inject_Z b)
            <= Qabs (fixed_value (Hundredths m) - inject_Z a / inject_Z b))%Q.
    unfold fixed_truediv. destruct (Z.ltb_spec b 0); [lia|].
    unfold fixed_value. cbn [hundredths_of].
    pose proof (round_div_near (100 * a) b ltac:(lia)) as Hnear.
    set (k := round_div (100 * a) b) in *.
    rewrite inject_Z_mult in Hnear. change (inject_Z 100) with 100%Q in Hnear.
    rewrite (hundredths_value k), (hundredths_value m).
    set (A := inject_Z a) in *. set (B := inject_Z b) in *.
    assert (0 < B)%Q as HB
      by (change 0%Q with (inject_Z 0); unfold B; rewrite <- Zlt_Qlt; lia).
    assert (100 * A / B == 100 * (A / B))%Q as Hq by (field; lra).
    rewrite Hq in Hnear. set (q := (A / B)%Q) in *.
    apply Qabs_Qle_condition in Hnear.
    pose proof (Qle_Qabs (inject_Z m * (1 # 100) - q)) as Hpos.
    pose proof (Qle_Qabs (- (inject_Z m * (1 # 100) - q))) as Hneg.
    rewrite Qabs_opp in Hneg.
    set (w := Qabs (inject_Z m * (1 # 100) - q)) in *.
    apply Qabs_Qle_condition.
    destruct (Z.lt_trichotomy m k) as [Hlt|[->|Hgt]].
    + assert (inject_Z m + 1 <= inject_Z k)%Q as Hm.
      { change 1%Q with (inject_Z 1). rewrite <- inject_Z_plus, <- Zle_Qle.
        lia. }
      lra.
    + lra.
    + assert (inject_Z k + 1 <= inject_Z m)%Q as Hm.
      { change 1%Q with (inject_Z 1). rewrite <- inject_Z_plus, <- Zle_Qle.
        lia. }
      lra.
  - intros [n| | |] y Hx Hy; try done.
    change (Qabs (fixed_value (Hundredths n)
                  - decimal_round (fixed_value (Hundredths n)) 2)
            <= Qabs (fixed_value y
                     - decimal_round (fixed_value (Hundredths n)) 2))%Q.
    unfold fixed_value at 1 2 4. cbn [hundredths_of].
    rewrite decimal_round_hundredths.
    assert (Qabs ((n # 100) - (n # 100)) == 0)%Q as ->.
    { assert ((n # 100) - (n # 100) == 0)%Q as -> by ring. reflexivity. }
    apply Qabs_nonneg.
  - intros q Hq. exists (Hundredths (Qfloor (q * 100 + (1 # 2)))).
    split; [done|].
    change (Qabs (fixed_value (Hundredths (Qfloor (q * 100 + (1 # 2)))) - q)
            <= 1 # 200)%Q.
    unfold fixed_value. cbn [hundredths_of].
    pose proof (Qfloor_le (q * 100 + (1 # 2))) as Hlo.
    pose proof (Qlt_floor (q * 100 + (1 # 2))) as Hhi.
    rewrite inject_Z_plus in Hhi. change (inject_Z 1) with 1%Q in Hhi.
    rewrite (hundredths_value (Qfloor (q * 100 + (1 # 2)))).
    set (M := inject_Z (Qfloor (q * 100 + (1 # 2)))) in *.
    apply Qabs_Qle_condition. lra.
Qed.
End SampleArith.

Section SampleDurationLaw.
#[local] Existing Instance Sample.env.
#[local] Existing Instance SampleArith.float_arith.

(** The sample recording whose second word has no tokens of its own:
    three codes give four hundredths of a second, the placeholder
    one. *)
Lemma create_speaker_duration_law_witness :
  let self := Sample.hf [] in
  let profile :=
    JObject [(lit "text", JString "so well");
             (lit "words",
              JArray [InterfaceHF.word_entry "so" (Sample.Hundredths 4)
                        [11; 12; 13];
                      InterfaceHF.word_entry "well" (Sample.Hundredths 1)
                        [1]]);
             (lit "language", JString "en")] in
  outcome (InterfaceHF.create_speaker self "pause.wav" (Some (lit "so well"))
             "turbo" None) = Ok profile /\
  Forall (fun entry =>
            let n := Z.of_nat (length (entry_codes entry)) in
            exists duration,
              entry_duration entry = Some duration /\
              duration = round_ndigits (int_truediv n 75) 2 /\
              (n < 2 ^ 63 ->
               (Qabs (float_value duration - float_value (int_truediv n 75))
                <= 1 # 100)%Q) /\
              (n <= 75 * 2 ^ 45 ->
               (Qabs (float_value duration - inject_Z n / 75) < 2 # 100)%Q))
    (profile_words profile).
Proof.
  intros self profile.
  assert (outcome (InterfaceHF.create_speaker self "pause.wav"
                     (Some (lit "so well")) "turbo" None) = Ok profile)
    as Hrun by reflexivity.
  split; [exact Hrun|].
  exact (create_speaker_duration_law self "pause.wav" (Some (lit "so well"))
           "turbo" None profile Hrun).
Defined.
End SampleDurationLaw.

(** ** Saving and loading a speaker profile *)
Section Persistence.
Context `{FloatLaws}.

Lemma open_read_set_file fs path content :
  open_read (set_file fs path content) path = Ok content.
Proof. unfold open_read, set_file. cbn. by rewrite lookup_insert_eq. Qed.

(** A write that returns has left the text in the file of the path. *)
Lemma write_file_Ok fs path content fs' :
  write_file fs path content = (fs', Ok tt) ->
  fs' = set_file fs path content /\ open_read fs' path = Ok content.
Proof.
  unfold write_file. destruct (failure fs path content) as [[e|e written]|];
    [done..|].
  intros [= <-]. split; [done|apply open_read_set_file].
Qed.

(** The first line of a saved [dict] with at least one key: the brace
    alone, then the first key on a line of its own behind two blanks. *)
Lemma json_dumps_indented kv fields :
  exists tail,
    json_dumps (JObject (kv :: fields)) 2
    = ord "{" :: LF :: ord " " :: ord " " :: dquote :: tail.
Proof.
  unfold json_dumps.
  destruct kv as [k v]. rewrite render_object_cons, encode_key.
  cbn [newline_indent Nat.mul Nat.add repeat app]. by eexists.
Qed.

(** C9, amended.  A profile in which no string has a high surrogate
    directly before a low one, saved with [save_speaker] and loaded from
    the same path with [load_speaker], comes back as it was, whatever the
    language of its text, and the file holds the profile as JSON written
    with an indentation of two.  The profile is a Python value: each
    [dict] has each key once and the strings hold code points. *)
Theorem save_then_load_speaker {Model} (self : Interface Model)
    (speaker : json) path fs fs' :
  wf_json speaker -> all_strings well_formed speaker ->
  InterfaceHF.save_speaker self speaker path fs = (fs', Ok tt) ->
  InterfaceHF.load_speaker self path fs' = Ok speaker /\
  open_read fs' path = Ok (json_dumps speaker 2) /\
  (forall kv fields,
     speaker = JObject (kv :: fields) ->
     exists tail,
       json_dumps speaker 2
       = ord "{" :: LF :: ord " " :: ord " " :: dquote :: tail).
Proof.
  intros Hwf Hstr [_ Hfile]%write_file_Ok.
  split; [|split; [done|]].
  - unfold InterfaceHF.load_speaker. rewrite Hfile.
    cbn [mbind result_bind]. by apply json_loads_dumps.
  - intros kv fields ->. apply json_dumps_indented.
Qed.
End Persistence.

Section SamplePersistence.
#[local] Existing Instance Sample.env.
#[local] Existing Instance SampleFacts.float_laws.

Lemma ja_profile_wf : wf_json Sample.ja_profile.
Proof.
  cbn. repeat split; by apply (bool_decide_unpack _).
Qed.

Lemma ja_profile_text : all_strings well_formed Sample.ja_profile.
Proof. cbn. unfold well_formed, is_str. repeat split. Qed.

(** A profile whose text is the two surrogates U+D83D and U+DE00: they
    are written as two escapes, which are read as the one character
    U+1F600, so that what is loaded is another profile. *)
Lemma paired_surrogates_come_back_joined :
  let self := Sample.hf [] in
  let profile (text : str) :=
    JObject [(lit "text", JString text); (lit "words", JArray []);
             (lit "language", JString "en")] in
  let path := "/home/user/speaker.json" in
  let saved := set_file Sample.fs path (json_dumps (profile [0xD83D; 0xDE00]) 2)
  in
  wf_json (profile [0xD83D; 0xDE00]) /\
  all_strings is_str (profile [0xD83D; 0xDE00]) /\
  InterfaceHF.save_speaker self (profile [0xD83D; 0xDE00]) path Sample.fs
  = (saved, Ok tt) /\
  InterfaceHF.load_speaker self path saved = Ok (profile [0x1F600]) /\
  InterfaceHF.load_speaker self path saved <> Ok (profile [0xD83D; 0xDE00]).
Proof.
  intros self profile path saved.
  assert (InterfaceHF.load_speaker self path saved = Ok (profile [0x1F600]))
    as Hload by reflexivity.
  split; [cbn; repeat split; by apply (bool_decide_unpack _)|].
  split; [cbn; unfold is_str; by repeat split|].
  split; [reflexivity|]. split; [exact Hload|].
  rewrite Hload. intros Heq. discriminate Heq.
Qed.

(** The sample profile, with its Japanese text, saved over the sample
    file system and loaded. *)
Lemma save_then_load_speaker_witness :
  let self := Sample.hf [] in
  let path := "/home/user/speaker.json" in
  let saved := set_file Sample.fs path (json_dumps Sample.ja_profile 2) in
  wf_json Sample.ja_profile /\
  all_strings well_formed Sample.ja_profile /\
  InterfaceHF.save_speaker self Sample.ja_profile path Sample.fs
  = (saved, Ok tt) /\
  InterfaceHF.load_speaker self path saved = Ok Sample.ja_profile.
Proof.
  intros self path saved.
  assert (InterfaceHF.save_speaker self Sample.ja_profile path Sample.fs
          = (saved, Ok tt)) as Hsave by reflexivity.
  split; [exact ja_profile_wf|]. split; [exact ja_profile_text|].
  split; [exact Hsave|].
  exact (proj1 (save_then_load_speaker self Sample.ja_profile path Sample.fs
                  saved ja_profile_wf ja_profile_text Hsave)).
Defined.
End SamplePersistence.
(** ** Traces of the generation entry points *)
Section TraceTools.
Context `{Env}.

Lemma model_calls_app t1 t2 :
  model_calls (t1 ++ t2) = model_calls t1 ++ model_calls t2.
Proof. apply filter_app. Qed.

Lemma trace_bind {A B} (m : M A) (k : A -> M B) :
  trace (m ≫= k)
  = trace m ++ match outcome m with
               | Ok a => trace (k a)
               | Raise _ => []
               end.
Proof.
  destruct m as [t [a|e]]; run_m; [|by rewrite app_nil_r].
  by destruct (k a).
Qed.

Lemma outcome_bind {A B} (m : M A) (k : A -> M B) :
  outcome (m ≫= k)
  = match outcome m with
    | Ok a => outcome (k a)
    | Raise e => Raise e
    end.
Proof. destruct m as [t [a|e]]; run_m; [|done]. by destruct (k a). Qed.

Lemma bind_Ok {A B} (t : list event) (a : A) (f : A -> M B) :
  ((t, Ok a) : M A) ≫= f = (t ++ trace (f a), outcome (f a)).
Proof. run_m. by destruct (f a). Qed.

Lemma bind_Raise {A B} (t : list event) e (f : A -> M B) :
  ((t, Raise e) : M A) ≫= f = (t, Raise e).
Proof. done. Qed.

(** A property of events holds along a sequence of two steps when it
    holds along each. *)
Lemma Forall_trace_bind (P : event -> Prop) {A B} (m : M A) (k : A -> M B) :
  Forall P (trace m) -> (forall a, Forall P (trace (k a))) ->
  Forall P (trace (m ≫= k)).
Proof.
  intros Hm Hk. rewrite trace_bind. apply Forall_app. split; [done|].
  destruct (outcome m); [apply Hk|constructor].
Qed.

Lemma Forall_trace_try (P : event -> Prop) {A} (m : M A) (h : exn -> M A) :
  Forall P (trace m) -> (forall e, Forall P (trace (h e))) ->
  Forall P (trace (try_except m h)).
Proof.
  intros Hm Hh. destruct m as [t [a|e]]; run_m; [done|].
  specialize (Hh e). destruct (h e) as [t' r]. apply Forall_app. by split.
Qed.

Lemma Forall_trace_when (P : event -> Prop) b (m : M unit) :
  Forall P (trace m) -> Forall P (trace (when b m)).
Proof. destruct b; [done|constructor]. Qed.
End TraceTools.

(** What the decoding of a buffer and the streaming loop may leave in a
    trace. *)
Record audio_events `{Env} {Model} (self : Interface Model)
    (P : event -> Prop) : Prop := {
  audio_log : forall lv msg, P (Log lv msg);
  audio_extract : forall tokens, P (CallExtractAudio tokens);
  audio_decode : forall codes, codes <> [] -> P (CallDecode codes);
  audio_yield :
    forall a, P (Yield (mkModelOutput a (codec_sr (audio_codec self))))
}.

Section AudioTraces.
Context `{Env}.

Lemma get_audio_Forall {Model} (self : Interface Model) P tokens :
  audio_events self P -> Forall P (trace (InterfaceHF.get_audio self tokens)).
Proof.
  intros [Hlog Hext Hdec _]. unfold InterfaceHF.get_audio. run_m.
  destruct (extract_audio_from_tokens _ _) as [[|c codes]|e]; run_m.
  - repeat constructor; [apply Hext|apply Hlog].
  - destruct (decode _ _); run_m; repeat constructor;
      (apply Hext || by apply Hdec).
  - repeat constructor. apply Hext.
Qed.

Lemma stream_step_Forall (self : InterfaceGGUF.t) P chunk_size buf tok :
  audio_events self P ->
  Forall P (trace (InterfaceGGUF.stream_step self chunk_size buf tok)).
Proof.
  intros HP. unfold InterfaceGGUF.stream_step.
  destruct (chunk_size =? 0); [constructor|].
  destruct (_ mod _ =? 0); [|constructor].
  apply Forall_trace_try.
  - apply Forall_trace_bind; [by apply get_audio_Forall|].
    intros a. repeat constructor. apply (audio_yield _ _ HP).
  - intros e. apply Forall_trace_bind; [|constructor].
    apply Forall_trace_when. repeat constructor. apply (audio_log _ _ HP).
Qed.

Lemma stream_loop_Forall (self : InterfaceGGUF.t) P chunk_size tokens :
  audio_events self P -> forall buf,
  Forall P (trace (InterfaceGGUF.stream_loop self chunk_size tokens buf)).
Proof.
  intros HP. induction tokens as [|tok rest IH]; intros buf; [constructor|].
  cbn [InterfaceGGUF.stream_loop].
  apply Forall_trace_bind; [by apply stream_step_Forall|done].
Qed.
End AudioTraces.
(** What a whole run of [generate] or [generate_stream] may leave in its
    trace. *)
Record run_events `{Env} {Model} (self : Interface Model)
    (P : event -> Prop) : Prop := {
  run_audio : audio_events self P;
  run_prompt : forall text lang speaker,
    P (CallCompletionPrompt text lang speaker);
  run_encode : forall prompt, P (CallTokenizerEncode prompt);
  run_generate : forall input cfg dyn, P (CallModelGenerate input cfg dyn);
  run_stream : forall input cfg, P (CallModelGenerateStream input cfg)
}.

Section RunTraces.
Context `{Env}.

Lemma check_generation_max_length_trace {Model} (self : Interface Model) ml :
  trace (InterfaceHF.check_generation_max_length self ml) = [].
Proof.
  destruct ml as [n|]; [|done]. cbn.
  by destruct (max_seq_length (config self) <? n).
Qed.

Ltac leaf HP :=
  first
    [ rewrite check_generation_max_length_trace; constructor
    | by apply get_audio_Forall, (run_audio _ _ HP)
    | by apply stream_loop_Forall, (run_audio _ _ HP)
    | apply Forall_trace_when
    | apply Forall_nil_2
    | apply Forall_cons_2;
      [first [ apply (audio_log _ _ (run_audio _ _ HP))
             | apply (audio_yield _ _ (run_audio _ _ HP))
             | apply (run_prompt _ _ HP)
             | apply (run_encode _ _ HP)
             | apply (run_generate _ _ HP)
             | apply (run_stream _ _ HP) ]|] ].

Ltac walk HP :=
  repeat first [ leaf HP | apply Forall_trace_bind; [|intros ?] ].

Lemma generate_HF_Forall (self : InterfaceHF.t) P text speaker temp rp ml
    extra :
  run_events self P ->
  Forall P (trace (InterfaceHF.generate self text speaker temp rp ml extra)).
Proof.
  intros HP. unfold InterfaceHF.generate, InterfaceHF.prepare_prompt.
  walk HP.
Qed.

Lemma generate_GGUF_Forall (self : InterfaceGGUF.t) P text speaker temp rp ml
    extra :
  run_events self P ->
  Forall P (trace (InterfaceGGUF.generate self text speaker temp rp ml extra)).
Proof.
  intros HP. unfold InterfaceGGUF.generate, InterfaceGGUF.prepare_prompt.
  walk HP.
Qed.

Lemma generate_EXL2_Forall (self : InterfaceEXL2.t) P text speaker temp rp ml
    extra dyn :
  run_events self P ->
  Forall P
    (trace (InterfaceEXL2.generate self text speaker temp rp ml extra dyn)).
Proof.
  intros HP. unfold InterfaceEXL2.generate, InterfaceEXL2.prepare_prompt.
  walk HP.
Qed.

Lemma generate_stream_Forall (self : InterfaceGGUF.t) P text speaker temp rp ml
    chunk_size extra :
  run_events self P ->
  Forall P
    (trace (InterfaceGGUF.generate_stream self text speaker temp rp ml
              chunk_size extra)).
Proof.
  intros HP.
  unfold InterfaceGGUF.generate_stream, InterfaceGGUF.prepare_prompt.
  walk HP.
  destruct (gguf_generate_stream _ _ _) as [tokens failure].
  walk HP.
  - destruct failure; constructor.
  - match goal with |- context [match ?b with [] => _ | _ => _ end] =>
      destruct b end; walk HP.
Qed.
End RunTraces.

Section RunInvariants.
Context `{Env}.

Lemma yields_Forall (Q : ModelOutput -> Prop) t :
  Forall (fun ev => forall out, ev = Yield out -> Q out) t ->
  Forall Q (yields t).
Proof.
  induction 1 as [|ev t Hev _ IH]; [constructor|].
  destruct ev; cbn; try exact IH. constructor; [by apply Hev|exact IH].
Qed.

Lemma decode_some_codes {Model} (self : Interface Model) :
  run_events self (fun ev => ev <> CallDecode []).
Proof. repeat split; intros; try discriminate. by intros [= ->]. Qed.

(** The sample rate and the playback flag of an output that the
    interface [self] builds. *)
Definition built_by {Model} (self : Interface Model) (out : ModelOutput)
    : Prop :=
  sr out = codec_sr (audio_codec self) /\
  enable_playback out = ENABLE_PLAYBACK.

Lemma yield_built_by {Model} (self : Interface Model) :
  run_events self (fun ev => forall out, ev = Yield out -> built_by self out).
Proof. repeat split; intros; try discriminate; by simplify_eq. Qed.

Ltac outcome_cases Hrun :=
  rewrite ?outcome_bind in Hrun;
  repeat (match type of Hrun with
          | context [match outcome ?m with _ => _ end] =>
              destruct (outcome m); [|discriminate Hrun]
          end; rewrite ?outcome_bind in Hrun).

Lemma generate_HF_output (self : InterfaceHF.t) text speaker temp rp ml extra
    out :
  outcome (InterfaceHF.generate self text speaker temp rp ml extra) = Ok out ->
  built_by self out.
Proof.
  unfold InterfaceHF.generate. intros Hrun. outcome_cases Hrun.
  by injection Hrun as <-.
Qed.

Lemma generate_GGUF_output (self : InterfaceGGUF.t) text speaker temp rp ml
    extra out :
  outcome (InterfaceGGUF.generate self text speaker temp rp ml extra) = Ok out ->
  built_by self out.
Proof.
  unfold InterfaceGGUF.generate. intros Hrun. outcome_cases Hrun.
  by injection Hrun as <-.
Qed.

Lemma generate_EXL2_output (self : InterfaceEXL2.t) text speaker temp rp ml
    extra dyn out :
  outcome (InterfaceEXL2.generate self text speaker temp rp ml extra dyn)
  = Ok out ->
  built_by self out.
Proof.
  unfold InterfaceEXL2.generate. intros Hrun. outcome_cases Hrun.
  by injection Hrun as <-.
Qed.

(** X1.  Whatever the collaborators return, no run of [generate] on any
    of the three interfaces, and no run of [generate_stream], asks the
    codec to decode an empty list of codes. *)
Theorem decode_never_given_no_codes text speaker temp rp ml extra :
  (forall self : InterfaceHF.t,
     CallDecode [] ∉
       trace (InterfaceHF.generate self text speaker temp rp ml extra)) /\
  (forall self : InterfaceGGUF.t,
     CallDecode [] ∉
       trace (InterfaceGGUF.generate self text speaker temp rp ml extra)) /\
  (forall (self : InterfaceEXL2.t) dyn,
     CallDecode [] ∉
       trace (InterfaceEXL2.generate self text speaker temp rp ml extra dyn)) /\
  (forall (self : InterfaceGGUF.t) chunk_size,
     CallDecode [] ∉
       trace (InterfaceGGUF.generate_stream self text speaker temp rp ml
                chunk_size extra)).
Proof.
  assert (forall t : list event,
            Forall (fun ev => ev <> CallDecode []) t -> CallDecode [] ∉ t)
    as Hno.
  { intros t Ht Hin. by apply (proj1 (Forall_forall _ _) Ht _ Hin). }
  split; [|split; [|split]]; intros; apply Hno.
  - apply generate_HF_Forall, decode_some_codes.
  - apply generate_GGUF_Forall, decode_some_codes.
  - apply generate_EXL2_Forall, decode_some_codes.
  - apply generate_stream_Forall, decode_some_codes.
Qed.

(** X2.  Every [ModelOutput] that [generate] returns, on any of the
    three interfaces, and every one that [generate_stream] yields, has
    the sample rate of the interface's codec and the playback flag that
    the module fixed when it was imported. *)
Theorem outputs_have_codec_rate text speaker temp rp ml extra :
  (forall (self : InterfaceHF.t) out,
     outcome (InterfaceHF.generate self text speaker temp rp ml extra)
     = Ok out -> built_by self out) /\
  (forall (self : InterfaceGGUF.t) out,
     outcome (InterfaceGGUF.generate self text speaker temp rp ml extra)
     = Ok out -> built_by self out) /\
  (forall (self : InterfaceEXL2.t) dyn out,
     outcome (InterfaceEXL2.generate self text speaker temp rp ml extra dyn)
     = Ok out -> built_by self out) /\
  (forall (self : InterfaceGGUF.t) chunk_size,
     Forall (built_by self)
       (yields (trace (InterfaceGGUF.generate_stream self text speaker temp rp
                         ml chunk_size extra)))).
Proof.
  split; [|split; [|split]].
  - intros self out. apply generate_HF_output.
  - intros self out. apply generate_GGUF_output.
  - intros self dyn out. apply generate_EXL2_output.
  - intros self chunk_size.
    apply yields_Forall, generate_stream_Forall, yield_built_by.
Qed.
End RunInvariants.

(** ** A call of [generate] within the length limit *)
Section WithinLimit.
Context `{Env}.

Lemma model_calls_none t :
  Forall (fun ev => is_model_call ev = false) t -> model_calls t = [].
Proof.
  induction 1 as [|ev t Hev _ IH]; [done|].
  unfold model_calls in *. rewrite filter_cons, IH.
  destruct (decide _) as [Hc|]; [congruence|done].
Qed.

Lemma model_calls_filter t : model_calls t = List.filter is_model_call t.
Proof.
  induction t as [|ev t IH]; [done|].
  unfold model_calls in *. rewrite filter_cons, IH. cbn.
  by destruct (is_model_call ev), (decide _).
Qed.

Lemma not_model_call {Model} (self : Interface Model) :
  audio_events self (fun ev => is_model_call ev = false).
Proof. by split. Qed.

Lemma get_audio_model_calls {Model} (self : Interface Model) tokens :
  model_calls (trace (InterfaceHF.get_audio self tokens)) = [].
Proof. apply model_calls_none, get_audio_Forall, not_model_call. Qed.

Lemma stream_loop_model_calls (self : InterfaceGGUF.t) chunk_size tokens buf :
  model_calls (trace (InterfaceGGUF.stream_loop self chunk_size tokens buf))
  = [].
Proof. apply model_calls_none, stream_loop_Forall, not_model_call. Qed.

(** What a call within the limit comes to, once the prompt is prepared:
    the backend's output, cut by [suffix], goes through [get_audio], and
    the audio is wrapped up. *)
Definition decoded_output {Model} (self : Interface Model)
    (backend : result (list Z)) (suffix : list Z -> list Z)
    : result ModelOutput :=
  output ← backend;
  audio ← outcome (InterfaceHF.get_audio self (suffix output));
  Ok (mkModelOutput audio (codec_sr (audio_codec self))).

Definition extracted_from (backend : result (list Z))
    (suffix : list Z -> list Z) : list (list Z) :=
  match backend with
  | Ok output => [suffix output]
  | Raise _ => []
  end.

Ltac sum_up :=
  rewrite ?model_calls_filter in *; unfold decoded_buffers in *;
  cbn -[str_of_int String.append];
  rewrite ?List.filter_app, ?omap_app.

Ltac finish_within self tokens :=
  pose proof (get_audio_model_calls self tokens) as Hcalls;
  pose proof (proj2 (get_audio_trace self tokens)) as Hbufs;
  destruct (InterfaceHF.get_audio self tokens) as [t [a|e]];
  cbn [trace outcome fst snd] in Hcalls, Hbufs |- *;
  destruct (verbose self); run_m; sum_up; by rewrite ?Hcalls, ?Hbufs.

Lemma generate_HF_within (self : InterfaceHF.t) text speaker temp rp n
    extra ids :
  outcome (InterfaceHF.prepare_prompt self text speaker) = Ok ids ->
  n <= max_seq_length (config self) ->
  let cfg := {| temperature := temp; repetition_penalty := rp;
                max_length := Some n; additional_gen_config := extra |} in
  let run := InterfaceHF.generate self text speaker temp rp (Some n) extra in
  model_calls (trace run) = [CallModelGenerate (InputIds ids) cfg None] /\
  decoded_buffers (trace run)
  = extracted_from (hf_generate (model self) ids cfg) (drop (length ids)) /\
  outcome run
  = decoded_output self (hf_generate (model self) ids cfg) (drop (length ids)).
Proof.
  unfold InterfaceHF.generate, InterfaceHF.prepare_prompt, decoded_output,
    extracted_from.
  run_m.
  destruct (get_completion_prompt _ _ _ _) as [prompt|e1]; run_m; [|done].
  destruct (tokenizer_encode _ _) as [ids'|e2]; run_m; [|done].
  intros [= ->] Hn. rewrite (check_generation_max_length_ok self n Hn).
  destruct (hf_generate _ _ _) as [output|e]; run_m;
    cbn [mbind result_bind].
  - finish_within self (drop (length ids) output).
  - destruct (verbose self); run_m; by sum_up.
Qed.

Lemma generate_GGUF_within (self : InterfaceGGUF.t) text speaker temp rp n
    extra ids :
  outcome (InterfaceGGUF.prepare_prompt self text speaker) = Ok ids ->
  n <= max_seq_length (config self) ->
  let cfg := {| temperature := temp; repetition_penalty := rp;
                max_length := Some n; additional_gen_config := extra |} in
  let run := InterfaceGGUF.generate self text speaker temp rp (Some n) extra in
  model_calls (trace run) = [CallModelGenerate (InputIds ids) cfg None] /\
  decoded_buffers (trace run)
  = extracted_from (gguf_generate (model self) ids cfg) id /\
  outcome run = decoded_output self (gguf_generate (model self) ids cfg) id.
Proof.
  unfold InterfaceGGUF.generate, InterfaceGGUF.prepare_prompt, decoded_output,
    extracted_from.
  run_m.
  destruct (get_completion_prompt _ _ _ _) as [prompt|e1]; run_m; [|done].
  destruct (tokenizer_encode _ _) as [ids'|e2]; run_m; [|done].
  intros [= ->] Hn. rewrite (check_generation_max_length_ok self n Hn).
  destruct (gguf_generate _ _ _) as [output|e]; run_m;
    cbn [mbind result_bind id].
  - finish_within self output.
  - destruct (verbose self); run_m; by sum_up.
Qed.

Lemma generate_EXL2_within (self : InterfaceEXL2.t) text speaker temp rp n
    extra dyn prompt :
  outcome (InterfaceEXL2.prepare_prompt self text speaker) = Ok prompt ->
  n <= max_seq_length (config self) ->
  let cfg := {| temperature := temp; repetition_penalty := rp;
                max_length := Some n; additional_gen_config := extra |} in
  let run := InterfaceEXL2.generate self text speaker temp rp (Some n) extra
               dyn in
  model_calls (trace run)
  = [CallModelGenerate (InputText prompt) cfg (Some dyn)] /\
  decoded_buffers (trace run)
  = extracted_from (exl2_generate (model self) prompt cfg dyn) id /\
  outcome run
  = decoded_output self (exl2_generate (model self) prompt cfg dyn) id.
Proof.
  unfold InterfaceEXL2.generate, InterfaceEXL2.prepare_prompt, decoded_output,
    extracted_from.
  run_m.
  destruct (get_completion_prompt _ _ _ _) as [prompt'|e1]; run_m; [|done].
  intros [= ->] Hn. rewrite (check_generation_max_length_ok self n Hn).
  destruct (exl2_generate _ _ _ _) as [output|e]; run_m;
    cbn [mbind result_bind id].
  - finish_within self output.
  - destruct (verbose self); run_m; by sum_up.
Qed.

Lemma generate_stream_calls_model (self : InterfaceGGUF.t) text speaker temp
    rp n chunk_size extra ids :
  outcome (InterfaceGGUF.prepare_prompt self text speaker) = Ok ids ->
  n <= max_seq_length (config self) ->
  model_calls
    (trace (InterfaceGGUF.generate_stream self text speaker temp rp (Some n)
              chunk_size extra))
  = [CallModelGenerateStream (InputIds ids)
       {| temperature := temp; repetition_penalty := rp;
          max_length := Some n; additional_gen_config := extra |}].
Proof.
  unfold InterfaceGGUF.generate_stream, InterfaceGGUF.prepare_prompt. run_m.
  destruct (get_completion_prompt _ _ _ _) as [prompt|e1]; run_m; [|done].
  destruct (tokenizer_encode _ _) as [ids'|e2]; run_m; [|done].
  intros [= ->] Hn. rewrite (check_generation_max_length_ok self n Hn).
  destruct (gguf_generate_stream _ _ _) as [tokens failure].
  pose proof (stream_loop_model_calls self chunk_size tokens []) as Hloop.
  destruct (InterfaceGGUF.stream_loop self chunk_size tokens [])
    as [t [buf|e]]; cbn [trace fst] in Hloop; run_m.
  - destruct failure as [e|]; run_m.
    { destruct (verbose self); run_m;
        sum_up; by rewrite ?Hloop. }
    destruct buf as [|tok buf]; run_m.
    { destruct (verbose self); run_m;
        sum_up; by rewrite ?Hloop. }
    pose proof (get_audio_model_calls self (tok :: buf)) as Hcalls.
    destruct (InterfaceHF.get_audio self (tok :: buf)) as [t' [a|e]];
      cbn [trace fst] in Hcalls; destruct (verbose self); run_m;
      sum_up; by rewrite ?Hloop, ?Hcalls.
  - destruct (verbose self); run_m;
      sum_up; by rewrite ?Hloop.
Qed.
End WithinLimit.

Section WithinLimitTheorems.
Context `{Env}.

(** X3.  When [max_length] is a number that does not exceed
    [config.max_seq_length] (equality included, and no lower bound is
    tested) and the prompt has been prepared, the backend is called
    exactly once, with the prepared prompt and with a configuration that
    carries the four arguments as given: on [generate] of the three
    interfaces and on [generate_stream]. *)
Theorem generate_within_limit_calls_model_once n text speaker temp rp extra :
  let cfg := {| temperature := temp; repetition_penalty := rp;
                max_length := Some n; additional_gen_config := extra |} in
  (forall (self : InterfaceHF.t) ids,
     outcome (InterfaceHF.prepare_prompt self text speaker) = Ok ids ->
     n <= max_seq_length (config self) ->
     model_calls
       (trace (InterfaceHF.generate self text speaker temp rp (Some n) extra))
     = [CallModelGenerate (InputIds ids) cfg None]) /\
  (forall (self : InterfaceGGUF.t) ids,
     outcome (InterfaceGGUF.prepare_prompt self text speaker) = Ok ids ->
     n <= max_seq_length (config self) ->
     model_calls
       (trace (InterfaceGGUF.generate self text speaker temp rp (Some n)
                 extra))
     = [CallModelGenerate (InputIds ids) cfg None]) /\
  (forall (self : InterfaceEXL2.t) dyn prompt,
     outcome (InterfaceEXL2.prepare_prompt self text speaker) = Ok prompt ->
     n <= max_seq_length (config self) ->
     model_calls
       (trace (InterfaceEXL2.generate self text speaker temp rp (Some n)
                 extra dyn))
     = [CallModelGenerate (InputText prompt) cfg (Some dyn)]) /\
  (forall (self : InterfaceGGUF.t) chunk_size ids,
     outcome (InterfaceGGUF.prepare_prompt self text speaker) = Ok ids ->
     n <= max_seq_length (config self) ->
     model_calls
       (trace (InterfaceGGUF.generate_stream self text speaker temp rp
                 (Some n) chunk_size extra))
     = [CallModelGenerateStream (InputIds ids) cfg]).
Proof.
  intros cfg. split; [|split; [|split]].
  - intros self ids Hprep Hn.
    apply (generate_HF_within self text speaker temp rp n extra ids Hprep Hn).
  - intros self ids Hprep Hn.
    apply (generate_GGUF_within self text speaker temp rp n extra ids Hprep
             Hn).
  - intros self dyn prompt Hprep Hn.
    apply (generate_EXL2_within self text speaker temp rp n extra dyn prompt
             Hprep Hn).
  - intros self chunk_size ids Hprep Hn.
    by apply generate_stream_calls_model.
Qed.

(** X4.  Within the limit and with the prompt prepared, [generate]
    returns the decoding of what the backend produced, wrapped with the
    codec's sample rate, and raises what the backend, the extraction or
    the decoding raises: nothing is caught.  [InterfaceHF] hands to the
    extraction only what follows the first [len(input_ids)] tokens of the
    backend's output; the other two hand over the whole output.  When the
    backend raises, nothing is extracted or decoded. *)
Theorem generate_decodes_backend_output n text speaker temp rp extra :
  let cfg := {| temperature := temp; repetition_penalty := rp;
                max_length := Some n; additional_gen_config := extra |} in
  (forall (self : InterfaceHF.t) ids,
     outcome (InterfaceHF.prepare_prompt self text speaker) = Ok ids ->
     n <= max_seq_length (config self) ->
     let run := InterfaceHF.generate self text speaker temp rp (Some n)
                  extra in
     let backend := hf_generate (model self) ids cfg in
     decoded_buffers (trace run) = extracted_from backend (drop (length ids)) /\
     outcome run = decoded_output self backend (drop (length ids))) /\
  (forall (self : InterfaceGGUF.t) ids,
     outcome (InterfaceGGUF.prepare_prompt self text speaker) = Ok ids ->
     n <= max_seq_length (config self) ->
     let run := InterfaceGGUF.generate self text speaker temp rp (Some n)
                  extra in
     let backend := gguf_generate (model self) ids cfg in
     decoded_buffers (trace run) = extracted_from backend id /\
     outcome run = decoded_output self backend id) /\
  (forall (self : InterfaceEXL2.t) dyn prompt,
     outcome (InterfaceEXL2.prepare_prompt self text speaker) = Ok prompt ->
     n <= max_seq_length (config self) ->
     let run := InterfaceEXL2.generate self text speaker temp rp (Some n)
                  extra dyn in
     let backend := exl2_generate (model self) prompt cfg dyn in
     decoded_buffers (trace run) = extracted_from backend id /\
     outcome run = decoded_output self backend id).
Proof.
  intros cfg. split; [|split].
  - intros self ids Hprep Hn.
    apply (generate_HF_within self text speaker temp rp n extra ids Hprep Hn).
  - intros self ids Hprep Hn.
    apply (generate_GGUF_within self text speaker temp rp n extra ids Hprep
             Hn).
  - intros self dyn prompt Hprep Hn.
    apply (generate_EXL2_within self text speaker temp rp n extra dyn prompt
             Hprep Hn).
Qed.
End WithinLimitTheorems.

(** ** What [verbose] changes *)
Section Verbose.
Context `{Env}.

(** [self.verbose = v] *)
Definition set_verbose {Model} (self : Interface Model) (v : bool)
    : Interface Model :=
  {| config := config self;
     languages := languages self;
     language := language self;
     verbose := v;
     audio_codec := audio_codec self;
     prompt_processor := prompt_processor self;
     model := model self |}.

Definition is_log (ev : event) : bool :=
  match ev with Log _ _ => true | _ => false end.

(** A run without its log lines: the calls into the collaborators and
    the yields, in order, and how the run ended. *)
Definition observable {A} (m : M A) : list event * result A :=
  (List.filter (fun ev => negb (is_log ev)) (trace m), outcome m).

Lemma observable_bind {A B} (m m' : M A) (k k' : A -> M B) :
  observable m = observable m' ->
  (forall a, observable (k a) = observable (k' a)) ->
  observable (m ≫= k) = observable (m' ≫= k').
Proof.
  unfold observable. rewrite !trace_bind, !outcome_bind, !List.filter_app.
  intros [= Ht ->] Hk. rewrite Ht.
  destruct (outcome m') as [a|e]; [|done].
  specialize (Hk a). by injection Hk as -> ->.
Qed.

Lemma observable_try {A} (m m' : M A) (h h' : exn -> M A) :
  observable m = observable m' ->
  (forall e, observable (h e) = observable (h' e)) ->
  observable (try_except m h) = observable (try_except m' h').
Proof.
  unfold observable. destruct m as [t [a|e]], m' as [t' [a'|e']]; cbn;
    intros [= Ht]; intros Hh; simplify_eq; [by rewrite Ht|].
  specialize (Hh e'). destruct (h e') as [t1 r1], (h' e') as [t1' r1'].
  cbn in *. rewrite !List.filter_app, Ht. by injection Hh as -> ->.
Qed.

Lemma observable_when_log b b' (m m' : M unit) :
  observable m = ([], Ok tt) -> observable m' = ([], Ok tt) ->
  observable (when b m) = observable (when b' m').
Proof. intros Hm Hm'. destruct b, b'; cbn [when]; by rewrite ?Hm, ?Hm'. Qed.

Ltac quiet :=
  repeat first
    [ reflexivity
    | apply observable_when_log; reflexivity
    | apply observable_bind; [|intros ?] ].

Lemma stream_step_verbose (self : InterfaceGGUF.t) v chunk_size buf tok :
  observable (InterfaceGGUF.stream_step (set_verbose self v) chunk_size buf tok)
  = observable (InterfaceGGUF.stream_step self chunk_size buf tok).
Proof.
  unfold InterfaceGGUF.stream_step.
  destruct (chunk_size =? 0); [done|].
  destruct (_ mod _ =? 0); [|done].
  apply observable_try; [reflexivity|]. intros e. quiet.
Qed.

Lemma stream_loop_verbose (self : InterfaceGGUF.t) v chunk_size tokens :
  forall buf,
  observable (InterfaceGGUF.stream_loop (set_verbose self v) chunk_size tokens
                buf)
  = observable (InterfaceGGUF.stream_loop self chunk_size tokens buf).
Proof.
  induction tokens as [|tok rest IH]; intros buf; [done|].
  cbn [InterfaceGGUF.stream_loop].
  apply observable_bind; [apply stream_step_verbose|done].
Qed.

(** X5.  [verbose] changes nothing but the log: with the log lines left
    out, a run of [generate] or of [generate_stream] makes the same calls
    with the same arguments in the same order, yields the same outputs
    and ends in the same way whichever value [verbose] has. *)
Theorem verbose_changes_only_the_log v text speaker temp rp ml extra :
  (forall self : InterfaceHF.t,
     observable (InterfaceHF.generate (set_verbose self v) text speaker temp
                   rp ml extra)
     = observable (InterfaceHF.generate self text speaker temp rp ml extra)) /\
  (forall self : InterfaceGGUF.t,
     observable (InterfaceGGUF.generate (set_verbose self v) text speaker temp
                   rp ml extra)
     = observable (InterfaceGGUF.generate self text speaker temp rp ml extra)) /\
  (forall (self : InterfaceEXL2.t) dyn,
     observable (InterfaceEXL2.generate (set_verbose self v) text speaker temp
                   rp ml extra dyn)
     = observable (InterfaceEXL2.generate self text speaker temp rp ml extra
                     dyn)) /\
  (forall (self : InterfaceGGUF.t) chunk_size,
     observable (InterfaceGGUF.generate_stream (set_verbose self v) text
                   speaker temp rp ml chunk_size extra)
     = observable (InterfaceGGUF.generate_stream self text speaker temp rp ml
                     chunk_size extra)).
Proof.
  split; [|split; [|split]].
  - intros self. unfold InterfaceHF.generate. quiet.
  - intros self. unfold InterfaceGGUF.generate. quiet.
  - intros self dyn. unfold InterfaceEXL2.generate. quiet.
  - intros self chunk_size. unfold InterfaceGGUF.generate_stream. quiet.
    cbn [model set_verbose].
    destruct (gguf_generate_stream _ _ _) as [tokens failure].
    apply observable_bind; [apply stream_loop_verbose|]. intros buf. quiet.
Qed.
End Verbose.

Section SampleRuns.
#[local] Existing Instance Sample.env.

(** The sample GGUF interface with [max_length] at the ceiling of 4096,
    which passes. *)
Lemma generate_within_limit_calls_model_once_witness :
  let temp : @float Sample.env := Sample.Hundredths 10 in
  let rp : @float Sample.env := Sample.Hundredths 110 in
  let self := Sample.gguf [1000; 7; 1001] in
  let ids := map ascii_code (list_ascii_of_string "en: hi") in
  outcome (InterfaceGGUF.prepare_prompt self "hi" None) = Ok ids /\
  4096 <= max_seq_length (config self) /\
  model_calls
    (trace (InterfaceGGUF.generate self "hi" None temp rp (Some 4096) tt))
  = [CallModelGenerate (InputIds ids)
       {| temperature := temp; repetition_penalty := rp;
          max_length := Some 4096; additional_gen_config := tt |} None].
Proof.
  intros temp rp self ids.
  split; [reflexivity|]. split; [cbn; lia|].
  apply (proj1 (proj2 (generate_within_limit_calls_model_once 4096 "hi" None
                         temp rp tt)));
    [reflexivity|cbn; lia].
Defined.

(** The sample HF backend returns the six tokens of the prompt followed
    by an audio region: the region is looked for behind the prompt. *)
Lemma generate_decodes_backend_output_witness :
  let temp : @float Sample.env := Sample.Hundredths 10 in
  let rp : @float Sample.env := Sample.Hundredths 110 in
  let self := Sample.hf [101; 110; 58; 32; 104; 105; 1000; 7; 8; 1001] in
  let ids := map ascii_code (list_ascii_of_string "en: hi") in
  let run := InterfaceHF.generate self "hi" None temp rp (Some 4096) tt in
  outcome (InterfaceHF.prepare_prompt self "hi" None) = Ok ids /\
  4096 <= max_seq_length (config self) /\
  decoded_buffers (trace run) = [[1000; 7; 8; 1001]] /\
  outcome run = Ok (mkModelOutput (Some [7; 8]) 24000).
Proof.
  intros temp rp self ids run.
  split; [reflexivity|]. split; [cbn; lia|].
  apply (proj1 (generate_decodes_backend_output 4096 "hi" None temp rp tt)
           self ids); [reflexivity|cbn; lia].
Defined.

Lemma outputs_have_codec_rate_witness :
  let temp : @float Sample.env := Sample.Hundredths 10 in
  let rp : @float Sample.env := Sample.Hundredths 110 in
  let self := Sample.gguf [1000; 7; 8; 1001] in
  let out := mkModelOutput (Some [7; 8]) 24000 in
  outcome (InterfaceGGUF.generate self "hi" None temp rp (Some 4096) tt)
  = Ok out /\
  built_by self out.
Proof.
  intros temp rp self out.
  assert (outcome (InterfaceGGUF.generate self "hi" None temp rp (Some 4096)
                     tt) = Ok out) as Hrun by reflexivity.
  split; [exact Hrun|].
  exact (proj1 (proj2 (outputs_have_codec_rate "hi" None temp rp (Some 4096)
                         tt)) self out Hrun).
Defined.
End SampleRuns.

(** ** More on the chunks of [generate_stream] *)
Section Chunks.
Context `{Env}.

(** [tokens] cut into consecutive pieces of [n] tokens; the last piece is
    shorter when the length is not a multiple of [n]. *)
Fixpoint chunks_fuel (fuel n : nat) (tokens : list Z) : list (list Z) :=
  match fuel, tokens with
  | S fuel', _ :: _ => take n tokens :: chunks_fuel fuel' n (drop n tokens)
  | _, _ => []
  end.

Definition chunks (n : nat) (tokens : list Z) : list (list Z) :=
  chunks_fuel (length tokens) n tokens.

Lemma chunks_fuel_nil fuel n : chunks_fuel fuel n [] = [].
Proof. by destruct fuel. Qed.

Lemma chunks_fuel_enough n : (0 < n)%nat -> forall fuel tokens,
  (length tokens <= fuel)%nat ->
  chunks_fuel fuel n tokens = chunks n tokens.
Proof.
  intros Hn. unfold chunks.
  assert (forall fuel fuel' tokens,
            (length tokens <= fuel)%nat -> (length tokens <= fuel')%nat ->
            chunks_fuel fuel n tokens = chunks_fuel fuel' n tokens) as Hgen.
  { induction fuel as [|fuel IH]; intros fuel' tokens Hf Hf'.
    - destruct tokens; [|cbn in Hf; lia]. by rewrite !chunks_fuel_nil.
    - destruct tokens as [|tok rest]; [by rewrite !chunks_fuel_nil|].
      destruct fuel' as [|fuel']; [cbn in Hf'; lia|].
      cbn [chunks_fuel]. f_equal.
      apply IH; rewrite length_drop; cbn [length] in *; lia. }
  intros fuel tokens Hf. by apply Hgen.
Qed.

Lemma chunks_cons n tok rest :
  (0 < n)%nat ->
  chunks n (tok :: rest)
  = take n (tok :: rest) :: chunks n (drop n (tok :: rest)).
Proof.
  intros Hn. unfold chunks at 1. cbn [length chunks_fuel]. f_equal.
  apply chunks_fuel_enough; [done|].
  rewrite length_drop. cbn [length]. lia.
Qed.

Lemma chunks_unfold n tokens :
  (0 < n)%nat -> tokens <> [] ->
  chunks n tokens = take n tokens :: chunks n (drop n tokens).
Proof. intros Hn Hne. destruct tokens; [done|]. by apply chunks_cons. Qed.

(** The pieces joined are the tokens. *)
Lemma concat_chunks n tokens : (0 < n)%nat -> concat (chunks n tokens) = tokens.
Proof.
  intros Hn. remember (length tokens) as len eqn:Hlen.
  revert tokens Hlen. induction (lt_wf len) as [len _ IH].
  intros [|tok rest] ->; [done|].
  rewrite chunks_cons by done. cbn [concat].
  rewrite (IH (length (drop n (tok :: rest)))); [apply take_drop| |done].
  rewrite length_drop. cbn [length]. lia.
Qed.

(** Every piece has between one and [n] tokens. *)
Lemma chunks_lengths n tokens :
  (0 < n)%nat ->
  Forall (fun piece => (1 <= length piece <= n)%nat) (chunks n tokens).
Proof.
  intros Hn. remember (length tokens) as len eqn:Hlen.
  revert tokens Hlen. induction (lt_wf len) as [len _ IH].
  intros [|tok rest] ->; [constructor|].
  rewrite chunks_cons by done. constructor.
  - rewrite length_take. cbn [length]. lia.
  - apply (IH (length (drop n (tok :: rest)))); [|done].
    rewrite length_drop. cbn [length]. lia.
Qed.
End Chunks.

Section ChunkedRun.
Context `{Env}.
Variable self : InterfaceGGUF.t.
Variable chunk_size : Z.
Hypothesis chunk_size_pos : 0 < chunk_size.

(** The audio that [get_audio] returns for a buffer. *)
Definition decoded_audio (buf : list Z) : option Tensor :=
  match outcome (InterfaceHF.get_audio self buf) with
  | Ok a => a
  | Raise _ => None
  end.

Definition decodes (buf : list Z) : Prop :=
  is_ok (outcome (InterfaceHF.get_audio self buf)) = true.

(** When the loop over [t1] ends on an empty buffer, the run over
    [t1 ++ t2] is the loop over [t1] followed by the run over [t2]. *)
Lemma stream_body_app t1 t2 tr :
  InterfaceGGUF.stream_loop self chunk_size t1 [] = (tr, Ok []) ->
  stream_body self chunk_size (t1 ++ t2)
  = (tr ++ trace (stream_body self chunk_size t2),
     outcome (stream_body self chunk_size t2)).
Proof.
  intros Hloop. unfold stream_body. rewrite stream_loop_app, Hloop.
  by rewrite bind_assoc, bind_Ok.
Qed.

Lemma boundary_decodes buf a :
  outcome (InterfaceHF.get_audio self buf) = Ok a ->
  at_boundary self buf
  = (trace (InterfaceHF.get_audio self buf) ++ [Yield (chunk_output self a)],
     Ok []).
Proof.
  unfold at_boundary. destruct (InterfaceHF.get_audio self buf) as [t r].
  cbn [outcome trace fst snd]. by intros ->.
Qed.

(** A run without a failing decode, piece by piece. *)
Lemma stream_body_chunks tokens :
  Forall decodes (chunks (Z.to_nat chunk_size) tokens) ->
  outcome (stream_body self chunk_size tokens) = Ok tt /\
  decoded_buffers (trace (stream_body self chunk_size tokens))
  = chunks (Z.to_nat chunk_size) tokens /\
  yields (trace (stream_body self chunk_size tokens))
  = map (fun buf => chunk_output self (decoded_audio buf))
      (chunks (Z.to_nat chunk_size) tokens).
Proof.
  remember (length tokens) as len eqn:Hlen.
  revert tokens Hlen. induction (lt_wf len) as [len _ IH].
  intros [|tok rest] -> Hok.
  { unfold stream_body. cbn. by destruct (verbose self). }
  assert (0 < Z.to_nat chunk_size)%nat as Hn by lia.
  rewrite chunks_cons in Hok |- * by done.
  assert (tok :: rest <> []) as Hsome by done.
  set (tokens := tok :: rest) in *. clearbody tokens.
  apply Forall_cons in Hok as [Hfirst Hrest].
  set (piece := take (Z.to_nat chunk_size) tokens) in *.
  set (later := drop (Z.to_nat chunk_size) tokens) in *.
  unfold decodes in Hfirst.
  destruct (get_audio_trace self piece) as [Hy Hb].
  destruct (Z.lt_ge_cases (Z.of_nat (length tokens)) chunk_size) as [Hlt|Hge].
  - (* fewer tokens than a chunk: they are flushed after the loop *)
    assert (piece = tokens) as Hpiece by (apply take_ge; lia).
    assert (later = []) as Hlater by (apply drop_ge; lia).
    rewrite Hlater. cbn [chunks chunks_fuel length map].
    rewrite Hpiece in *. unfold stream_body, decoded_audio.
    rewrite (stream_loop_inside self chunk_size chunk_size_pos 0 tokens [])
      by (cbn [length]; lia).
    rewrite bind_Ok. cbn [app].
    destruct tokens as [|tok' rest']; [done|].
    revert Hfirst Hy Hb.
    destruct (InterfaceHF.get_audio self (tok' :: rest')) as [t [a|e]];
      cbn [outcome trace fst snd is_ok]; [|done]. intros _ Hy Hb.
    run_m. unfold chunk_output.
    destruct (verbose self); run_m;
      by rewrite ?yields_app, ?decoded_buffers_app, ?Hy, ?Hb.
  - (* a full chunk first, then the run over what follows it *)
    assert (tokens = piece ++ later) as Htok
      by (symmetry; apply take_drop).
    assert (length piece = Z.to_nat chunk_size) as Hpl
      by (unfold piece; rewrite length_take; lia).
    assert (piece <> []) as Hne by (intros Hnil; rewrite Hnil in Hpl; cbn in Hpl; lia).
    assert (length later < length tokens)%nat as Hshorter
      by (unfold later; rewrite length_drop; lia).
    destruct (IH (length later) Hshorter later eq_refl Hrest)
      as (Hout & Hbufs & Hyields).
    rewrite Htok at 1 2 3.
    destruct (InterfaceHF.get_audio self piece) as [t r] eqn:Haudio.
    cbn [outcome trace fst snd] in Hfirst, Hy, Hb.
    destruct r as [a|e]; [|done].
    rewrite (stream_body_app piece later (t ++ [Yield (chunk_output self a)])).
    + cbn [outcome trace fst snd]. split; [done|].
      assert (decoded_audio piece = a) as Ha
        by (unfold decoded_audio; by rewrite Haudio).
      rewrite !decoded_buffers_app, !yields_app, Hbufs, Hyields, Hy, Hb.
      cbn [map]. by rewrite Ha.
    + rewrite (stream_loop_boundary self chunk_size chunk_size_pos 0 piece [])
        by (done || cbn [length]; lia).
      cbn [app]. rewrite (boundary_decodes piece a); by rewrite Haudio.
Qed.
End ChunkedRun.

Section StreamEdges.
Context `{Env}.

(** X6.  When no decoding fails and [chunk_size] is positive,
    [generate_stream] decodes and yields the streamed tokens piece by
    piece: the buffers given to [get_audio] are the tokens cut into
    consecutive pieces of [chunk_size], the last piece being what
    remains, and one output is yielded for each piece, in order, with the
    audio of that piece.  No token is decoded twice or left out. *)
Theorem generate_stream_chunks (self : InterfaceGGUF.t) text speaker temp rp
    n chunk_size extra ids tokens :
  outcome (InterfaceGGUF.prepare_prompt self text speaker) = Ok ids ->
  n <= max_seq_length (config self) ->
  gguf_generate_stream (model self) ids
    {| temperature := temp; repetition_penalty := rp; max_length := Some n;
       additional_gen_config := extra |} = (tokens, None) ->
  0 < chunk_size ->
  Forall (decodes self) (chunks (Z.to_nat chunk_size) tokens) ->
  let run := InterfaceGGUF.generate_stream self text speaker temp rp (Some n)
               chunk_size extra in
  let pieces := chunks (Z.to_nat chunk_size) tokens in
  outcome run = Ok tt /\
  decoded_buffers (trace run) = pieces /\
  yields (trace run)
  = map (fun buf => chunk_output self (decoded_audio self buf)) pieces /\
  concat pieces = tokens /\
  Forall (fun piece => (1 <= length piece <= Z.to_nat chunk_size)%nat) pieces.
Proof.
  intros Hprep Hn Hgen Hpos Hok run pieces. subst run pieces.
  destruct (generate_stream_body self text speaker temp rp n chunk_size extra
              ids tokens Hprep Hn Hgen) as (-> & -> & ->).
  destruct (stream_body_chunks self chunk_size Hpos tokens Hok)
    as (Hout & Hbufs & Hyields).
  split; [done|]. split; [done|]. split; [done|].
  split; [apply concat_chunks; lia|apply chunks_lengths; lia].
Qed.

Lemma mod_opp_zero x c : (x mod (- c) =? 0) = (x mod c =? 0).
Proof.
  destruct (Z.eq_dec c 0) as [->|Hc]; [done|].
  destruct (Z.eqb_spec (x mod c) 0) as [Hz|Hnz].
  - apply Z.eqb_eq. apply Z.mod_divide; [lia|].
    apply Z.divide_opp_l. by apply Z.mod_divide.
  - apply Z.eqb_neq. intros Hz. apply Hnz. apply Z.mod_divide; [lia|].
    apply Z.divide_opp_l. apply Z.mod_divide in Hz; [|lia]. done.
Qed.

Lemma stream_step_opp (self : InterfaceGGUF.t) chunk_size buf tok :
  InterfaceGGUF.stream_step self (- chunk_size) buf tok
  = InterfaceGGUF.stream_step self chunk_size buf tok.
Proof.
  unfold InterfaceGGUF.stream_step. rewrite mod_opp_zero.
  by destruct (Z.eqb_spec (- chunk_size) 0), (Z.eqb_spec chunk_size 0);
    try lia.
Qed.

Lemma stream_loop_opp (self : InterfaceGGUF.t) chunk_size tokens : forall buf,
  InterfaceGGUF.stream_loop self (- chunk_size) tokens buf
  = InterfaceGGUF.stream_loop self chunk_size tokens buf.
Proof.
  induction tokens as [|tok rest IH]; intros buf; [done|].
  cbn [InterfaceGGUF.stream_loop]. rewrite stream_step_opp.
  apply bind_ext. intros b. apply IH.
Qed.

(** X7.  The sign of [chunk_size] does not matter: the length of the
    buffer is a multiple of [-chunk_size] exactly when it is one of
    [chunk_size], so a run with a negative [chunk_size] is the run with
    its absolute value, event for event. *)
Theorem generate_stream_negative_chunk_size (self : InterfaceGGUF.t) text
    speaker temp rp ml chunk_size extra :
  InterfaceGGUF.generate_stream self text speaker temp rp ml (- chunk_size)
    extra
  = InterfaceGGUF.generate_stream self text speaker temp rp ml chunk_size
      extra.
Proof.
  unfold InterfaceGGUF.generate_stream.
  apply bind_ext. intros ids. apply bind_ext. intros _.
  apply bind_ext. intros _. apply bind_ext. intros _.
  destruct (gguf_generate_stream _ _ _) as [tokens failure].
  by rewrite stream_loop_opp.
Qed.

(** What [generate_stream] does once the prompt is built, the gate is
    passed and the backend has produced [tokens] and then, possibly,
    raised: the loop, the exception of the backend, the final flush and
    the closing log line. *)
Definition stream_rest (self : InterfaceGGUF.t) (chunk_size : Z)
    (tokens : list Z) (failure : option exn) : M unit :=
  generated_tokens ← InterfaceGGUF.stream_loop self chunk_size tokens [];
  match failure with Some e => raise e | None => mret tt end;;
  match generated_tokens with
  | [] => mret tt
  | _ :: _ =>
      final_audio ← InterfaceHF.get_audio self generated_tokens;
      emit (Yield (mkModelOutput final_audio (codec_sr (audio_codec self))))
  end;;
  when (verbose self) (emit (Log INFO "Streaming audio generation completed")).

Lemma generate_stream_rest (self : InterfaceGGUF.t) text speaker temp rp n
    chunk_size extra ids tokens failure :
  outcome (InterfaceGGUF.prepare_prompt self text speaker) = Ok ids ->
  n <= max_seq_length (config self) ->
  gguf_generate_stream (model self) ids
    {| temperature := temp; repetition_penalty := rp; max_length := Some n;
       additional_gen_config := extra |} = (tokens, failure) ->
  let run := InterfaceGGUF.generate_stream self text speaker temp rp (Some n)
               chunk_size extra in
  let rest := stream_rest self chunk_size tokens failure in
  outcome run = outcome rest /\
  yields (trace run) = yields (trace rest) /\
  decoded_buffers (trace run) = decoded_buffers (trace rest).
Proof.
  unfold InterfaceGGUF.generate_stream, InterfaceGGUF.prepare_prompt. run_m.
  destruct (get_completion_prompt _ _ _ _) as [prompt|e1]; run_m; [|done].
  destruct (tokenizer_encode _ _) as [ids'|e2]; run_m; [|done].
  intros [= ->] Hn Hgen.
  rewrite (check_generation_max_length_ok self n Hn), Hgen.
  fold (stream_rest self chunk_size tokens failure).
  destruct (stream_rest self chunk_size tokens failure) as [t r].
  destruct (verbose self); run_m; by cbn.
Qed.

Lemma stream_step_returns (self : InterfaceGGUF.t) chunk_size buf tok :
  chunk_size <> 0 ->
  is_ok (outcome (InterfaceGGUF.stream_step self chunk_size buf tok)) = true.
Proof.
  intros Hc. unfold InterfaceGGUF.stream_step.
  destruct (Z.eqb_spec chunk_size 0); [done|].
  destruct (_ mod _ =? 0); [|done].
  destruct (InterfaceHF.get_audio self (buf ++ [tok])) as [t [a|e]]; run_m;
    [done|]. by destruct (verbose self).
Qed.

(** With a [chunk_size] other than zero the loop itself never raises. *)
Lemma stream_loop_returns (self : InterfaceGGUF.t) chunk_size tokens :
  chunk_size <> 0 -> forall buf,
  is_ok (outcome (InterfaceGGUF.stream_loop self chunk_size tokens buf)) = true.
Proof.
  intros Hc. induction tokens as [|tok rest IH]; intros buf; [done|].
  cbn [InterfaceGGUF.stream_loop]. rewrite outcome_bind.
  pose proof (stream_step_returns self chunk_size buf tok Hc) as Hstep.
  destruct (outcome (InterfaceGGUF.stream_step self chunk_size buf tok));
    [apply IH|done].
Qed.

Definition at_chunk_boundary (chunk_size : Z) (buf : list Z) : Prop :=
  Z.of_nat (length buf) mod chunk_size = 0.

(** Inside the loop a buffer is decoded only when its length is a
    multiple of [chunk_size]. *)
Lemma stream_loop_boundaries (self : InterfaceGGUF.t) chunk_size tokens :
  forall buf,
  Forall (at_chunk_boundary chunk_size)
    (decoded_buffers
       (trace (InterfaceGGUF.stream_loop self chunk_size tokens buf))).
Proof.
  induction tokens as [|tok rest IH]; intros buf; [constructor|].
  cbn [InterfaceGGUF.stream_loop]. rewrite trace_bind, decoded_buffers_app.
  apply Forall_app. split.
  - unfold InterfaceGGUF.stream_step.
    destruct (chunk_size =? 0); [constructor|].
    destruct (Z.eqb_spec (Z.of_nat (length (buf ++ [tok])) mod chunk_size) 0)
      as [Hmod|_]; [|constructor].
    destruct (get_audio_trace self (buf ++ [tok])) as [_ Hb].
    destruct (InterfaceHF.get_audio self (buf ++ [tok])) as [t [a|e]];
      cbn [trace fst] in Hb; run_m.
    + rewrite decoded_buffers_app, Hb. by repeat constructor.
    + destruct (verbose self); run_m;
        rewrite ?decoded_buffers_app, Hb; by repeat constructor.
  - destruct (outcome _); [apply IH|constructor].
Qed.

(** X8.  With [chunk_size = 0] the first streamed token makes
    [generate_stream] raise [ZeroDivisionError], before anything is
    decoded or yielded.  A backend that streams nothing and does not
    fail lets the call return, whatever [chunk_size] is, with nothing
    yielded. *)
Theorem generate_stream_zero_chunk_size (self : InterfaceGGUF.t) text speaker
    temp rp n extra ids :
  outcome (InterfaceGGUF.prepare_prompt self text speaker) = Ok ids ->
  n <= max_seq_length (config self) ->
  let cfg := {| temperature := temp; repetition_penalty := rp;
                max_length := Some n; additional_gen_config := extra |} in
  (forall tok rest failure,
     gguf_generate_stream (model self) ids cfg = (tok :: rest, failure) ->
     let run := InterfaceGGUF.generate_stream self text speaker temp rp
                  (Some n) 0 extra in
     outcome run = Raise ZeroDivisionError /\
     yields (trace run) = [] /\ decoded_buffers (trace run) = []) /\
  (forall chunk_size,
     gguf_generate_stream (model self) ids cfg = ([], None) ->
     let run := InterfaceGGUF.generate_stream self text speaker temp rp
                  (Some n) chunk_size extra in
     outcome run = Ok tt /\
     yields (trace run) = [] /\ decoded_buffers (trace run) = []).
Proof.
  intros Hprep Hn cfg. split.
  - intros tok rest failure Hgen run. subst run.
    by destruct (generate_stream_rest self text speaker temp rp n 0 extra ids
                   (tok :: rest) failure Hprep Hn Hgen) as (-> & -> & ->).
  - intros chunk_size Hgen run. subst run.
    destruct (generate_stream_rest self text speaker temp rp n chunk_size
                extra ids [] None Hprep Hn Hgen) as (-> & -> & ->).
    unfold stream_rest. run_m. by destruct (verbose self).
Qed.

(** X9.  When the backend raises after it has streamed some tokens,
    [generate_stream] raises that exception once the tokens have gone
    through the loop, and the final flush is skipped: the only buffers
    decoded are those whose length was a multiple of [chunk_size], so the
    tokens streamed since the last such point are never decoded.  In
    particular, when fewer than [chunk_size] tokens came before the
    exception, nothing is decoded and nothing is yielded. *)
Theorem generate_stream_backend_failure (self : InterfaceGGUF.t) text speaker
    temp rp n chunk_size extra ids tokens e :
  outcome (InterfaceGGUF.prepare_prompt self text speaker) = Ok ids ->
  n <= max_seq_length (config self) ->
  gguf_generate_stream (model self) ids
    {| temperature := temp; repetition_penalty := rp; max_length := Some n;
       additional_gen_config := extra |} = (tokens, Some e) ->
  0 < chunk_size ->
  let run := InterfaceGGUF.generate_stream self text speaker temp rp (Some n)
               chunk_size extra in
  outcome run = Raise e /\
  Forall (at_chunk_boundary chunk_size) (decoded_buffers (trace run)) /\
  (Z.of_nat (length tokens) < chunk_size ->
   decoded_buffers (trace run) = [] /\ yields (trace run) = []).
Proof.
  intros Hprep Hn Hgen Hpos run. subst run.
  destruct (generate_stream_rest self text speaker temp rp n chunk_size extra
              ids tokens (Some e) Hprep Hn Hgen) as (-> & -> & ->).
  unfold stream_rest.
  pose proof (stream_loop_returns self chunk_size tokens ltac:(lia) [])
    as Hret.
  pose proof (stream_loop_boundaries self chunk_size tokens []) as Hbd.
  split; [|split].
  - rewrite outcome_bind.
    by destruct (outcome (InterfaceGGUF.stream_loop self chunk_size tokens [])).
  - rewrite trace_bind.
    destruct (outcome (InterfaceGGUF.stream_loop self chunk_size tokens []));
      cbn; by rewrite app_nil_r.
  - intros Hshort.
    rewrite (stream_loop_inside self chunk_size Hpos 0 tokens [])
      by (cbn [length]; lia).
    done.
Qed.

(** The loop over a whole number of chunks that all decode: it ends on
    an empty buffer, having decoded and yielded each chunk. *)
Lemma stream_loop_full_chunks (self : InterfaceGGUF.t) chunk_size :
  0 < chunk_size -> forall (k : nat) full,
  Z.of_nat (length full) = Z.of_nat k * chunk_size ->
  Forall (decodes self) (chunks (Z.to_nat chunk_size) full) ->
  exists tr,
    InterfaceGGUF.stream_loop self chunk_size full [] = (tr, Ok []) /\
    decoded_buffers tr = chunks (Z.to_nat chunk_size) full /\
    yields tr
    = map (fun buf => chunk_output self (decoded_audio self buf))
        (chunks (Z.to_nat chunk_size) full).
Proof.
  intros Hpos. induction k as [|k IH]; intros full Hlen Hok.
  { destruct full; [|cbn in Hlen; lia]. by exists []. }
  assert (0 < Z.to_nat chunk_size)%nat as Hn by lia.
  destruct full as [|tok rest] eqn:Hfull; [cbn in Hlen; nia|].
  rewrite <- Hfull in *. assert (full <> []) as Hsome by (by rewrite Hfull).
  clear Hfull. rewrite chunks_unfold in Hok |- * by done.
  apply Forall_cons in Hok as [Hfirst Hrest].
  set (piece := take (Z.to_nat chunk_size) full) in *.
  set (later := drop (Z.to_nat chunk_size) full) in *.
  assert (Z.of_nat (length full) >= chunk_size) as Hge by nia.
  assert (full = piece ++ later) as Htok by (symmetry; apply take_drop).
  assert (length piece = Z.to_nat chunk_size) as Hpl
    by (unfold piece; rewrite length_take; lia).
  assert (piece <> []) as Hne
    by (intros Hnil; rewrite Hnil in Hpl; cbn in Hpl; lia).
  assert (Z.of_nat (length later) = Z.of_nat k * chunk_size) as Hll
    by (unfold later; rewrite length_drop; lia).
  destruct (IH later Hll Hrest) as (tr & Hloop & Hbufs & Hyields).
  destruct (get_audio_trace self piece) as [Hy Hb].
  unfold decodes in Hfirst.
  destruct (InterfaceHF.get_audio self piece) as [t r] eqn:Haudio.
  cbn [outcome trace fst snd] in Hfirst, Hy, Hb.
  destruct r as [a|e]; [|done].
  assert (decoded_audio self piece = a) as Ha
    by (unfold decoded_audio; by rewrite Haudio).
  exists ((t ++ [Yield (chunk_output self a)]) ++ tr).
  split; [|split].
  - rewrite Htok at 1. rewrite stream_loop_app.
    rewrite (stream_loop_boundary self chunk_size Hpos 0 piece [])
      by (done || cbn [length]; lia).
    cbn [app]. rewrite (boundary_decodes self piece a) by (by rewrite Haudio).
    rewrite Haudio. cbn [trace fst]. rewrite bind_Ok, Hloop. done.
  - by rewrite !decoded_buffers_app, Hb, Hbufs.
  - rewrite !yields_app, Hy, Hyields. cbn [map]. by rewrite Ha.
Qed.

(** X10.  The final flush is outside the [try].  When the tokens are a
    whole number of chunks that all decode, followed by a shorter rest
    whose decoding raises, [generate_stream] yields the audio of each
    chunk and then raises the exception of the rest: unlike a failure
    inside the loop, it is not caught. *)
Theorem generate_stream_final_flush_raises (self : InterfaceGGUF.t) text
    speaker temp rp n chunk_size extra ids (k : nat) full rest e :
  outcome (InterfaceGGUF.prepare_prompt self text speaker) = Ok ids ->
  n <= max_seq_length (config self) ->
  gguf_generate_stream (model self) ids
    {| temperature := temp; repetition_penalty := rp; max_length := Some n;
       additional_gen_config := extra |} = (full ++ rest, None) ->
  Z.of_nat (length full) = Z.of_nat k * chunk_size ->
  Forall (decodes self) (chunks (Z.to_nat chunk_size) full) ->
  rest <> [] ->
  Z.of_nat (length rest) < chunk_size ->
  outcome (InterfaceHF.get_audio self rest) = Raise e ->
  let run := InterfaceGGUF.generate_stream self text speaker temp rp (Some n)
               chunk_size extra in
  outcome run = Raise e /\
  yields (trace run)
  = map (fun buf => chunk_output self (decoded_audio self buf))
      (chunks (Z.to_nat chunk_size) full) /\
  decoded_buffers (trace run) = chunks (Z.to_nat chunk_size) full ++ [rest].
Proof.
  intros Hprep Hn Hgen Hfull Hok Hne Hshort Hfail run. subst run.
  destruct (generate_stream_body self text speaker temp rp n chunk_size extra
              ids (full ++ rest) Hprep Hn Hgen) as (-> & -> & ->).
  assert (0 < chunk_size) as Hpos by lia.
  destruct (stream_loop_full_chunks self chunk_size Hpos k full Hfull Hok)
    as (tr & Hloop & Hbufs & Hyields).
  rewrite (stream_body_app self chunk_size full rest tr Hloop).
  cbn [outcome trace fst snd]. unfold stream_body.
  rewrite (stream_loop_inside self chunk_size Hpos 0 rest [])
    by (cbn [length]; lia).
  rewrite bind_Ok. cbn [app]. destruct rest as [|tok rest']; [done|].
  destruct (get_audio_trace self (tok :: rest')) as [Hy Hb].
  destruct (InterfaceHF.get_audio self (tok :: rest')) as [t r].
  cbn [outcome trace fst snd] in Hfail, Hy, Hb. subst r. run_m.
  rewrite yields_app, decoded_buffers_app, Hy, Hb, Hbufs, Hyields.
  by rewrite app_nil_r.
Qed.

(** X11.  When the backend produces the same tokens for [generate] and
    for [generate_stream], and they are fewer than [chunk_size],
    streaming is [generate] in one piece: the single output yielded is
    the one that [generate] returns, and the stream raises exactly when
    [generate] raises, with the same exception. *)
Theorem generate_stream_in_one_piece (self : InterfaceGGUF.t) text speaker
    temp rp n chunk_size extra ids tokens :
  outcome (InterfaceGGUF.prepare_prompt self text speaker) = Ok ids ->
  n <= max_seq_length (config self) ->
  let cfg := {| temperature := temp; repetition_penalty := rp;
                max_length := Some n; additional_gen_config := extra |} in
  gguf_generate (model self) ids cfg = Ok tokens ->
  gguf_generate_stream (model self) ids cfg = (tokens, None) ->
  tokens <> [] ->
  Z.of_nat (length tokens) < chunk_size ->
  let whole := InterfaceGGUF.generate self text speaker temp rp (Some n)
                 extra in
  let stream := InterfaceGGUF.generate_stream self text speaker temp rp
                  (Some n) chunk_size extra in
  yields (trace stream)
  = match outcome whole with Ok out => [out] | Raise _ => [] end /\
  outcome stream
  = match outcome whole with Ok _ => Ok tt | Raise e => Raise e end /\
  decoded_buffers (trace stream) = decoded_buffers (trace whole).
Proof.
  intros Hprep Hn cfg Hwhole Hgen Hne Hshort whole stream. subst whole stream.
  destruct (generate_stream_rest self text speaker temp rp n chunk_size extra
              ids tokens None Hprep Hn Hgen) as (-> & -> & ->).
  destruct (generate_GGUF_within self text speaker temp rp n extra ids Hprep Hn)
    as (_ & -> & ->).
  fold cfg. rewrite Hwhole. unfold decoded_output, extracted_from, stream_rest.
  cbn [mbind result_bind id].
  rewrite (stream_loop_inside self chunk_size ltac:(lia) 0 tokens [])
    by (cbn [length]; lia).
  rewrite bind_Ok. cbn [app]. destruct tokens as [|tok rest]; [done|].
  destruct (get_audio_trace self (tok :: rest)) as [Hy Hb].
  destruct (InterfaceHF.get_audio self (tok :: rest)) as [t [a|e]];
    cbn [outcome trace fst snd] in Hy, Hb |- *; run_m;
    cbn [mbind result_bind].
  - destruct (verbose self); run_m; cbn [app];
      by rewrite ?yields_app, ?decoded_buffers_app, ?Hy, ?Hb.
  - cbn [app]. by rewrite Hy, Hb.
Qed.
End StreamEdges.

Section SampleStreams.
#[local] Existing Instance Sample.env.

(** Seven tokens in pieces of three: two whole regions and an opening
    sentinel alone, which holds no audio. *)
Lemma generate_stream_chunks_witness :
  let temp : @float Sample.env := Sample.Hundredths 10 in
  let rp : @float Sample.env := Sample.Hundredths 110 in
  let tokens := [1000; 1; 1001; 1000; 2; 1001; 1000] in
  let self := Sample.gguf tokens in
  let run := InterfaceGGUF.generate_stream self "hi" None temp rp (Some 4096)
               3 tt in
  Forall (decodes self) (chunks 3 tokens) /\
  decoded_buffers (trace run) = [[1000; 1; 1001]; [1000; 2; 1001]; [1000]] /\
  yields (trace run)
  = [chunk_output self (Some [1]); chunk_output self (Some [2]);
     chunk_output self None].
Proof.
  intros temp rp tokens self run.
  assert (Forall (decodes self) (chunks 3 tokens)) as Hok
    by (repeat constructor).
  split; [exact Hok|].
  destruct (generate_stream_chunks self "hi" None temp rp 4096 3 tt
              (map ascii_code (list_ascii_of_string "en: hi")) tokens)
    as (_ & Hbufs & Hyields & _);
    first [reflexivity|exact Hok|cbn; lia|idtac].
  split; [exact Hbufs|exact Hyields].
Defined.

Lemma generate_stream_zero_chunk_size_witness :
  let temp : @float Sample.env := Sample.Hundredths 10 in
  let rp : @float Sample.env := Sample.Hundredths 110 in
  let self := Sample.gguf [5; 6] in
  outcome (InterfaceGGUF.generate_stream self "hi" None temp rp (Some 4096) 0
             tt)
  = Raise ZeroDivisionError.
Proof.
  intros temp rp self.
  destruct (generate_stream_zero_chunk_size self "hi" None temp rp 4096 tt
              (map ascii_code (list_ascii_of_string "en: hi")))
    as [Hzero _]; [reflexivity|cbn; lia|].
  exact (proj1 (Hzero 5 [6] None eq_refl)).
Defined.

(** The backend stops after four tokens with [chunk_size = 3]: the first
    three are decoded, the fourth never is. *)
Lemma generate_stream_backend_failure_witness :
  let temp : @float Sample.env := Sample.Hundredths 10 in
  let rp : @float Sample.env := Sample.Hundredths 110 in
  let self := Sample.broken [1000; 1; 1001; 1000] in
  let run := InterfaceGGUF.generate_stream self "hi" None temp rp (Some 4096)
               3 tt in
  decoded_buffers (trace run) = [[1000; 1; 1001]] /\
  outcome run = Raise Sample.stream_error /\
  Forall (at_chunk_boundary 3) (decoded_buffers (trace run)).
Proof.
  intros temp rp self run.
  split; [reflexivity|].
  destruct (generate_stream_backend_failure self "hi" None temp rp 4096 3 tt
              (map ascii_code (list_ascii_of_string "en: hi"))
              [1000; 1; 1001; 1000] Sample.stream_error)
    as (Hout & Hbd & _); first [reflexivity|cbn; lia|idtac].
  split; [exact Hout|exact Hbd].
Defined.

(** Five tokens with [chunk_size = 4] on the codec that cannot decode
    fewer than four codes: the first four are yielded, the flush of the
    fifth raises. *)
Lemma generate_stream_final_flush_raises_witness :
  let temp : @float Sample.env := Sample.Hundredths 10 in
  let rp : @float Sample.env := Sample.Hundredths 110 in
  let self := Sample.flaky [10; 11; 12; 13; 14] in
  let run := InterfaceGGUF.generate_stream self "hi" None temp rp (Some 4096)
               4 tt in
  outcome (InterfaceHF.get_audio self [14]) = Raise Sample.short_chunk_error /\
  outcome run = Raise Sample.short_chunk_error /\
  yields (trace run) = [chunk_output self (Some [10; 11; 12; 13])] /\
  decoded_buffers (trace run) = [[10; 11; 12; 13]; [14]].
Proof.
  intros temp rp self run.
  split; [reflexivity|].
  apply (generate_stream_final_flush_raises self "hi" None temp rp 4096 4 tt
           (map ascii_code (list_ascii_of_string "en: hi")) 1
           [10; 11; 12; 13] [14] Sample.short_chunk_error);
    first [reflexivity|discriminate|cbn; lia|repeat constructor].
Defined.

Lemma generate_stream_in_one_piece_witness :
  let temp : @float Sample.env := Sample.Hundredths 10 in
  let rp : @float Sample.env := Sample.Hundredths 110 in
  let self := Sample.gguf [1000; 7; 8; 1001] in
  let whole := InterfaceGGUF.generate self "hi" None temp rp (Some 4096) tt in
  let stream := InterfaceGGUF.generate_stream self "hi" None temp rp
                  (Some 4096) 50 tt in
  outcome whole = Ok (mkModelOutput (Some [7; 8]) 24000) /\
  yields (trace stream) = [mkModelOutput (Some [7; 8]) 24000] /\
  outcome stream = Ok tt.
Proof.
  intros temp rp self whole stream.
  split; [reflexivity|].
  destruct (generate_stream_in_one_piece self "hi" None temp rp 4096 50 tt
              (map ascii_code (list_ascii_of_string "en: hi"))
              [1000; 7; 8; 1001])
    as (Hyields & Hout & _);
    first [reflexivity|discriminate|cbn; lia|idtac].
  split; [exact Hyields|exact Hout].
Defined.
End SampleStreams.

(** ** No streamed token is dropped *)
Section EveryToken.
Context `{Env}.

(** The tokens that a decoding leaves in the buffer: none when it
    succeeds, all of them when it fails. *)
Definition kept_after (self : InterfaceGGUF.t) (buf : list Z) : list Z :=
  if is_ok (outcome (InterfaceHF.get_audio self buf)) then [] else buf.

(** Each piece is the tokens kept from before and the fresh ones; what
    is kept is what the decoding of the piece before has left, [kept0]
    for the first. *)
Fixpoint resent (self : InterfaceGGUF.t) (kept0 : list Z)
    (pieces : list (list Z * list Z)) : Prop :=
  match pieces with
  | [] => True
  | (kept, fresh) :: rest =>
      kept = kept0 /\ resent self (kept_after self (kept ++ fresh)) rest
  end.

(** What the pieces leave in the buffer. *)
Fixpoint kept_at_end (self : InterfaceGGUF.t) (kept0 : list Z)
    (pieces : list (list Z * list Z)) : list Z :=
  match pieces with
  | [] => kept0
  | (kept, fresh) :: rest =>
      kept_at_end self (kept_after self (kept ++ fresh)) rest
  end.

Definition buffer_of (piece : list Z * list Z) : list Z :=
  piece.1 ++ piece.2.

Lemma resent_app self kept0 ps qs :
  resent self kept0 ps -> resent self (kept_at_end self kept0 ps) qs ->
  resent self kept0 (ps ++ qs).
Proof.
  revert kept0. induction ps as [|[k f] ps IH]; intros kept0; [done|].
  cbn. intros [-> Hps] Hqs. split; [done|]. by apply IH.
Qed.

Lemma kept_at_end_app self kept0 ps qs :
  kept_at_end self kept0 (ps ++ qs)
  = kept_at_end self (kept_at_end self kept0 ps) qs.
Proof.
  revert kept0. induction ps as [|[k f] ps IH]; intros kept0; [done|].
  cbn. apply IH.
Qed.

(** One turn of the loop, on a buffer of kept and fresh tokens: either
    nothing is decoded and the token joins the fresh ones, or the whole
    buffer is one more piece. *)
Lemma stream_step_pieces (self : InterfaceGGUF.t) chunk_size kept fresh tok :
  chunk_size <> 0 ->
  exists t pieces fresh',
    InterfaceGGUF.stream_step self chunk_size (kept ++ fresh) tok
    = (t, Ok (kept_at_end self kept pieces ++ fresh')) /\
    decoded_buffers t = map buffer_of pieces /\
    resent self kept pieces /\
    fresh ++ [tok] = concat (map snd pieces) ++ fresh'.
Proof.
  intros Hc. unfold InterfaceGGUF.stream_step.
  destruct (Z.eqb_spec chunk_size 0); [done|].
  rewrite <- !app_assoc. set (b := kept ++ fresh ++ [tok]).
  destruct (_ mod _ =? 0).
  2:{ exists [], [], (fresh ++ [tok]). by cbn. }
  destruct (get_audio_trace self b) as [_ Hb].
  assert (kept_at_end self kept [(kept, fresh ++ [tok])] = kept_after self b)
    as Hkept by reflexivity.
  assert (map buffer_of [(kept, fresh ++ [tok])] = [b]) as Hbuf
    by reflexivity.
  unfold kept_after in Hkept.
  destruct (InterfaceHF.get_audio self b) as [t [a|e]];
    cbn [trace fst outcome snd is_ok] in Hb, Hkept; run_m.
  - eexists _, [(kept, fresh ++ [tok])], []. rewrite Hkept, Hbuf.
    split; [reflexivity|]. split; [by rewrite decoded_buffers_app, Hb|].
    split; [done|]. cbn. by rewrite !app_nil_r.
  - destruct (verbose self); run_m;
      (eexists _, [(kept, fresh ++ [tok])], [];
       rewrite Hkept, Hbuf, (app_nil_r b);
       split; [reflexivity|];
       split; [by rewrite ?decoded_buffers_app, Hb, ?app_nil_r|];
       split; [done|]; cbn; by rewrite !app_nil_r).
Qed.

Lemma stream_loop_pieces (self : InterfaceGGUF.t) chunk_size tokens :
  chunk_size <> 0 -> forall kept fresh,
  exists t pieces fresh',
    InterfaceGGUF.stream_loop self chunk_size tokens (kept ++ fresh)
    = (t, Ok (kept_at_end self kept pieces ++ fresh')) /\
    decoded_buffers t = map buffer_of pieces /\
    resent self kept pieces /\
    fresh ++ tokens = concat (map snd pieces) ++ fresh'.
Proof.
  intros Hc. induction tokens as [|tok rest IH]; intros kept fresh.
  { exists [], [], fresh. cbn. by rewrite app_nil_r. }
  cbn [InterfaceGGUF.stream_loop].
  destruct (stream_step_pieces self chunk_size kept fresh tok Hc)
    as (t1 & ps & fresh1 & -> & Hb1 & Hr1 & Hf1).
  destruct (IH (kept_at_end self kept ps) fresh1)
    as (t2 & qs & fresh2 & Hloop & Hb2 & Hr2 & Hf2).
  exists (t1 ++ t2), (ps ++ qs), fresh2.
  split; [by rewrite bind_Ok, Hloop, kept_at_end_app|].
  split; [by rewrite decoded_buffers_app, Hb1, Hb2, map_app|].
  split; [by apply resent_app|].
  rewrite map_app, concat_app, <- app_assoc, <- Hf2, app_assoc, <- Hf1.
  by rewrite <- app_assoc.
Qed.

(** X12.  Whether or not decodings fail, [generate_stream] drops no
    token and repeats none but those of a failed chunk.  When the
    backend's stream ends without an exception and [chunk_size] is not
    zero, each buffer given to [get_audio] is made of the tokens kept
    from the decoding before (none when that one succeeded or there was
    none, its whole buffer when it failed) followed by fresh tokens of the
    stream; and the fresh tokens of all the buffers, joined in order, are
    the streamed tokens, each at its place. *)
Theorem generate_stream_hands_over_every_token (self : InterfaceGGUF.t) text
    speaker temp rp n chunk_size extra ids tokens :
  outcome (InterfaceGGUF.prepare_prompt self text speaker) = Ok ids ->
  n <= max_seq_length (config self) ->
  gguf_generate_stream (model self) ids
    {| temperature := temp; repetition_penalty := rp; max_length := Some n;
       additional_gen_config := extra |} = (tokens, None) ->
  chunk_size <> 0 ->
  let run := InterfaceGGUF.generate_stream self text speaker temp rp (Some n)
               chunk_size extra in
  exists pieces,
    decoded_buffers (trace run) = map buffer_of pieces /\
    resent self [] pieces /\
    concat (map snd pieces) = tokens.
Proof.
  intros Hprep Hn Hgen Hc run. subst run.
  destruct (generate_stream_rest self text speaker temp rp n chunk_size extra
              ids tokens None Hprep Hn Hgen) as (_ & _ & ->).
  unfold stream_rest.
  destruct (stream_loop_pieces self chunk_size tokens Hc [] [])
    as (t & ps & fresh & Hloop & Hb & Hr & Hf).
  cbn [app] in Hloop, Hf. rewrite Hloop, bind_Ok. cbn [trace fst].
  rewrite decoded_buffers_app, trace_bind.
  cbn [outcome mret M_ret ret snd trace fst app].
  destruct (kept_at_end self [] ps ++ fresh) as [|tok' rest'] eqn:Hbuf.
  - apply app_eq_nil in Hbuf as [_ ->]. rewrite app_nil_r in Hf.
    exists ps. split; [|done]. rewrite Hb.
    destruct (verbose self); cbn; by rewrite app_nil_r.
  - exists (ps ++ [(kept_at_end self [] ps, fresh)]).
    split; [|split].
    + rewrite map_app, Hb. f_equal. rewrite trace_bind, decoded_buffers_app.
      rewrite trace_bind, decoded_buffers_app.
      rewrite (proj2 (get_audio_trace self (tok' :: rest'))).
      change (map buffer_of [(kept_at_end self [] ps, fresh)])
        with [kept_at_end self [] ps ++ fresh].
      rewrite Hbuf, outcome_bind.
      destruct (outcome (InterfaceHF.get_audio self (tok' :: rest')));
        cbn; [|done]. by destruct (verbose self).
    + apply resent_app; [done|]. by cbn.
    + rewrite map_app, concat_app. cbn. by rewrite app_nil_r.
Qed.
End EveryToken.

Section SampleEveryToken.
#[local] Existing Instance Sample.env.

(** The run in which the first chunk fails to decode: its two tokens
    are sent again with the next two. *)
Lemma generate_stream_hands_over_every_token_witness :
  let temp : @float Sample.env := Sample.Hundredths 10 in
  let rp : @float Sample.env := Sample.Hundredths 110 in
  let self := Sample.flaky [10; 10; 10; 10] in
  let run := InterfaceGGUF.generate_stream self "hi" None temp rp (Some 4096)
               2 tt in
  decoded_buffers (trace run) = [[10; 10]; [10; 10; 10; 10]] /\
  exists pieces,
    decoded_buffers (trace run) = map buffer_of pieces /\
    resent self [] pieces /\
    concat (map snd pieces) = [10; 10; 10; 10].
Proof.
  intros temp rp self run.
  split; [reflexivity|].
  apply (generate_stream_hands_over_every_token self "hi" None temp rp 4096 2
           tt (lit "en: hi") [10; 10; 10; 10]);
    first [reflexivity|discriminate|cbn; lia].
Defined.
End SampleEveryToken.

(** ** Saving and playing an output *)
Section OutputFacts.
Context `{Env} {ndarray : Type}.

(** The calls into [sounddevice]. *)
Definition sound_calls (t : list (device_event ndarray))
    : list (device_event ndarray) :=
  List.filter (fun ev => match ev with
                         | CallSdPlay _ _ | CallSdWait => true
                         | _ => false
                         end) t.

(** The files that [torchaudio.save] is asked to write: path, tensor and
    sample rate. *)
Definition saved_files (t : list (device_event ndarray))
    : list (string * Tensor * Z) :=
  omap (fun ev => match ev with
                  | CallTorchaudioSave path src rate _ _ =>
                      Some (path, src, rate)
                  | _ => None
                  end) t.

Definition empty_playback_warning : device_event ndarray :=
  LogWarning "Audio is empty, skipping playback.".
Definition disabled_playback_warning : device_event ndarray :=
  LogWarning "Audio playback is disabled. Check sounddevice installation.".

(** X13.  [play] never raises: without audio it logs a warning, with
    playback disabled in the output it logs another, and otherwise every
    exception of the tensor conversion or of [sounddevice] is caught and
    logged as an error.  The sound device is touched only when the
    output holds audio, its [enable_playback] is set and the module
    could import [sounddevice]. *)
Theorem play_never_raises (dev : Devices ndarray) (self : ModelOutput) :
  snd (ModelOutputMethods.play dev self) = Ok tt /\
  (audio self = None ->
   fst (ModelOutputMethods.play dev self) = [empty_playback_warning]) /\
  (audio self <> None -> enable_playback self = false ->
   fst (ModelOutputMethods.play dev self) = [disabled_playback_warning]) /\
  (audio self <> None -> enable_playback self = true ->
   ENABLE_PLAYBACK = false ->
   fst (ModelOutputMethods.play dev self)
   = [LogError "name 'sd' is not defined"]) /\
  (sound_calls (fst (ModelOutputMethods.play dev self)) <> [] ->
   audio self <> None /\ enable_playback self = true /\
   ENABLE_PLAYBACK = true).
Proof.
  unfold ModelOutputMethods.play, ModelOutputMethods.sd_module.
  destruct (audio self) as [a|]; [|by repeat split].
  destruct (enable_playback self); cbn [negb]; [|by repeat split].
  destruct ENABLE_PLAYBACK; cbn; [|by repeat split].
  destruct (first_channel dev a) as [data|e]; cbn; [|by repeat split].
  destruct (sd_play dev data (sr self)) as [[]|e]; cbn; [|by repeat split].
  destruct (sd_wait dev) as [[]|e]; cbn; by repeat split.
Qed.

(** What [save] and [play] do with an output that the interface [self]
    has produced: [save] asks [torchaudio] for one file at the sample
    rate of the codec, or for none when there is no audio or the tensor
    cannot be moved; and when [sounddevice] could not be imported,
    [play] only logs a warning. *)
Definition saved_at_codec_rate {Model} (self : Interface Model)
    (out : ModelOutput) : Prop :=
  forall (dev : Devices ndarray) path,
    saved_files (fst (ModelOutputMethods.save dev out path))
    = match audio out with
      | None => []
      | Some a =>
          match tensor_cpu dev a with
          | Ok src => [(path, src, codec_sr (audio_codec self))]
          | Raise _ => []
          end
      end.

Definition play_only_warns (out : ModelOutput) : Prop :=
  forall dev : Devices ndarray,
    ModelOutputMethods.play dev out
    = ([match audio out with
         | Some _ => disabled_playback_warning
         | None => empty_playback_warning
         end], Ok tt).

Lemma built_output_devices {Model} (self : Interface Model) out :
  built_by self out ->
  saved_at_codec_rate self out /\
  (ENABLE_PLAYBACK = false -> play_only_warns out).
Proof.
  intros [Hsr Hplay]. split.
  - intros dev path. unfold ModelOutputMethods.save. rewrite Hsr.
    destruct (audio out) as [a|]; [|done]. cbn.
    by destruct (tensor_cpu dev a).
  - intros Hoff dev. unfold ModelOutputMethods.play.
    rewrite Hplay, Hoff. by destruct (audio out).
Qed.

(** X14.  An output that [generate] returns, on any of the three
    interfaces, is saved at the sample rate of the interface's codec:
    [save] asks [torchaudio] for exactly one file, at that rate, and for
    none when no audio was found.  When [sounddevice] could not be
    imported, [play] on such an output only logs a warning. *)
Theorem generated_output_save_and_play text speaker temp rp ml extra :
  (forall (self : InterfaceHF.t) out,
     outcome (InterfaceHF.generate self text speaker temp rp ml extra)
     = Ok out ->
     saved_at_codec_rate self out /\
     (ENABLE_PLAYBACK = false -> play_only_warns out)) /\
  (forall (self : InterfaceGGUF.t) out,
     outcome (InterfaceGGUF.generate self text speaker temp rp ml extra)
     = Ok out ->
     saved_at_codec_rate self out /\
     (ENABLE_PLAYBACK = false -> play_only_warns out)) /\
  (forall (self : InterfaceEXL2.t) dyn out,
     outcome (InterfaceEXL2.generate self text speaker temp rp ml extra dyn)
     = Ok out ->
     saved_at_codec_rate self out /\
     (ENABLE_PLAYBACK = false -> play_only_warns out)).
Proof.
  split; [|split].
  - intros self out Hrun.
    by apply built_output_devices, (generate_HF_output self text speaker temp
                                      rp ml extra).
  - intros self out Hrun.
    by apply built_output_devices, (generate_GGUF_output self text speaker
                                      temp rp ml extra).
  - intros self dyn out Hrun.
    by apply built_output_devices, (generate_EXL2_output self text speaker
                                      temp rp ml extra dyn).
Qed.
End OutputFacts.

Section SampleOutputs.
#[local] Existing Instance Sample.env.

(** The output of the sample GGUF interface, saved and played on devices
    that accept everything; the sample module has no [sounddevice]. *)
Lemma generated_output_save_and_play_witness :
  let temp : @float Sample.env := Sample.Hundredths 10 in
  let rp : @float Sample.env := Sample.Hundredths 110 in
  let self := Sample.gguf [1000; 7; 8; 1001] in
  let out := mkModelOutput (Some [7; 8]) 24000 in
  outcome (InterfaceGGUF.generate self "hi" None temp rp (Some 4096) tt)
  = Ok out /\
  saved_files (fst (ModelOutputMethods.save Sample.devices out "out.wav"))
  = [("out.wav", [7; 8], 24000)] /\
  ModelOutputMethods.play Sample.devices out
  = ([disabled_playback_warning], Ok tt).
Proof.
  intros temp rp self out.
  assert (outcome (InterfaceGGUF.generate self "hi" None temp rp (Some 4096)
                     tt) = Ok out) as Hrun by reflexivity.
  split; [exact Hrun|].
  destruct (proj1 (proj2 (generated_output_save_and_play (ndarray := list Z)
                            "hi" None temp rp (Some 4096) tt)) self out Hrun)
    as [Hsave Hplay].
  split; [exact (Hsave Sample.devices "out.wav")|].
  exact (Hplay eq_refl Sample.devices).
Defined.

(** An output made with [enable_playback=True] in a module that could
    not import [sounddevice]: the unbound name is caught and logged. *)
Lemma play_never_raises_witness :
  let out : ModelOutput :=
    {| audio := Some [7; 8]; sr := 24000; enable_playback := true |} in
  audio out <> None /\
  enable_playback out = true /\
  ENABLE_PLAYBACK = false /\
  ModelOutputMethods.play Sample.devices out
  = ([LogError "name 'sd' is not defined"], Ok tt).
Proof.
  intros out.
  assert (audio out <> None) as Haudio by discriminate.
  split; [exact Haudio|]. split; [reflexivity|]. split; [reflexivity|].
  destruct (play_never_raises Sample.devices out)
    as (Hout & _ & _ & Hname & _).
  rewrite (surjective_pairing (ModelOutputMethods.play Sample.devices out)).
  rewrite (Hname Haudio eq_refl eq_refl), Hout. reflexivity.
Defined.
End SampleOutputs.

(** ** More on speaker enrollment *)
Section EnrollmentCalls.
Context `{Env}.

(** The transcript that [create_speaker] works with: the one given, or
    the one that whisper returns. *)
Definition transcript_is (audio_path : string) (transcript : option str)
    (whisper_model : string) (whisper_device : option string)
    (text : str) : Prop :=
  match transcript with
  | Some given => text = given
  | None => transcribe_once audio_path whisper_model whisper_device = Ok text
  end.

(** What is in the trace before the alignment. *)
Definition transcription_events (audio_path : string)
    (transcript : option str) (whisper_model : string) : list event :=
  match transcript with
  | Some _ => []
  | None =>
      [Log INFO "Transcription not provided, transcribing audio with whisper.";
       CallTranscribe audio_path whisper_model]
  end.

(** [create_speaker] from the alignment on. *)
Definition enroll_aligned {Model} (self : Interface Model)
    (audio_path : string) (text : str) : M json :=
  words ← call (CallAlign audio_path text (language self))
    (ctc_align (languages self) audio_path text (language self));
  emit CallFree;;
  full_codes ← call CallEncode
    (joined ← torch_cat (map (fun i => i.1.1.2) words);
     converted ← convert_audio_tensor (audio_codec self) joined
                   ctc_sample_rate;
     encode (audio_codec self) converted);
  data ← ([], InterfaceHF.slice_words full_codes words 0);
  mret (JObject [(lit "text", JString text);
                 (lit "words", JArray data);
                 (lit "language", JString (language self))]).

Lemma create_speaker_transcribed {Model} (self : Interface Model) audio_path
    transcript whisper_model whisper_device text :
  transcript_is audio_path transcript whisper_model whisper_device text ->
  InterfaceHF.create_speaker self audio_path transcript whisper_model
    whisper_device
  = ((transcription_events audio_path transcript whisper_model, Ok tt) : M unit)
    ≫= fun _ =>
         match text with
         | [] => raise (ValueError "Transcript text is empty")
         | _ :: _ => enroll_aligned self audio_path text
         end.
Proof.
  unfold InterfaceHF.create_speaker, transcript_is, transcription_events,
    enroll_aligned.
  destruct transcript as [given|].
  - intros ->. run_m. by destruct given.
  - intros ->. run_m. by destruct text.
Qed.

(** X15.  An empty transcript, given or returned by whisper, makes
    [create_speaker] raise [ValueError] before the aligner or the codec
    is called; and an exception of whisper is passed on in the same
    way. *)
Theorem create_speaker_empty_transcript {Model} (self : Interface Model)
    audio_path whisper_model whisper_device :
  let run transcript :=
    InterfaceHF.create_speaker self audio_path transcript whisper_model
      whisper_device in
  run (Some []) = ([], Raise (ValueError "Transcript text is empty")) /\
  (transcribe_once audio_path whisper_model whisper_device = Ok [] ->
   run None
   = (transcription_events audio_path None whisper_model,
      Raise (ValueError "Transcript text is empty"))) /\
  (forall e,
     transcribe_once audio_path whisper_model whisper_device = Raise e ->
     run None
     = (transcription_events audio_path None whisper_model, Raise e)).
Proof.
  intros run. subst run. cbn beta. split; [done|]. split.
  - intros Hempty.
    by rewrite (create_speaker_transcribed self audio_path None whisper_model
                  whisper_device [] Hempty).
  - intros e Hfail. unfold InterfaceHF.create_speaker. run_m.
    by rewrite Hfail.
Qed.

Definition is_call (ev : event) : bool :=
  match ev with Log _ _ => false | _ => true end.

(** The calls of a run into its collaborators, in order. *)
Definition calls (t : list event) : list event := List.filter is_call t.

(** X16.  A [create_speaker] that returns a profile has made exactly
    these calls, in this order: whisper, once, if and only if no
    transcript was given; the aligner, with the transcript as it is and
    the current language; [ctc.free()]; and the encoding.  *)
Theorem create_speaker_calls {Model} (self : Interface Model) audio_path
    transcript whisper_model whisper_device profile :
  outcome (InterfaceHF.create_speaker self audio_path transcript
             whisper_model whisper_device) = Ok profile ->
  exists text,
    transcript_is audio_path transcript whisper_model whisper_device text /\
    text <> [] /\
    calls (trace (InterfaceHF.create_speaker self audio_path transcript
                    whisper_model whisper_device))
    = match transcript with
      | Some _ => []
      | None => [CallTranscribe audio_path whisper_model]
      end ++
      [CallAlign audio_path text (language self); CallFree; CallEncode].
Proof.
  intros Hrun.
  assert (exists text,
            transcript_is audio_path transcript whisper_model whisper_device
              text) as [text Htext].
  { destruct transcript as [given|]; [by exists given|].
    unfold InterfaceHF.create_speaker in Hrun. run_m. cbn in Hrun |- *.
    destruct (transcribe_once _ _ _) as [text|e]; [by exists text|done]. }
  exists text. split; [done|].
  rewrite (create_speaker_transcribed _ _ _ _ _ _ Htext) in Hrun |- *.
  rewrite bind_Ok in Hrun |- *. cbn [outcome trace fst snd] in Hrun |- *.
  destruct text as [|c text]; [done|]. split; [done|].
  unfold calls. rewrite List.filter_app. f_equal; [by destruct transcript|].
  unfold enroll_aligned in Hrun |- *. run_m.
  destruct (ctc_align _ _ _ _) as [words|e]; run_m; [|done].
  destruct (mbind _ (torch_cat _)) as [full|e]; run_m; [|done].
  by destruct (InterfaceHF.slice_words full words 0).
Qed.

(** X17.  When the aligner raises, [create_speaker] raises the same
    exception and neither [ctc.free()] nor the codec is called.  When the
    aligner returns, [ctc.free()] is called before the encoding, whether
    or not the encoding then succeeds. *)
Theorem create_speaker_alignment_failure {Model} (self : Interface Model)
    audio_path transcript whisper_model whisper_device text :
  transcript_is audio_path transcript whisper_model whisper_device text ->
  text <> [] ->
  let run := InterfaceHF.create_speaker self audio_path transcript
               whisper_model whisper_device in
  let before := match transcript with
                | Some _ => []
                | None => [CallTranscribe audio_path whisper_model]
                end in
  let align := CallAlign audio_path text (language self) in
  match ctc_align (languages self) audio_path text (language self) with
  | Raise e => outcome run = Raise e /\ calls (trace run) = before ++ [align]
  | Ok _ => calls (trace run) = before ++ [align; CallFree; CallEncode]
  end.
Proof.
  intros Htext Hne run before align. subst run before align.
  rewrite (create_speaker_transcribed _ _ _ _ _ _ Htext), bind_Ok.
  cbn [outcome trace fst snd]. unfold calls. rewrite List.filter_app.
  destruct text as [|c text]; [done|].
  unfold enroll_aligned. run_m.
  destruct (ctc_align _ _ _ _) as [words|e]; run_m.
  - f_equal; [by destruct transcript|].
    destruct (mbind _ (torch_cat _)) as [full|e]; run_m; [|done].
    by destruct (InterfaceHF.slice_words full words 0).
  - split; [done|]. f_equal. by destruct transcript.
Qed.
End EnrollmentCalls.

Section CreatedProfiles.
Context `{FloatLaws}.

Lemma entries_wf row words : forall start,
  Forall wf_json (entries row words start).
Proof.
  induction words as [|i rest IH]; intros start; constructor; [|apply IH].
  unfold entry_of, InterfaceHF.word_entry. apply wf_json_object. split.
  - cbn [map fst]. apply (bool_decide_unpack _). done.
  - repeat constructor; cbn [snd]; try done.
    apply wf_json_array, Forall_map, Forall_forall. by intros.
Qed.

(** A profile made by [create_speaker] is a proper JSON value. *)
Lemma created_profile_wf {Model} (self : Interface Model) audio_path
    transcript whisper_model whisper_device profile :
  outcome (InterfaceHF.create_speaker self audio_path transcript
             whisper_model whisper_device) = Ok profile ->
  wf_json profile.
Proof.
  intros (text & words & row & [_ _ _ _ ->])%create_speaker_Ok.
  apply wf_json_object. split.
  - cbn [map fst]. apply (bool_decide_unpack _). done.
  - repeat constructor; cbn [snd]; try done.
    apply wf_json_array, entries_wf.
Qed.

Lemma entries_text row words : forall start,
  Forall (fun i => well_formed (word_of i)) words ->
  Forall (all_strings well_formed) (entries row words start).
Proof.
  intros start Hwords. revert start.
  induction Hwords as [|i rest Hi _ IH]; intros start; constructor;
    [|apply IH].
  unfold entry_of, InterfaceHF.word_entry. apply all_strings_object.
  constructor; [split; [apply lit_well_formed|exact Hi]|].
  constructor; [split; [apply lit_well_formed|done]|].
  constructor; [split; [apply lit_well_formed|]|constructor].
  apply all_strings_array, Forall_map, Forall_forall. by intros.
Qed.

(** The strings of a created profile are the transcript, the words of
    the aligner, the language and the keys. *)
Lemma created_profile_text {Model} (self : Interface Model) audio_path
    transcript whisper_model whisper_device profile text words row :
  enrolled self audio_path transcript whisper_model whisper_device profile
    text words row ->
  well_formed text -> Forall (fun i => well_formed (word_of i)) words ->
  all_strings well_formed profile.
Proof.
  intros [_ _ _ _ ->] Htext Hwords. apply all_strings_object.
  constructor; [split; [apply lit_well_formed|exact Htext]|].
  constructor; [split; [apply lit_well_formed|]|].
  { by apply all_strings_array, entries_text. }
  constructor; [split; apply lit_well_formed|constructor].
Qed.

(** X18.  Enrollment and persistence compose, in any language.  A run
    of [create_speaker] that returns a profile has worked with a
    transcript and with the words of the aligner; when neither the
    transcript nor a word has a high surrogate directly before a low one,
    the profile, saved with [save_speaker] and loaded again from the same
    path, is the profile that was created, with every word, duration and
    code list. *)
Theorem created_profile_round_trips {Model} (self : Interface Model)
    audio_path transcript whisper_model whisper_device profile :
  outcome (InterfaceHF.create_speaker self audio_path transcript
             whisper_model whisper_device) = Ok profile ->
  exists text words,
    transcript_is audio_path transcript whisper_model whisper_device text /\
    ctc_align (languages self) audio_path text (language self) = Ok words /\
    (well_formed text -> Forall (fun i => well_formed (word_of i)) words ->
     forall path fs fs',
       InterfaceHF.save_speaker self profile path fs = (fs', Ok tt) ->
       InterfaceHF.load_speaker self path fs' = Ok profile).
Proof.
  intros Hrun. pose proof (created_profile_wf _ _ _ _ _ _ Hrun) as Hwf.
  apply create_speaker_Ok in Hrun as (text & words & row & Hen).
  exists text, words. split; [|split].
  - destruct Hen as [Htext _ _ _ _]. by destruct transcript.
  - by destruct Hen.
  - intros Htext Hwords path fs fs' [_ Hfile]%write_file_Ok.
    unfold InterfaceHF.load_speaker. rewrite Hfile.
    cbn [mbind result_bind]. apply json_loads_dumps; [done|].
    by eapply created_profile_text.
Qed.
End CreatedProfiles.

Section SampleEnrollmentCalls.
#[local] Existing Instance Sample.env.
#[local] Existing Instance SampleFacts.float_laws.

Definition hello_world_profile : json :=
  JObject [(lit "text", JString "hello world");
           (lit "words",
            JArray [InterfaceHF.word_entry "hello" (Sample.Hundredths 4)
                      [11; 12; 13];
                    InterfaceHF.word_entry "world" (Sample.Hundredths 4)
                      [14; 15; 16]]);
           (lit "language", JString "en")].

(** Enrollment of the sample recording without a transcript. *)
Lemma create_speaker_calls_witness :
  let self := Sample.hf [] in
  let run := InterfaceHF.create_speaker self "hello_world.wav" None "turbo"
               None in
  outcome run = Ok hello_world_profile /\
  exists text,
    transcript_is "hello_world.wav" None "turbo" None text /\
    text <> [] /\
    calls (trace run)
    = [CallTranscribe "hello_world.wav" "turbo"] ++
      [CallAlign "hello_world.wav" text (language self); CallFree;
       CallEncode].
Proof.
  intros self run.
  assert (outcome run = Ok hello_world_profile) as Hrun by reflexivity.
  split; [exact Hrun|].
  exact (create_speaker_calls self "hello_world.wav" None "turbo" None
           hello_world_profile Hrun).
Defined.

(** A recording that the sample aligner does not know. *)
Lemma create_speaker_alignment_failure_witness :
  let self := Sample.hf [] in
  let run := InterfaceHF.create_speaker self "missing.wav" (Some (lit "hi"))
               "turbo" None in
  transcript_is "missing.wav" (Some (lit "hi")) "turbo" None "hi" /\
  outcome run = Raise (FileNotFoundError "missing.wav") /\
  calls (trace run) = [] ++ [CallAlign "missing.wav" "hi" (language self)].
Proof.
  intros self run.
  split; [reflexivity|].
  exact (create_speaker_alignment_failure self "missing.wav"
           (Some (lit "hi")) "turbo" None "hi" eq_refl ltac:(discriminate)).
Defined.

(** The Japanese recording, enrolled with its transcript on an interface
    whose language is Japanese. *)
Definition ohayou_profile : json :=
  JObject [(lit "text",
            JString (Sample.ohayou ++ Sample.gozaimasu ++ Sample.yoshi));
           (lit "words",
            JArray [InterfaceHF.word_entry Sample.ohayou (Sample.Hundredths 4)
                      [21; 22; 23];
                    InterfaceHF.word_entry (Sample.gozaimasu ++ Sample.yoshi)
                      (Sample.Hundredths 3) [24; 25]]);
           (lit "language", JString "ja")].

Lemma created_profile_round_trips_witness :
  let self := set_language (Sample.hf []) "ja" in
  let transcript := Sample.ohayou ++ Sample.gozaimasu ++ Sample.yoshi in
  let path := "/home/user/ohayou.json" in
  let saved := set_file Sample.fs path (json_dumps ohayou_profile 2) in
  outcome (InterfaceHF.create_speaker self "ohayou.wav" (Some transcript)
             "turbo" None)
  = Ok ohayou_profile /\
  InterfaceHF.save_speaker self ohayou_profile path Sample.fs
  = (saved, Ok tt) /\
  InterfaceHF.load_speaker self path saved = Ok ohayou_profile.
Proof.
  intros self transcript path saved.
  assert (outcome (InterfaceHF.create_speaker self "ohayou.wav"
                     (Some transcript) "turbo" None) = Ok ohayou_profile)
    as Hrun by reflexivity.
  assert (InterfaceHF.save_speaker self ohayou_profile path Sample.fs
          = (saved, Ok tt)) as Hsave by reflexivity.
  split; [exact Hrun|]. split; [exact Hsave|].
  destruct (created_profile_round_trips self "ohayou.wav" (Some transcript)
              "turbo" None ohayou_profile Hrun)
    as (text & words & Htext & Hwords & Hround).
  cbn in Htext. subst text.
  assert (words = [(Sample.ohayou, [21; 22; 23], 0, 4);
                   (Sample.gozaimasu ++ Sample.yoshi, [24; 25], 4, 7)])
    as -> by (injection Hwords as <-; reflexivity).
  apply (Hround ltac:(by split) ltac:(by repeat constructor) path Sample.fs
           saved Hsave).
Defined.
End SampleEnrollmentCalls.

Section Durations.
Context `{Env}.

(** X30.  The duration of every word of a created profile is computed
    from the codes that the word ends up with,
    [round(len(codes) / 75, 2)], after an empty slice has been replaced by
    the placeholder: a word without tokens of its own has the duration of
    one token, not zero. *)
Theorem create_speaker_durations_follow_codes {Model}
    (self : Interface Model) audio_path transcript whisper_model
    whisper_device profile :
  outcome (InterfaceHF.create_speaker self audio_path transcript
             whisper_model whisper_device) = Ok profile ->
  Forall (fun entry =>
            entry_duration entry
            = Some (round_ndigits
                      (int_truediv (Z.of_nat (length (entry_codes entry))) 75)
                      2))
    (profile_words profile) /\
  Forall (fun entry =>
            entry_codes entry = [1] ->
            entry_duration entry
            = Some (round_ndigits (int_truediv 1 75) 2))
    (profile_words profile).
Proof.
  intros Hdur%create_speaker_durations. split; [exact Hdur|].
  eapply Forall_impl; [exact Hdur|].
  intros entry Hentry Hcodes. cbn beta in Hentry.
  rewrite Hentry. unfold duration_of. by rewrite Hcodes.
Qed.
End Durations.

Section SampleDurations.
#[local] Existing Instance Sample.env.

(** The sample recording whose second word has no tokens of its own. *)
Lemma create_speaker_durations_follow_codes_witness :
  let self := Sample.hf [] in
  let profile :=
    JObject [(lit "text", JString "so well");
             (lit "words",
              JArray [InterfaceHF.word_entry "so" (Sample.Hundredths 4)
                        [11; 12; 13];
                      InterfaceHF.word_entry "well" (Sample.Hundredths 1)
                        [1]]);
             (lit "language", JString "en")] in
  outcome (InterfaceHF.create_speaker self "pause.wav" (Some (lit "so well"))
             "turbo" None) = Ok profile /\
  Forall (fun entry =>
            entry_codes entry = [1] ->
            entry_duration entry
            = Some (round_ndigits (int_truediv 1 75) 2))
    (profile_words profile).
Proof.
  intros self profile.
  assert (outcome (InterfaceHF.create_speaker self "pause.wav"
                     (Some (lit "so well")) "turbo" None) = Ok profile) as Hrun
    by reflexivity.
  split; [exact Hrun|].
  exact (proj2 (create_speaker_durations_follow_codes self "pause.wav"
                  (Some (lit "so well")) "turbo" None profile Hrun)).
Defined.
End SampleDurations.

(** ** More on the files of speaker profiles *)
Section ParsedStrings.
Context `{Env}.

(** A Unicode scalar value: a code point that is no surrogate.  The
    text that decoding a file gives consists of these. *)
Definition is_scalar (c : Z) : bool :=
  is_code_point c && negb (is_high_surrogate c) &&
  negb (is_low_surrogate c).

Definition scalar_text (s : str) : Prop := Forall (fun c => is_scalar c = true) s.

Lemma hex_value_range c d : hex_value c = Some d -> 0 <= d < 16.
Proof.
  unfold hex_value.
  destruct (Z.leb_spec 48 c), (Z.leb_spec c 57); cbn [andb];
    try (intros [= <-]; lia);
    destruct (Z.leb_spec 97 c), (Z.leb_spec c 102); cbn [andb];
    try (intros [= <-]; lia);
    destruct (Z.leb_spec 65 c), (Z.leb_spec c 70); cbn [andb];
    try (intros [= <-]; lia); done.
Qed.

Lemma hex4_range a b c d n : hex4 a b c d = Some n -> 0 <= n < 0x10000.
Proof.
  unfold hex4.
  destruct (hex_value a) as [a'|] eqn:Ha; [|done].
  destruct (hex_value b) as [b'|] eqn:Hb; [|done].
  destruct (hex_value c) as [c'|] eqn:Hc; [|done].
  destruct (hex_value d) as [d'|] eqn:Hd; [|done].
  cbn. intros [= <-].
  apply hex_value_range in Ha, Hb, Hc, Hd. lia.
Qed.

Lemma unescape_ascii c ch : unescape c = Some ch -> 0 <= ch < 128.
Proof.
  unfold unescape.
  repeat (destruct (_ =? _); [intros [= <-]; lia|]). done.
Qed.

(** Two surrogates joined are a character beyond the basic plane. *)
Lemma join_surrogates_range high low :
  is_high_surrogate high = true -> is_low_surrogate low = true ->
  0x10000 <= join_surrogates high low < 0x110000.
Proof.
  unfold is_high_surrogate, is_low_surrogate.
  intros [H1 H2]%andb_prop [H3 H4]%andb_prop.
  apply Z.leb_le in H1, H2, H3, H4. unfold join_surrogates.
  replace high with (54 * 1024 + (high - 0xD800)) by lia.
  replace low with (55 * 1024 + (low - 0xDC00)) by lia.
  rewrite !land_low by lia.
  rewrite Z.shiftl_mul_pow2 by lia. change (2 ^ 10) with 1024.
  rewrite lor_high by lia. lia.
Qed.

Lemma is_str_cons c s :
  is_code_point c = true -> is_str s -> is_str (c :: s).
Proof. intros Hc Hs. unfold is_str in *. cbn. by rewrite Hc. Qed.

Lemma code_point_range c : 0 <= c < 0x110000 -> is_code_point c = true.
Proof.
  intros Hc. unfold is_code_point. apply andb_true_intro.
  split; [apply Z.leb_le|apply Z.ltb_lt]; lia.
Qed.

Lemma not_high_range c :
  c < 0xD800 \/ 0xDBFF < c -> is_high_surrogate c = false.
Proof.
  intros Hc. unfold is_high_surrogate.
  destruct (Z.leb_spec 0xD800 c), (Z.leb_spec c 0xDBFF); try done. lia.
Qed.

Lemma not_low_range c :
  c < 0xDC00 \/ 0xDFFF < c -> is_low_surrogate c = false.
Proof.
  intros Hc. unfold is_low_surrogate.
  destruct (Z.leb_spec 0xDC00 c), (Z.leb_spec c 0xDFFF); try done. lia.
Qed.

Lemma is_scalar_spec c :
  is_scalar c = true ->
  is_code_point c = true /\ is_high_surrogate c = false /\
  is_low_surrogate c = false.
Proof.
  unfold is_scalar. intros [[H1 H2]%andb_prop H3]%andb_prop.
  by apply negb_true_iff in H2, H3.
Qed.

(** What [scanstring] has read: a string that is well formed; its first
    character is a low surrogate only if the text began with the escape
    of one; and what is left is the end of the text. *)
Definition scanned (s cs rest : str) : Prop :=
  well_formed cs /\
  match cs with
  | c :: _ => is_low_surrogate c = true -> low_escape_ahead s = true
  | [] => True
  end /\
  exists pre, s = pre ++ rest.

(** One more character in front of what has been read. *)
Lemma scanned_prepend s s' c cs rest pre :
  s = pre ++ s' ->
  is_code_point c = true ->
  (is_low_surrogate c = true -> low_escape_ahead s = true) ->
  (is_high_surrogate c = true -> low_escape_ahead s' = false) ->
  scanned s' cs rest -> scanned s (c :: cs) rest.
Proof.
  intros -> Hc Hlow Hhigh ([Hstr Hpairs] & Hhead & pre' & ->).
  split; [split|split].
  - by apply is_str_cons.
  - cbn [no_surrogate_pair]. rewrite Hpairs, andb_true_r.
    apply negb_true_iff. destruct (is_high_surrogate c) eqn:Hh; [|done].
    cbn [andb]. destruct cs as [|c' cs]; [done|].
    destruct (is_low_surrogate c') eqn:Hl; [|done].
    rewrite Hhead in Hhigh by done. by discriminate Hhigh.
  - done.
  - exists (pre ++ pre'). by rewrite app_assoc.
Qed.

Lemma low_escape_ahead_no_escape b s :
  b <> 92 -> low_escape_ahead (b :: s) = false.
Proof.
  intros Hb. destruct s as [|u r]; [done|]. cbn.
  by destruct (Z.eqb_spec b 92).
Qed.

Lemma low_escape_ahead_short_escape u s :
  u <> 117 -> low_escape_ahead (92 :: u :: s) = false.
Proof. intros Hu. cbn. by destruct (Z.eqb_spec u 117). Qed.

Lemma low_escape_ahead_short s :
  (length s < 7)%nat -> low_escape_ahead s = false.
Proof.
  intros Hlen.
  destruct s as [|b [|u [|k1 [|k2 [|k3 [|k4 [|x r]]]]]]]; cbn;
    try done; try (by destruct ((b =? 92) && (u =? 117))).
  cbn in Hlen. lia.
Qed.

Lemma prepend_Ok {A} (c : A) r cs rest :
  prepend c r = Ok (cs, rest) ->
  exists cs', r = Ok (cs', rest) /\ cs = c :: cs'.
Proof.
  unfold prepend. destruct r as [[cs' rest']|e]; [|done].
  cbn. intros [= <- <-]. by exists cs'.
Qed.

Lemma scanstring_scanned n : forall s cs rest,
  (length s <= n)%nat -> scalar_text s ->
  scanstring s = Ok (cs, rest) -> scanned s cs rest.
Proof.
  induction n as [|n IH]; intros s cs rest Hlen Hs.
  { destruct s; [done|cbn in Hlen; lia]. }
  destruct s as [|c r]; [done|].
  apply Forall_cons in Hs as [Hc Hr].
  apply is_scalar_spec in Hc as (Hcp & Hnh & Hnl).
  cbn [length] in Hlen. cbn [scanstring].
  destruct (Z.eqb_spec c 34) as [->|Hq].
  { intros [= <- <-]. split; [by split|]. split; [done|]. by exists [34]. }
  destruct (Z.eqb_spec c 92) as [->|Hb].
  2:{ destruct (Z.leb_spec c 31); [done|].
      intros (cs' & Hrest & ->)%prepend_Ok.
      apply (scanned_prepend _ r c cs' rest [c]); try done.
      - by rewrite Hnl.
      - by rewrite Hnh.
      - apply IH; [lia|done..]. }
  destruct r as [|esc r1]; [done|].
  apply Forall_cons in Hr as [_ Hr1]. cbn [length] in Hlen.
  destruct (Z.eqb_spec esc 117) as [->|Hu].
  2:{ destruct (unescape esc) as [ch|] eqn:Hesc; [|done].
      apply unescape_ascii in Hesc.
      intros (cs' & Hrest & ->)%prepend_Ok.
      apply (scanned_prepend _ r1 ch cs' rest [92; esc]); try done.
      - apply code_point_range. lia.
      - rewrite not_low_range by lia. done.
      - rewrite not_high_range by lia. done.
      - apply IH; [lia|done..]. }
  destruct r1 as [|h1 [|h2 [|h3 [|h4 r2]]]]; try done.
  destruct r2 as [|b r2']; [done|].
  set (r2 := b :: r2') in *.
  assert (scalar_text r2) as Hr2.
  { by do 4 apply Forall_cons in Hr1 as [_ Hr1]. }
  assert (length r2 <= n)%nat as Hlen2 by (cbn [length] in Hlen |- *; lia).
  destruct (hex4 h1 h2 h3 h4) as [m|] eqn:Hhex; [|done].
  pose proof (hex4_range _ _ _ _ _ Hhex) as Hm.
  assert (forall cs',
            is_high_surrogate m && low_escape_ahead r2 = false ->
            scanstring r2 = Ok (cs', rest) ->
            scanned (92 :: 117 :: h1 :: h2 :: h3 :: h4 :: r2) (m :: cs') rest)
    as Hlone.
  { intros cs' Hpair Hrest.
    apply (scanned_prepend _ r2 m cs' rest [92; 117; h1; h2; h3; h4]);
      try done.
    - apply code_point_range. lia.
    - intros Hlow. unfold r2. cbn. by rewrite Hhex.
    - intros Hhigh. by rewrite Hhigh in Hpair.
    - by apply IH. }
  unfold r2 at 1. unfold r2 at 1 in Hlone.
  destruct r2' as [|u [|k1 [|k2 [|k3 [|k4 [|x r3]]]]]];
    try (intros (cs' & Hrest & ->)%prepend_Ok; apply Hlone; [|done];
         rewrite low_escape_ahead_short by (cbn; lia);
         apply andb_false_r).
  destruct (is_high_surrogate m && (b =? 92) && (u =? 117)) eqn:Hjoin.
  2:{ intros (cs' & Hrest & ->)%prepend_Ok. apply Hlone; [|done].
      unfold r2. cbn [low_escape_ahead].
      destruct (is_high_surrogate m); [|done]. cbn [andb] in Hjoin |- *.
      by rewrite Hjoin. }
  apply andb_prop in Hjoin as [[Hhigh Hbs]%andb_prop Hus].
  destruct (hex4 k1 k2 k3 k4) as [m2|] eqn:Hhex2; [|done].
  destruct (is_low_surrogate m2) eqn:Hlow2.
  - intros (cs' & Hrest & ->)%prepend_Ok.
    pose proof (join_surrogates_range m m2 Hhigh Hlow2) as Hj.
    apply (scanned_prepend _ (x :: r3) _ cs' rest
             [92; 117; h1; h2; h3; h4; b; u; k1; k2; k3; k4]); try done.
    + apply code_point_range. lia.
    + rewrite not_low_range by lia. done.
    + rewrite not_high_range by lia. done.
    + unfold r2 in Hlen2, Hr2.
      apply IH; [cbn [length] in Hlen2 |- *; lia| |done].
      by do 6 apply Forall_cons in Hr2 as [_ Hr2].
  - intros (cs' & Hrest & ->)%prepend_Ok. apply Hlone; [|done].
    unfold r2. cbn [low_escape_ahead]. rewrite Hbs, Hus, Hhex2, Hlow2.
    by rewrite andb_false_r.
Qed.
End ParsedStrings.
Section ParsedValues.
Context `{Env}.

(** A Python value that [json] writes and reads back: no [dict] has a
    key twice, and every string is well formed. *)
Definition proper (v : json) : Prop :=
  wf_json v /\ all_strings well_formed v.

Lemma scalar_text_suffix pre rest :
  scalar_text (pre ++ rest) -> scalar_text rest.
Proof. by intros [_ ?]%Forall_app. Qed.

Lemma skip_ws_scalar s : scalar_text s -> scalar_text (skip_ws s).
Proof.
  induction 1 as [|c s Hc Hs IH]; [constructor|]. cbn.
  destruct (is_ws c); [done|by constructor].
Qed.

Lemma strip_prefix_scalar p : forall s r,
  strip_prefix p s = Some r -> scalar_text s -> scalar_text r.
Proof.
  induction p as [|a p IH]; intros s r; cbn; [by intros [= <-]|].
  destruct s as [|b s]; [done|]. destruct (a =? b); [|done].
  intros Hr [_ Hs]%Forall_cons. by eapply IH.
Qed.

Lemma dict_set_key_in k v d k' :
  k' ∈ map fst (dict_set k v d) -> k' = k \/ k' ∈ map fst d.
Proof.
  induction d as [|[k1 v1] d IH]; cbn.
  - intros [->|Hin]%elem_of_cons; [by left|by right].
  - destruct (str_eqb_spec k k1) as [->|Hne]; cbn; [by right|].
    intros [->|Hin]%elem_of_cons; [right; by left|].
    destruct (IH Hin) as [->|Hd]; [by left|right; by right].
Qed.

Lemma dict_set_keys k v d :
  NoDup (map fst d) -> NoDup (map fst (dict_set k v d)).
Proof.
  induction d as [|[k' v'] d IH]; cbn.
  { intros _. constructor; [by intros ?%elem_of_nil|constructor]. }
  intros [Hk' Hd]%NoDup_cons. destruct (str_eqb_spec k k') as [->|Hne].
  - cbn. by constructor.
  - cbn. constructor; [|by apply IH].
    intros [->|Hin]%dict_set_key_in; done.
Qed.

Lemma dict_set_fields (P : str * json -> Prop) k v d :
  P (k, v) -> Forall P d -> Forall P (dict_set k v d).
Proof.
  intros Hv. induction 1 as [|[k' v'] d Hkv Hd IH]; cbn.
  - by repeat constructor.
  - destruct (str_eqb k k'); constructor; done.
Qed.

Lemma dict_of_pairs_proper pairs :
  Forall (fun kv => well_formed (fst kv) /\ proper (snd kv)) pairs ->
  proper (JObject (dict_of_pairs pairs)).
Proof.
  intros Hpairs. unfold dict_of_pairs.
  assert (forall acc,
            NoDup (map fst acc) /\
            Forall (fun kv => well_formed (fst kv) /\ proper (snd kv)) acc ->
            NoDup (map fst (fold_left (fun d kv => dict_set kv.1 kv.2 d)
                              pairs acc)) /\
            Forall (fun kv => well_formed (fst kv) /\ proper (snd kv))
              (fold_left (fun d kv => dict_set kv.1 kv.2 d) pairs acc))
    as Hgen.
  { induction Hpairs as [|[k v] pairs Hkv _ IH]; intros acc [Hnd Hwf];
      [done|].
    cbn [fold_left]. apply IH. split.
    - by apply dict_set_keys.
    - by apply dict_set_fields. }
  destruct (Hgen [] ltac:(split; constructor)) as [Hnd Hall].
  split.
  - apply wf_json_object. split; [done|].
    eapply Forall_impl; [exact Hall|]. by intros kv [_ [? _]].
  - apply all_strings_object.
    eapply Forall_impl; [exact Hall|]. by intros kv [? [_ ?]].
Qed.

Lemma scan_number_proper s v r :
  scan_number s = Some (v, r) ->
  proper v /\ (scalar_text s -> scalar_text r).
Proof.
  unfold scan_number. destruct (scan_integer s) as [[ip r0]|] eqn:Hi; [|done].
  apply scan_integer_split in Hi. cbn.
  pose proof (scan_frac_split r0) as Hf.
  destruct (scan_frac r0) as [frac r1]. cbn in Hf.
  pose proof (scan_exp_split r1) as He.
  destruct (scan_exp r1) as [ex r2]. cbn in He.
  assert (scalar_text s -> scalar_text r2) as Hrest.
  { subst s r0 r1. by intros ?%scalar_text_suffix%scalar_text_suffix
                           %scalar_text_suffix. }
  destruct frac, ex; by intros [= <- <-].
Qed.

Lemma scan_scalar_proper s v r :
  scan_scalar s = Ok (v, r) -> scalar_text s -> proper v /\ scalar_text r.
Proof.
  unfold scan_scalar. intros Hscan Hs.
  destruct (strip_prefix (lit "null") s) eqn:H1;
    [injection Hscan as <- <-; split; [done|by eapply strip_prefix_scalar]|].
  destruct (strip_prefix (lit "true") s) eqn:H2;
    [injection Hscan as <- <-; split; [done|by eapply strip_prefix_scalar]|].
  destruct (strip_prefix (lit "false") s) eqn:H3;
    [injection Hscan as <- <-; split; [done|by eapply strip_prefix_scalar]|].
  destruct (scan_number s) as [[v' r']|] eqn:Hnum.
  { injection Hscan as <- <-.
    destruct (scan_number_proper _ _ _ Hnum) as [Hv Hr]. by split; [|apply Hr]. }
  destruct (strip_prefix (lit "NaN") s) eqn:H4;
    [injection Hscan as <- <-; split; [done|by eapply strip_prefix_scalar]|].
  destruct (strip_prefix (lit "Infinity") s) eqn:H5;
    [injection Hscan as <- <-; split; [done|by eapply strip_prefix_scalar]|].
  destruct (strip_prefix (lit "-Infinity") s) eqn:H6;
    [injection Hscan as <- <-; split; [done|by eapply strip_prefix_scalar]|].
  done.
Qed.

Lemma scanstring_proper s cs rest :
  scalar_text s -> scanstring s = Ok (cs, rest) ->
  well_formed cs /\ scalar_text rest.
Proof.
  intros Hs Hscan.
  destruct (scanstring_scanned (length s) s cs rest ltac:(done) Hs Hscan)
    as (Hcs & _ & pre & ->).
  split; [done|by eapply scalar_text_suffix].
Qed.

(** What the three mutually recursive readers return from the text of a
    file is a proper value, and what they leave is the end of that
    text. *)
Lemma parse_proper fuel :
  (forall s v r,
     scalar_text s -> parse_value fuel s = Ok (v, r) ->
     proper v /\ scalar_text r) /\
  (forall s vs r,
     scalar_text s -> parse_items fuel s = Ok (vs, r) ->
     Forall proper vs /\ scalar_text r) /\
  (forall s ps r,
     scalar_text s -> parse_pairs fuel s = Ok (ps, r) ->
     Forall (fun kv => well_formed (fst kv) /\ proper (snd kv)) ps /\
     scalar_text r).
Proof.
  induction fuel as [|fuel (IHv & IHi & IHp)]; [done|].
  split; [|split].
  - intros s v r Hs. cbn [parse_value].
    destruct s as [|c s]; [done|].
    pose proof Hs as [_ Hs']%Forall_cons.
    destruct (c =? 34).
    { destruct (scanstring s) as [[cs r']|] eqn:Hscan; [|done].
      intros [= <- <-].
      destruct (scanstring_proper _ _ _ Hs' Hscan) as [Hcs Hr].
      split; [by split|done]. }
    destruct (c =? 123).
    { pose proof (skip_ws_scalar _ Hs') as Hskip.
      destruct (skip_ws s) as [|c1 r1]; [done|].
      apply Forall_cons in Hskip as [_ Hr1].
      destruct (c1 =? 125).
      { intros [= <- <-]. split; [|done]. split; [|done].
        apply wf_json_object. split; constructor. }
      destruct (c1 =? 34); [|done].
      destruct (parse_pairs fuel r1) as [[ps r2]|] eqn:Hps; [|done].
      intros [= <- <-]. destruct (IHp _ _ _ Hr1 Hps) as [Hall Hr2].
      split; [by apply dict_of_pairs_proper|done]. }
    destruct (c =? 91);
      [|intros Hscan; by apply (scan_scalar_proper (c :: s))].
    pose proof (skip_ws_scalar _ Hs') as Hskip.
    destruct (skip_ws s) as [|c1 r1]; [done|].
    destruct (c1 =? 93).
    { intros [= <- <-]. apply Forall_cons in Hskip as [_ Hr1].
      split; [by split|done]. }
    destruct (parse_items fuel (c1 :: r1)) as [[vs r2]|] eqn:Hvs; [|done].
    intros [= <- <-]. destruct (IHi _ _ _ Hskip Hvs) as [Hall Hr2].
    split; [|done]. split.
    + apply wf_json_array. eapply Forall_impl; [exact Hall|]. by intros ? [? _].
    + apply all_strings_array. eapply Forall_impl; [exact Hall|].
      by intros ? [_ ?].
  - intros s vs r Hs. cbn [parse_items].
    destruct (parse_value fuel s) as [[v r0]|] eqn:Hv; [|done].
    destruct (IHv _ _ _ Hs Hv) as [Hpv Hr0].
    cbn [mbind result_bind].
    pose proof (skip_ws_scalar _ Hr0) as Hskip.
    destruct (skip_ws r0) as [|c r1]; [done|].
    apply Forall_cons in Hskip as [_ Hr1].
    destruct (c =? 93).
    { intros [= <- <-]. split; [constructor; [done|constructor]|done]. }
    destruct (c =? 44); [|done].
    destruct (parse_items fuel (skip_ws r1)) as [[vs' r2]|] eqn:Hvs; [|done].
    intros [= <- <-].
    destruct (IHi _ _ _ (skip_ws_scalar _ Hr1) Hvs) as [Hall Hr2].
    split; [by constructor|done].
  - intros s ps r Hs. cbn [parse_pairs].
    destruct (scanstring s) as [[k r0]|] eqn:Hscan; [|done].
    destruct (scanstring_proper _ _ _ Hs Hscan) as [Hk Hr0].
    cbn [mbind result_bind].
    pose proof (skip_ws_scalar _ Hr0) as Hskip.
    destruct (skip_ws r0) as [|c r1]; [done|].
    apply Forall_cons in Hskip as [_ Hr1].
    destruct (c =? 58); [|done].
    destruct (parse_value fuel (skip_ws r1)) as [[v r2]|] eqn:Hv; [|done].
    destruct (IHv _ _ _ (skip_ws_scalar _ Hr1) Hv) as [Hpv Hr2].
    cbn [mbind result_bind].
    pose proof (skip_ws_scalar _ Hr2) as Hskip2.
    destruct (skip_ws r2) as [|c2 r3]; [done|].
    apply Forall_cons in Hskip2 as [_ Hr3].
    destruct (c2 =? 125).
    { intros [= <- <-]. split; [constructor; [by split|constructor]|done]. }
    destruct (c2 =? 44); [|done].
    pose proof (skip_ws_scalar _ Hr3) as Hskip3.
    destruct (skip_ws r3) as [|c3 r4]; [done|].
    apply Forall_cons in Hskip3 as [_ Hr4].
    destruct (c3 =? 34); [|done].
    destruct (parse_pairs fuel r4) as [[ps' r5]|] eqn:Hps; [|done].
    intros [= <- <-]. destruct (IHp _ _ _ Hr4 Hps) as [Hall Hr5].
    split; [by constructor|done].
Qed.

(** What [json.loads] makes of the text of a file is a proper value. *)
Lemma json_loads_proper s v :
  scalar_text s -> json_loads s = Ok v -> proper v.
Proof.
  intros Hs. unfold json_loads. destruct (starts_with_bom s); [done|].
  destruct (parse_value _ _) as [[v' r]|] eqn:Hv; [|done].
  cbn [mbind result_bind]. destruct (skip_ws r); [|done].
  intros [= <-].
  by destruct (proj1 (parse_proper _) _ _ _ (skip_ws_scalar _ Hs) Hv).
Qed.
End ParsedValues.

Section Copies.
Context `{FloatLaws}.

(** X19.  A profile that [load_speaker] has read from a file can be
    copied: saved under any path, it loads from there as the same
    profile.  The file holds text as decoding gives it, without
    surrogates; it may hold the characters of any language as they are or
    as escapes. *)
Theorem loaded_profile_can_be_copied {Model} (self : Interface Model)
    path fs content profile copy fs' :
  open_read fs path = Ok content -> scalar_text content ->
  InterfaceHF.load_speaker self path fs = Ok profile ->
  InterfaceHF.save_speaker self profile copy fs = (fs', Ok tt) ->
  InterfaceHF.load_speaker self copy fs' = Ok profile.
Proof.
  intros Hfile Htext Hload [_ Hcopy]%write_file_Ok.
  unfold InterfaceHF.load_speaker in Hload |- *.
  rewrite Hfile in Hload. rewrite Hcopy. cbn [mbind result_bind] in Hload |- *.
  destruct (json_loads_proper _ _ Htext Hload) as [Hwf Hstr].
  by apply json_loads_dumps.
Qed.
End Copies.

Section LoadErrors.
Context `{FloatLaws}.

Lemma skip_ws_blank s : Forall (fun c => is_ws c = true) s -> skip_ws s = [].
Proof. induction 1 as [|c s Hc _ IH]; [done|]. cbn. by rewrite Hc. Qed.

Lemma starts_with_bom_blank s :
  Forall (fun c => is_ws c = true) s -> starts_with_bom s = false.
Proof.
  destruct 1 as [|c s Hc _]; [done|]. cbn.
  destruct (Z.eqb_spec c 0xFEFF) as [->|]; done.
Qed.

Lemma starts_with_bom_app s t :
  s <> [] -> starts_with_bom (s ++ t) = starts_with_bom s.
Proof. by destruct s. Qed.

(** X21.  What [load_speaker] makes of a file that is not just one
    value.  A file that is empty or holds only white space gives the
    decoder's "Expecting value".  A file that holds a saved profile and,
    after a line feed, white space only loads as that profile; with
    anything else after the line feed it gives "Extra data":
    [load_speaker] reads one value and no more. *)
Theorem load_speaker_errors {Model} (self : Interface Model) path fs :
  (forall content,
     open_read fs path = Ok content ->
     Forall (fun c => is_ws c = true) content ->
     InterfaceHF.load_speaker self path fs
     = Raise (JSONDecodeError "Expecting value")) /\
  (forall profile blank,
     proper profile ->
     Forall (fun c => is_ws c = true) blank ->
     open_read fs path = Ok (json_dumps profile 2 ++ LF :: blank) ->
     InterfaceHF.load_speaker self path fs = Ok profile) /\
  (forall profile blank c more,
     proper profile ->
     Forall (fun c => is_ws c = true) blank ->
     is_ws c = false ->
     open_read fs path
     = Ok (json_dumps profile 2 ++ LF :: blank ++ c :: more) ->
     InterfaceHF.load_speaker self path fs
     = Raise (JSONDecodeError "Extra data")).
Proof.
  unfold InterfaceHF.load_speaker.
  assert (forall profile rest,
            proper profile ->
            json_loads (json_dumps profile 2 ++ LF :: rest)
            = match skip_ws rest with
              | [] => Ok profile
              | _ :: _ => Raise (JSONDecodeError "Extra data")
              end) as Hread.
  { intros profile rest [Hwf Hstr]. unfold json_loads, json_dumps.
    rewrite starts_with_bom_app, render_no_bom.
    2:{ destruct (render_head 2 0 profile) as (c & tl & -> & _); done. }
    rewrite skip_ws_render.
    rewrite (parse_render 2 profile Hwf Hstr 0%nat _ (LF :: rest)).
    - done.
    - pose proof (render_size 2 0 profile). rewrite length_app. lia.
    - by right. }
  split; [|split].
  - intros content -> Hblank. cbn [mbind result_bind]. unfold json_loads.
    by rewrite starts_with_bom_blank, (skip_ws_blank _ Hblank).
  - intros profile blank Hp Hblank ->. cbn [mbind result_bind].
    by rewrite Hread, (skip_ws_blank _ Hblank).
  - intros profile blank c more Hp Hblank Hc ->. cbn [mbind result_bind].
    rewrite Hread by done.
    assert (skip_ws (blank ++ c :: more) = c :: more) as ->; [|done].
    induction Hblank as [|b blank Hb _ IH]; cbn; [by rewrite Hc|].
    by rewrite Hb.
Qed.
End LoadErrors.

(** ** The characters of a saved profile *)
Section PlainText.
Context `{FloatLaws}.

(** A printable ASCII character or a line feed. *)
Definition is_plain (c : Z) : bool :=
  ((32 <=? c) && (c <=? 126)) || (c =? 10).

Definition plain (l : str) : Prop :=
  Forall (fun c => is_plain c = true) l.

Lemma plain_app l1 l2 : plain l1 -> plain l2 -> plain (l1 ++ l2).
Proof. intros H1 H2. apply Forall_app. by split. Qed.

Lemma plain_cons c l : is_plain c = true -> plain l -> plain (c :: l).
Proof. intros Hc Hl. by constructor. Qed.

Lemma plain_digit c : is_digit c = true -> is_plain c = true.
Proof.
  unfold is_digit, is_plain. intros [H1 H2]%andb_prop.
  apply Z.leb_le in H1, H2. apply orb_true_intro. left.
  apply andb_true_intro. split; apply Z.leb_le; lia.
Qed.

Lemma plain_digits ds :
  Forall (fun c => is_digit c = true) ds -> plain ds.
Proof. intros Hds. eapply Forall_impl; [exact Hds|]. apply plain_digit. Qed.

Lemma span_digits_plain s : plain (span_digits s).1.
Proof.
  induction s as [|c s IH]; [constructor|]. cbn.
  destruct (is_digit c) eqn:Hc; [|constructor].
  destruct (span_digits s) as [ds r]. cbn in *.
  apply plain_cons; [by apply plain_digit|done].
Qed.

Lemma scan_unsigned_plain s ds r : scan_unsigned s = Some (ds, r) -> plain ds.
Proof.
  destruct s as [|c s]; [done|]. cbn.
  destruct (Z.eqb_spec c 48) as [Hzero|_].
  { intros [= <- _]. apply plain_cons; [|constructor].
    unfold is_plain. by rewrite Hzero. }
  destruct (is_digit c) eqn:Hc; [|done].
  pose proof (span_digits_plain s) as Hs.
  destruct (span_digits s) as [ds' r']. intros [= <- _].
  apply plain_cons; [by apply plain_digit|done].
Qed.

Lemma scan_integer_plain s ds r : scan_integer s = Some (ds, r) -> plain ds.
Proof.
  destruct s as [|c s]; [done|]. cbn [scan_integer].
  destruct (Z.eqb_spec c 45) as [Hm|_];
    [|apply scan_unsigned_plain].
  destruct (scan_unsigned s) as [[ds' r']|] eqn:Hu; [|done].
  cbn. intros [= <- _]. apply plain_cons.
  - unfold is_plain. by rewrite Hm.
  - by apply scan_unsigned_plain in Hu.
Qed.

Lemma scan_frac_plain s : plain (scan_frac s).1.
Proof.
  destruct s as [|c s]; [constructor|]. cbn.
  destruct (Z.eqb_spec c 46) as [Hp|_]; [|constructor].
  pose proof (span_digits_plain s) as Hs.
  destruct (span_digits s) as [[|d ds] r]; [constructor|].
  apply plain_cons; [|done]. unfold is_plain. by rewrite Hp.
Qed.

Lemma scan_sign_plain s : plain (scan_sign s).1.
Proof.
  destruct s as [|c s]; [constructor|]. cbn.
  destruct (_ || _) eqn:Hc; [|constructor].
  apply plain_cons; [|constructor]. unfold is_plain.
  apply orb_prop in Hc as [Hc|Hc]; apply Z.eqb_eq in Hc; by rewrite Hc.
Qed.

Lemma scan_exp_plain s : plain (scan_exp s).1.
Proof.
  destruct s as [|c s]; [constructor|]. cbn.
  destruct (_ || _) eqn:Hc; [|constructor].
  pose proof (scan_sign_plain s) as Hsg.
  destruct (scan_sign s) as [sg r1]. cbn in Hsg.
  pose proof (span_digits_plain r1) as Hd.
  destruct (span_digits r1) as [[|d ds] r2]; [constructor|].
  apply plain_cons; [|by apply plain_app]. unfold is_plain.
  apply orb_prop in Hc as [Hc|Hc]; apply Z.eqb_eq in Hc; by rewrite Hc.
Qed.

Lemma float_literal_plain l : float_literal l -> plain l.
Proof.
  unfold float_literal.
  destruct (scan_integer l) as [[ip r]|] eqn:Hi; [|done].
  intros [Hend _].
  pose proof (scan_integer_plain _ _ _ Hi) as Hip.
  apply scan_integer_split in Hi.
  pose proof (scan_frac_plain r) as Hfr.
  pose proof (scan_frac_split r) as Hf.
  destruct (scan_frac r) as [fr r1]. cbn in *.
  pose proof (scan_exp_plain r1) as Hex.
  pose proof (scan_exp_split r1) as He.
  destruct (scan_exp r1) as [ex r2]. cbn in *. subst r2.
  rewrite app_nil_r in He. subst r1 r l.
  by repeat apply plain_app.
Qed.

Lemma int_digits_plain n : plain (int_digits n).
Proof.
  unfold int_digits. destruct (Z.ltb_spec n 0).
  - apply plain_cons; [done|].
    apply plain_digits, (numeral_digits _ (- n)), nat_digits_numeral. lia.
  - apply plain_digits, (numeral_digits _ n), nat_digits_numeral. lia.
Qed.

Lemma hex_digit_plain d : 0 <= d < 16 -> is_plain (hex_digit d) = true.
Proof.
  intros Hd. unfold hex_digit, is_plain.
  destruct (Z.ltb_spec d 10); apply orb_true_intro; left;
    apply andb_true_intro; split; apply Z.leb_le; lia.
Qed.

Lemma u_escape_plain n : 0 <= n < 0x10000 -> plain (u_escape n).
Proof.
  intros Hn. unfold u_escape.
  assert (0 <= n / 4096 < 16) as H1
    by (split; [apply Z.div_pos; lia|apply Z.div_lt_upper_bound; lia]).
  pose proof (Z.mod_pos_bound (n / 256) 16 ltac:(lia)) as H2.
  pose proof (Z.mod_pos_bound (n / 16) 16 ltac:(lia)) as H3.
  pose proof (Z.mod_pos_bound n 16 ltac:(lia)) as H4.
  repeat (apply plain_cons; [done || by apply hex_digit_plain|]).
  constructor.
Qed.

(** Whatever the character, its escape is plain. *)
Lemma escape_char_plain c : is_code_point c = true -> plain (escape_char c).
Proof.
  unfold is_code_point. intros [Hc0 Hc1]%andb_prop.
  apply Z.leb_le in Hc0. apply Z.ltb_lt in Hc1.
  unfold escape_char.
  repeat match goal with
         | |- context [c =? ?b] =>
             destruct (Z.eqb_spec c b) as [->|?]; [by repeat constructor|]
         end.
  destruct ((32 <=? c) && (c <=? 126)) eqn:Hprint.
  { apply plain_cons; [|constructor]. unfold is_plain. by rewrite Hprint. }
  destruct (Z.ltb_spec c 0x10000); [apply u_escape_plain; lia|].
  cbv zeta. rewrite high_surrogate_of, low_surrogate_of by lia.
  assert (0 <= (c - 65536) / 1024 < 1024) as Hq.
  { split; [apply Z.div_pos; lia|apply Z.div_lt_upper_bound; lia]. }
  pose proof (Z.mod_pos_bound (c - 65536) 1024 ltac:(lia)) as Hr.
  apply plain_app; apply u_escape_plain; lia.
Qed.

Lemma encode_basestring_ascii_plain s :
  is_str s -> plain (encode_basestring_ascii s).
Proof.
  unfold is_str, encode_basestring_ascii. intros Hs.
  apply plain_cons; [done|].
  apply plain_app; [|by repeat constructor].
  induction s as [|c cs IH]; [constructor|].
  cbn [forallb] in Hs. apply andb_prop in Hs as [Hc Hs].
  cbn [flat_map]. apply plain_app; [by apply escape_char_plain|by apply IH].
Qed.

Lemma newline_indent_plain indent level :
  plain (newline_indent indent level).
Proof.
  unfold newline_indent. apply plain_cons; [done|].
  induction (indent * level)%nat; by constructor.
Qed.

Lemma floatstr_plain x : plain (floatstr x).
Proof.
  unfold floatstr. destruct (float_kind_of x) eqn:Hk;
    try by repeat constructor.
  by apply float_literal_plain, repr_literal.
Qed.

Lemma render_plain indent v : forall level,
  all_strings is_str v -> plain (render indent level v).
Proof.
  induction v as [| | | | |items IH|fields IH] using json_induction;
    intros level Hstr.
  - by repeat constructor.
  - destruct b; by repeat constructor.
  - apply int_digits_plain.
  - apply floatstr_plain.
  - by apply encode_basestring_ascii_plain.
  - apply all_strings_array in Hstr.
    destruct IH as [|x xs Hx Hxs]; [by repeat constructor|].
    apply Forall_cons in Hstr as [Hsx Hsxs].
    rewrite render_array_cons.
    apply plain_cons; [done|].
    apply plain_app; [apply newline_indent_plain|].
    apply plain_app; [by apply Hx|].
    apply plain_app;
      [|apply plain_app; [apply newline_indent_plain|by repeat constructor]].
    unfold render_items. clear Hx Hsx.
    induction Hxs as [|y ys Hy _ IHys]; [constructor|].
    apply Forall_cons in Hsxs as [Hsy Hsys].
    cbn [flat_map]. apply plain_app; [|by apply IHys].
    apply plain_cons; [done|].
    apply plain_app; [apply newline_indent_plain|by apply Hy].
  - apply all_strings_object in Hstr.
    destruct IH as [|[k x] fields Hx Hfields]; [by repeat constructor|].
    apply Forall_cons in Hstr as [[Hk Hsx] Hsfields]. cbn [fst snd] in *.
    rewrite render_object_cons.
    apply plain_cons; [done|].
    apply plain_app; [apply newline_indent_plain|].
    apply plain_app; [by apply encode_basestring_ascii_plain|].
    apply plain_app; [by repeat constructor|].
    apply plain_app; [by apply Hx|].
    apply plain_app;
      [|apply plain_app; [apply newline_indent_plain|by repeat constructor]].
    unfold render_fields. clear Hx Hsx Hk.
    induction Hfields as [|[k' y] ys Hy _ IHys]; [constructor|].
    apply Forall_cons in Hsfields as [[Hk' Hsy] Hsys]. cbn [fst snd] in *.
    cbn [flat_map]. apply plain_app; [|by apply IHys].
    apply plain_cons; [done|].
    apply plain_app; [apply newline_indent_plain|].
    apply plain_app; [by apply encode_basestring_ascii_plain|].
    apply plain_app; [by repeat constructor|by apply Hy].
Qed.

(** X22.  Whatever characters the strings of a profile hold, of
    whatever language, the text that [save_speaker] writes consists of
    printable ASCII characters and line feeds only: every other
    character is written as an escape, a character beyond the basic
    plane as two. *)
Theorem saved_profile_is_plain_ascii {Model} (self : Interface Model)
    speaker path fs fs' :
  all_strings is_str speaker ->
  InterfaceHF.save_speaker self speaker path fs = (fs', Ok tt) ->
  exists content,
    open_read fs' path = Ok content /\
    Forall (fun c => 32 <= c <= 126 \/ c = 10) content.
Proof.
  intros Hstr [_ Hfile]%write_file_Ok. eexists. split; [exact Hfile|].
  unfold json_dumps.
  eapply Forall_impl; [by apply (render_plain 2 speaker 0)|].
  intros c. cbn beta. unfold is_plain. intros [Hc|Hc]%orb_prop.
  - left. apply andb_prop in Hc as [H1 H2]. split; by apply Z.leb_le.
  - right. by apply Z.eqb_eq.
Qed.
End PlainText.

Section SampleFiles.
#[local] Existing Instance Sample.env.
#[local] Existing Instance SampleFacts.float_laws.

Definition copy_path : string := "/home/user/copy.json".

(** A file written by hand: the key in quotes, the Japanese word as it
    is. *)
Definition raw_text : str :=
  lit "{" ++ [dquote] ++ lit "text" ++ [dquote] ++ lit ": " ++
  [dquote] ++ Sample.ohayou ++ [dquote] ++ lit "}".

Definition raw_profile : json := JObject [(lit "text", JString Sample.ohayou)].

Definition with_raw : FileSystem := set_file Sample.fs "raw.json" raw_text.

(** The file written by hand, loaded and copied. *)
Lemma loaded_profile_can_be_copied_witness :
  let self := Sample.hf [] in
  let copied := set_file with_raw copy_path (json_dumps raw_profile 2) in
  open_read with_raw "raw.json" = Ok raw_text /\
  scalar_text raw_text /\
  InterfaceHF.load_speaker self "raw.json" with_raw = Ok raw_profile /\
  InterfaceHF.save_speaker self raw_profile copy_path with_raw
  = (copied, Ok tt) /\
  InterfaceHF.load_speaker self copy_path copied = Ok raw_profile.
Proof.
  intros self copied.
  assert (open_read with_raw "raw.json" = Ok raw_text) as Hfile
    by reflexivity.
  assert (scalar_text raw_text) as Htext by (by repeat constructor).
  assert (InterfaceHF.load_speaker self "raw.json" with_raw = Ok raw_profile)
    as Hload by reflexivity.
  assert (InterfaceHF.save_speaker self raw_profile copy_path with_raw
          = (copied, Ok tt)) as Hsave by reflexivity.
  split; [exact Hfile|]. split; [exact Htext|]. split; [exact Hload|].
  split; [exact Hsave|].
  exact (loaded_profile_can_be_copied self "raw.json" with_raw raw_text
           raw_profile copy_path copied Hfile Htext Hload Hsave).
Defined.

Lemma saved_profile_is_plain_ascii_witness :
  let self := Sample.hf [] in
  let saved := set_file Sample.fs copy_path (json_dumps Sample.ja_profile 2) in
  all_strings is_str Sample.ja_profile /\
  InterfaceHF.save_speaker self Sample.ja_profile copy_path Sample.fs
  = (saved, Ok tt) /\
  exists content,
    open_read saved copy_path = Ok content /\
    Forall (fun c => 32 <= c <= 126 \/ c = 10) content.
Proof.
  intros self saved.
  assert (all_strings is_str Sample.ja_profile) as Hstr
    by (cbn; unfold is_str; repeat split).
  assert (InterfaceHF.save_speaker self Sample.ja_profile copy_path Sample.fs
          = (saved, Ok tt)) as Hsave by reflexivity.
  split; [exact Hstr|]. split; [exact Hsave|].
  exact (saved_profile_is_plain_ascii self Sample.ja_profile copy_path
           Sample.fs saved Hstr Hsave).
Defined.

(** Three files: one of blanks, the saved sample profile with blanks on
    a line after it, and the same with a note there. *)
Lemma load_speaker_errors_witness :
  let self := Sample.hf [] in
  let saved := json_dumps Sample.ja_profile 2 in
  let blank := set_file Sample.fs copy_path (lit "  " ++ [LF]) in
  let padded := set_file Sample.fs copy_path (saved ++ LF :: lit "  ") in
  let noted :=
    set_file Sample.fs copy_path (saved ++ LF :: lit "  " ++ lit "# note") in
  proper Sample.ja_profile /\
  InterfaceHF.load_speaker self copy_path blank
  = Raise (JSONDecodeError "Expecting value") /\
  InterfaceHF.load_speaker self copy_path padded = Ok Sample.ja_profile /\
  InterfaceHF.load_speaker self copy_path noted
  = Raise (JSONDecodeError "Extra data").
Proof.
  intros self saved blank padded noted.
  assert (proper Sample.ja_profile) as Hproper
    by (split; [exact ja_profile_wf|exact ja_profile_text]).
  assert (Forall (fun c => is_ws c = true) (lit "  ")) as Hblank
    by (by repeat constructor).
  split; [exact Hproper|]. split; [|split].
  - exact (proj1 (load_speaker_errors self copy_path blank)
             (lit "  " ++ [LF]) eq_refl ltac:(by repeat constructor)).
  - exact (proj1 (proj2 (load_speaker_errors self copy_path padded))
             Sample.ja_profile (lit "  ") Hproper Hblank eq_refl).
  - exact (proj2 (proj2 (load_speaker_errors self copy_path noted))
             Sample.ja_profile (lit "  ") (ord "#") (lit " note") Hproper
             Hblank eq_refl eq_refl).
Defined.
End SampleFiles.

(** ** More on the catalog and the current language *)
Section CatalogItems.
Context `{Env}.

Lemma lookup_list_to_map_dict {V} (l : list (string * V)) k :
  (list_to_map l : gmap string V) !! k = dict_lookup k l.
Proof.
  induction l as [|[k' v] l IH]; [done|].
  cbn [list_to_map foldr dict_lookup fst snd]. unfold uncurry, Datatypes.uncurry.
  destruct (String.eqb_spec k k') as [->|Hne].
  - apply lookup_insert_eq.
  - rewrite lookup_insert_ne by done. apply IH.
Qed.

(** The catalog holds what its literal lists. *)
Lemma catalog_lookup lang :
  _DEFAULT_SPEAKERS !! lang
  = list_to_map <$> dict_lookup lang default_speakers_items.
Proof.
  change _DEFAULT_SPEAKERS
    with (list_to_map (map (fun item => (fst item, list_to_map (snd item)))
                         default_speakers_items)
            : gmap string (gmap string string)).
  rewrite lookup_list_to_map_dict.
  induction default_speakers_items as [|[k v] l IH]; [done|].
  cbn. by destruct (String.eqb lang k).
Qed.

(** The path under which the catalog has a name for a language. *)
Definition catalog_path (lang name : string) : option string :=
  speakers ← dict_lookup lang default_speakers_items;
  dict_lookup name speakers.

Definition no_language_error (lang : string) : exn :=
  ValueError ("Speaker for language " +:+ lang +:+ " not found").
Definition no_speaker_error (lang name : string) : exn :=
  ValueError ("Speaker " +:+ name +:+ " not found for language " +:+ lang).

Lemma load_default_speaker_lookup {Model} (self : Interface Model) name fs :
  InterfaceHF.load_default_speaker self name fs
  = match dict_lookup (normalise (language self)) default_speakers_items with
    | None => Raise (no_language_error (normalise (language self)))
    | Some speakers =>
        match dict_lookup (normalise name) speakers with
        | None =>
            Raise (no_speaker_error (normalise (language self))
                     (normalise name))
        | Some path => InterfaceHF.load_speaker self path fs
        end
    end.
Proof.
  unfold InterfaceHF.load_default_speaker. fold (normalise name).
  fold (normalise (language self)). rewrite catalog_lookup.
  destruct (dict_lookup _ default_speakers_items) as [speakers|]; [|done].
  cbn [fmap option_fmap option_map]. by rewrite lookup_list_to_map_dict.
Qed.
End CatalogItems.

Section CatalogEntries.
Context `{Env}.

Ltac each_entry Hl Hn :=
  unfold default_speakers_items in Hl;
  repeat (apply elem_of_cons in Hl as [Hl|Hl]);
  try (by apply elem_of_nil in Hl);
  injection Hl as -> ->;
  repeat (apply elem_of_cons in Hn as [Hn|Hn]);
  try (by apply elem_of_nil in Hn);
  injection Hn as -> ->.

(** X23.  Every entry of the catalog follows one naming scheme and can
    be reached: the speaker [name] of the language [lang] is the file
    [<lang>_<name>.json] in the directory of default speakers; both keys
    are in lower case without white space around them; and on an
    interface whose current language is [lang], in whatever letter case
    and with whatever white space around it, [load_default_speaker(name)]
    is [load_speaker] on that file. *)
Theorem catalog_entries_load lang speakers name path :
  (lang, speakers) ∈ default_speakers_items ->
  (name, path) ∈ speakers ->
  path = get_speaker_path (lang +:+ "_" +:+ name) /\
  strip (lower lang) = lang /\
  strip (lower name) = name /\
  (forall Model (self : Interface Model) fs,
     strip (lower (language self)) = lang ->
     InterfaceHF.load_default_speaker self name fs
     = InterfaceHF.load_speaker self path fs).
Proof.
  intros Hl Hn.
  each_entry Hl Hn;
    (split; [reflexivity|]; split; [reflexivity|]; split; [reflexivity|];
     intros Model self fs Hlang;
     rewrite load_default_speaker_lookup; unfold normalise; rewrite Hlang;
     reflexivity).
Qed.
End CatalogEntries.

Section CatalogPaths.
Context `{Env}.

(** A path that does not start with a slash. *)
Definition relative (b : string) : Prop :=
  match b with
  | String c _ => c <> "/"%char
  | EmptyString => True
  end.

Lemma append_cancel_l a b b' : a +:+ b = a +:+ b' -> b = b'.
Proof. induction a as [|c a IH]; cbn; [done|]. intros [= Heq]. by apply IH. Qed.

Lemma os_path_join_of_relative a b :
  relative b ->
  os_path_join a b
  = match rev (list_ascii_of_string a) with
    | [] => b
    | c :: _ => if Ascii.eqb c "/" then a +:+ b else a +:+ "/" +:+ b
    end.
Proof.
  destruct b as [|c r]; [done|]. cbn [relative]. intros Hc.
  destruct c as [[] [] [] [] [] [] [] []]; try done.
Qed.

(** [os.path.join] with a fixed directory keeps relative names apart. *)
Lemma os_path_join_inj a b b' :
  relative b -> relative b' ->
  os_path_join a b = os_path_join a b' -> b = b'.
Proof.
  intros Hb Hb'. rewrite !os_path_join_of_relative by done.
  destruct (rev (list_ascii_of_string a)) as [|c r]; [done|].
  destruct (Ascii.eqb c "/").
  - apply append_cancel_l.
  - intros Heq%append_cancel_l. by apply (append_cancel_l "/").
Qed.

Ltac each_entry Hl Hn :=
  unfold default_speakers_items in Hl;
  repeat (apply elem_of_cons in Hl as [Hl|Hl]);
  try (by apply elem_of_nil in Hl);
  injection Hl as -> ->;
  repeat (apply elem_of_cons in Hn as [Hn|Hn]);
  try (by apply elem_of_nil in Hn).

(** X24.  No two entries of the catalog name the same file: a path that
    the catalog gives for a speaker of one language is given for no
    other speaker and for no other language, wherever the package is
    installed. *)
Theorem catalog_paths_distinct lang1 speakers1 name1 lang2 speakers2 name2
    path :
  (lang1, speakers1) ∈ default_speakers_items ->
  (name1, path) ∈ speakers1 ->
  (lang2, speakers2) ∈ default_speakers_items ->
  (name2, path) ∈ speakers2 ->
  lang1 = lang2 /\ name1 = name2.
Proof.
  intros Hl1 Hn1 Hl2 Hn2.
  each_entry Hl1 Hn1; injection Hn1 as -> ->;
    each_entry Hl2 Hn2; apply pair_equal_spec in Hn2 as [-> Hpath];
    try done;
    apply os_path_join_inj in Hpath; try done; discriminate Hpath.
Qed.
End CatalogPaths.

Section LanguageFacts.
Context `{Env}.

Lemma dict_lookup_None {V} (d : list (string * V)) k :
  k ∉ map fst d -> dict_lookup k d = None.
Proof.
  induction d as [|[k' v] d IH]; [done|]. cbn.
  intros [Hne Hd]%not_elem_of_cons.
  destruct (String.eqb_spec k k'); [done|]. by apply IH.
Qed.

Lemma load_default_speaker_no_language {Model} (self : Interface Model)
    name fs :
  strip (lower (language self)) ∉ ["en"; "ja"; "ko"; "zh"] ->
  InterfaceHF.load_default_speaker self name fs
  = Raise (ValueError
             ("Speaker for language " +:+ strip (lower (language self)) +:+
              " not found")).
Proof.
  intros Hno. rewrite load_default_speaker_lookup. unfold normalise.
  by rewrite dict_lookup_None.
Qed.

(** X25.  The catalog has speakers for four languages.  On an interface
    whose current language, lowercased and stripped, is none of them,
    [load_default_speaker] raises the language error for every name and
    reads no file.  [change_language] does not consult the catalog: a
    language that the model supports and the catalog lacks can be made
    current, and from then on no default speaker can be loaded. *)
Theorem load_default_speaker_unknown_language {Model}
    (self : Interface Model) :
  (strip (lower (language self)) ∉ ["en"; "ja"; "ko"; "zh"] ->
   forall name fs,
     InterfaceHF.load_default_speaker self name fs
     = Raise (ValueError
                ("Speaker for language " +:+ strip (lower (language self)) +:+
                 " not found"))) /\
  (forall lang self',
     InterfaceHF.change_language self lang = Ok self' ->
     strip (lower lang) ∉ ["en"; "ja"; "ko"; "zh"] ->
     forall name fs,
       InterfaceHF.load_default_speaker self' name fs
       = Raise (ValueError
                  ("Speaker for language " +:+ strip (lower lang) +:+
                   " not found"))).
Proof.
  split.
  - intros Hno name fs. by apply load_default_speaker_no_language.
  - intros lang self' ->%change_language_Ok Hno name fs.
    pose proof (normalise_idemp lang) as Hidem. unfold normalise in Hidem.
    rewrite load_default_speaker_no_language;
      cbn [language set_language]; unfold normalise; by rewrite Hidem.
Qed.

(** X26.  [change_language] changes the current language and nothing
    else, and what it leaves behind does not depend on what came before:
    after a successful call the other attributes are those of the
    interface it was called on, the new language is one of
    [self.languages], the same call again succeeds and changes nothing,
    and any further call gives what it would have given on the original
    interface. *)
Theorem change_language_composes {Model} (self self1 : Interface Model) lang :
  InterfaceHF.change_language self lang = Ok self1 ->
  language self1 ∈ languages self1 /\
  config self1 = config self /\
  languages self1 = languages self /\
  verbose self1 = verbose self /\
  audio_codec self1 = audio_codec self /\
  prompt_processor self1 = prompt_processor self /\
  model self1 = model self /\
  InterfaceHF.change_language self1 lang = Ok self1 /\
  (forall later,
     InterfaceHF.change_language self1 later
     = InterfaceHF.change_language self later).
Proof.
  intros Hchange. pose proof Hchange as ->%change_language_Ok.
  unfold InterfaceHF.change_language in Hchange.
  destruct (bool_decide_reflect (strip (lower lang) ∈ languages self))
    as [Hin|]; [|done].
  repeat (split; [done|]). split; [|done].
  unfold InterfaceHF.change_language. cbn [languages set_language].
  by rewrite bool_decide_eq_true_2.
Qed.

(** X27.  Which languages can be made current.  After a successful
    [change_language] the current language is an element of
    [self.languages] that is in lower case with no white space around
    it.  The argument is lowercased and stripped but the list is not: a
    listed language is rejected, under its own name, unless its lowercased
    and stripped form is listed too.  With an empty list, which is the
    default of the configuration, every call raises. *)
Theorem change_language_selects_listed_lower_case {Model}
    (self : Interface Model) :
  (forall arg self',
     InterfaceHF.change_language self arg = Ok self' ->
     language self' ∈ languages self /\
     strip (lower (language self')) = language self') /\
  (forall listed,
     listed ∈ languages self ->
     strip (lower listed) ∉ languages self ->
     InterfaceHF.change_language self listed
     = Raise (ValueError
                ("Language " +:+ strip (lower listed) +:+
                 " is not supported by the current model"))) /\
  (languages self = [] ->
   forall arg,
     InterfaceHF.change_language self arg
     = Raise (ValueError
                ("Language " +:+ strip (lower arg) +:+
                 " is not supported by the current model"))).
Proof.
  split; [|split].
  - intros arg self' Hchange. pose proof Hchange as ->%change_language_Ok.
    unfold InterfaceHF.change_language in Hchange.
    destruct (bool_decide_reflect (strip (lower arg) ∈ languages self))
      as [Hin|]; [|done].
    split; [done|]. apply normalise_idemp.
  - intros listed _ Hno. unfold InterfaceHF.change_language.
    by rewrite bool_decide_eq_false_2.
  - intros Hnone arg. unfold InterfaceHF.change_language. rewrite Hnone.
    rewrite bool_decide_eq_false_2; [done|]. apply not_elem_of_nil.
Qed.
End LanguageFacts.

(** ** The listing of [print_default_speakers] *)
Section Listings.
Context `{Env}.

Definition is_small_letter (c : ascii) : bool :=
  (97 <=? ascii_code c) && (ascii_code c <=? 122).

(** The capital of an ASCII small letter. *)
Definition capital (c : ascii) : ascii := chr (ascii_code c - 32).

(** A character whose lowercase form is an ASCII small letter is that
    letter or its capital, and its uppercase form is the capital. *)
Lemma upper_char_of_lower c :
  is_small_letter (lower_char c) = true ->
  upper_char c = Ok [capital (lower_char c)].
Proof.
  destruct c as [[] [] [] [] [] [] [] []]; intros Hc;
    first [discriminate Hc|reflexivity].
Qed.

Lemma upper_chars_of_lower l :
  forallb is_small_letter (map lower_char l) = true ->
  upper_chars l = Ok (map capital (map lower_char l)).
Proof.
  induction l as [|c l IH]; [done|]. cbn [map forallb upper_chars].
  intros [Hc Hl]%andb_prop.
  rewrite (upper_char_of_lower c Hc), (IH Hl). done.
Qed.

(** [upper] of a string is fixed by its lowercase form, when that is
    made of ASCII small letters. *)
Lemma upper_of_lower s :
  forallb is_small_letter (list_ascii_of_string (lower s)) = true ->
  upper s
  = Ok (string_of_list_ascii
          (map capital (list_ascii_of_string (lower s)))).
Proof.
  unfold upper, lower. rewrite list_ascii_of_string_of_list_ascii.
  intros Hs. by rewrite (upper_chars_of_lower _ Hs).
Qed.

(** The keys of the catalog, in order. *)
Lemma catalog_languages :
  map fst default_speakers_items = ["en"; "ja"; "ko"; "zh"].
Proof. reflexivity. Qed.

Lemma dict_lookup_Some {V} (d : list (string * V)) k v :
  dict_lookup k d = Some v -> (k, v) ∈ d.
Proof.
  induction d as [|[k' v'] d IH]; [done|]. cbn.
  destruct (String.eqb_spec k k') as [->|_].
  - intros [= ->]. by left.
  - intros Hd. right. by apply IH.
Qed.

Lemma dict_lookup_elem {V} (d : list (string * V)) k v :
  NoDup (map fst d) -> (k, v) ∈ d -> dict_lookup k d = Some v.
Proof.
  induction d as [|[k' v'] d IH]; cbn; [by intros _ ?%elem_of_nil|].
  intros [Hk' Hd]%NoDup_cons [Heq|Hin]%elem_of_cons.
  - injection Heq as -> ->. by rewrite String.eqb_refl.
  - destruct (String.eqb_spec k k') as [->|_]; [|by apply IH].
    destruct Hk'. apply list_elem_of_In.
    apply (in_map fst d (k', v)). by apply list_elem_of_In.
Qed.

(** The block of the current language, for a language that the catalog
    has under the name [key]. *)
Lemma current_language_block_found {Model} (self : Interface Model) key
    speakers :
  (key, speakers) ∈ default_speakers_items ->
  lower (language self) = key ->
  exists heading,
    current_language_block self
    = Ok (heading :: rule :: speaker_lines speakers) /\
    exists rest, heading = String "L" rest.
Proof.
  intros Hkey Hlang. unfold current_language_block. rewrite Hlang.
  unfold default_speakers_items in Hkey.
  repeat (apply elem_of_cons in Hkey as [Hkey|Hkey]);
    try (by apply elem_of_nil in Hkey);
    injection Hkey as -> ->;
    (rewrite upper_of_lower by (by rewrite Hlang)); rewrite Hlang;
    cbn [dict_lookup default_speakers_items String.eqb Ascii.eqb Bool.eqb
         mbind result_bind];
    eexists; (split; [reflexivity|]); by eexists.
Qed.
End Listings.

Section ListedAndLoadable.
Context `{Env}.

(** [load_default_speaker] finds the name in the catalog: whatever the
    files are, the call is [load_speaker] on one and the same path. *)
Definition accepts {Model} (self : Interface Model) (name : string) : Prop :=
  exists path, forall fs,
    InterfaceHF.load_default_speaker self name fs
    = InterfaceHF.load_speaker self path fs.

Lemma accepts_lookup {Model} (self : Interface Model) name :
  accepts self name <->
  exists speakers path,
    dict_lookup (normalise (language self)) default_speakers_items
    = Some speakers /\
    dict_lookup (normalise name) speakers = Some path.
Proof.
  split.
  - intros [path Hload].
    set (fs := {| target := fun p => p; files := {[ path := lit "null" ]};
                  failure := fun _ _ => None |}).
    specialize (Hload fs).
    rewrite load_default_speaker_lookup in Hload.
    assert (InterfaceHF.load_speaker self path fs = Ok JNull) as Hnull.
    { unfold InterfaceHF.load_speaker, open_read. cbn [files target fs].
      by rewrite lookup_singleton_eq. }
    destruct (dict_lookup (normalise (language self)) _) as [speakers|];
      [|by rewrite Hnull in Hload].
    destruct (dict_lookup (normalise name) speakers) as [path'|] eqn:Hname;
      [|by rewrite Hnull in Hload].
    by exists speakers, path'.
  - intros (speakers & path & Hl & Hn). exists path. intros fs.
    by rewrite load_default_speaker_lookup, Hl, Hn.
Qed.

Lemma catalog_names_distinct key speakers :
  (key, speakers) ∈ default_speakers_items -> NoDup (map fst speakers).
Proof.
  intros Hkey. unfold default_speakers_items in Hkey.
  repeat (apply elem_of_cons in Hkey as [Hkey|Hkey]);
    try (by apply elem_of_nil in Hkey);
    injection Hkey as -> ->; by apply (bool_decide_unpack _).
Qed.

Lemma language_blocks_returns :
  exists blocks, language_blocks default_speakers_items = Ok blocks.
Proof. eexists. reflexivity. Qed.

Lemma speaker_line_listed name speakers :
  ("  - " +:+ name) ∈ speaker_lines speakers <-> name ∈ map fst speakers.
Proof.
  unfold speaker_lines. rewrite !list_elem_of_In, !in_map_iff. split.
  - intros ([k p] & Heq & Hin). exists (k, p). split; [|done].
    cbn [fst] in *. by apply (append_cancel_l "  - ") in Heq.
  - intros ([k p] & Heq & Hin). exists (k, p). cbn [fst] in *.
    split; [by rewrite Heq|done].
Qed.

Definition current_heading : string :=
  nl +:+ nl +:+ "=== SPEAKERS FOR CURRENT INTERFACE LANGUAGE ===".
Definition closing_line : string :=
  nl +:+ "To use a speaker: load_default_speaker(name)" +:+ nl.

(** X28.  [print_default_speakers] never raises.  On an interface whose
    current language has no white space around it, what it lists under
    the heading for the current language is what can be loaded: the line
    of a name is there exactly when [load_default_speaker] finds that
    name, in whatever letter case and with whatever white space it is
    asked for. *)
Theorem listed_speakers_are_the_loadable_ones {Model}
    (self : Interface Model) :
  exists before current,
    print_default_speakers self
    = Ok (before ++ [current_heading] ++ current ++ [closing_line]) /\
    current_language_block self = Ok current /\
    (strip (lower (language self)) = lower (language self) ->
     forall name,
       ("  - " +:+ strip (lower name)) ∈ current <-> accepts self name).
Proof.
  destruct language_blocks_returns as [blocks Hblocks].
  assert (exists current, current_language_block self = Ok current /\
            (strip (lower (language self)) = lower (language self) ->
             forall name,
               ("  - " +:+ strip (lower name)) ∈ current <->
               accepts self name))
    as (current & Hcurrent & Hiff).
  { destruct (dict_lookup (lower (language self)) default_speakers_items)
      as [speakers|] eqn:Hlookup.
    - pose proof (dict_lookup_Some _ _ _ Hlookup) as Hkey.
      destruct (current_language_block_found self _ speakers Hkey eq_refl)
        as (heading & Hblock & rest & ->).
      eexists. split; [exact Hblock|]. intros Hclean name.
      rewrite accepts_lookup. unfold normalise. rewrite Hclean, Hlookup.
      rewrite !elem_of_cons, speaker_line_listed. split.
      + intros [Heq|[Heq|Hin]]; [discriminate Heq|discriminate Heq|].
        apply list_elem_of_In, in_map_iff in Hin as ([k p] & Hk & Hin).
        cbn [fst] in Hk. subst k. exists speakers, p. split; [done|].
        apply dict_lookup_elem; [by eapply catalog_names_distinct|].
        by apply list_elem_of_In.
      + intros (speakers' & path & [= <-] & Hname). right. right.
        apply dict_lookup_Some in Hname.
        apply list_elem_of_In, in_map_iff. exists (strip (lower name), path).
        split; [done|]. by apply list_elem_of_In.
    - eexists. split.
      { unfold current_language_block. by rewrite Hlookup. }
      intros Hclean name. rewrite accepts_lookup. unfold normalise.
      rewrite Hclean, Hlookup. split.
      + intros [Heq|Hin%elem_of_nil]%elem_of_cons; [discriminate Heq|done].
      + by intros (speakers & path & Hno & _). }
  eexists _, current. split; [|by split].
  unfold print_default_speakers. rewrite Hblocks, Hcurrent.
  cbn [mbind result_bind]. unfold current_heading, closing_line.
  rewrite (app_assoc _ blocks). reflexivity.
Qed.

(** X29.  The listing lowercases the current language but does not strip
    it, while the lookup does both.  On an interface whose language has
    white space around the name of a catalog language, the listing
    reports that no speakers are available, although
    [load_default_speaker] finds them. *)
Theorem padded_language_is_listed_without_speakers {Model}
    (self : Interface Model) :
  lower (language self) <> strip (lower (language self)) ->
  strip (lower (language self)) ∈ ["en"; "ja"; "ko"; "zh"] ->
  current_language_block self
  = Ok ["No speakers available for current language: " +:+ language self] /\
  accepts self "male_1".
Proof.
  intros Hpadded Hin. split.
  - unfold current_language_block. rewrite dict_lookup_None; [done|].
    rewrite catalog_languages. intros Hkey. apply Hpadded.
    repeat (apply elem_of_cons in Hkey as [Hkey|Hkey]);
      try (by apply elem_of_nil in Hkey); by rewrite Hkey.
  - apply accepts_lookup. unfold normalise.
    repeat (apply elem_of_cons in Hin as [Hin|Hin]);
      try (by apply elem_of_nil in Hin); rewrite Hin;
      eexists _, _; split; reflexivity.
Qed.
End ListedAndLoadable.

Section SampleCatalog.
#[local] Existing Instance Sample.env.

Definition ja_speakers : list (string * string) :=
  [("male_1", get_speaker_path "ja_male_1");
   ("female_1", get_speaker_path "ja_female_1");
   ("female_2", get_speaker_path "ja_female_2");
   ("female_3", get_speaker_path "ja_female_3")].

Lemma ja_in_catalog : ("ja", ja_speakers) ∈ default_speakers_items.
Proof. right. left. Qed.

Lemma ja_male_1_in_catalog :
  ("male_1", get_speaker_path "ja_male_1") ∈ ja_speakers.
Proof. left. Qed.

(** The Japanese [male_1], asked for on an interface whose language is
    written [" JA "]. *)
Lemma catalog_entries_load_witness :
  let self := set_language (Sample.hf []) " JA " in
  ("ja", ja_speakers) ∈ default_speakers_items /\
  ("male_1", get_speaker_path "ja_male_1") ∈ ja_speakers /\
  get_speaker_path "ja_male_1" = get_speaker_path ("ja" +:+ "_" +:+ "male_1") /\
  InterfaceHF.load_default_speaker self "male_1" Sample.fs
  = InterfaceHF.load_speaker self (get_speaker_path "ja_male_1") Sample.fs.
Proof.
  intros self.
  split; [exact ja_in_catalog|]. split; [exact ja_male_1_in_catalog|].
  destruct (catalog_entries_load "ja" ja_speakers "male_1"
              (get_speaker_path "ja_male_1") ja_in_catalog
              ja_male_1_in_catalog) as (Hpath & _ & _ & Hload).
  split; [exact Hpath|]. exact (Hload _ self Sample.fs eq_refl).
Defined.

Lemma catalog_paths_distinct_witness :
  ("ja", ja_speakers) ∈ default_speakers_items /\
  ("male_1", get_speaker_path "ja_male_1") ∈ ja_speakers /\
  "ja" = "ja" /\ "male_1" = "male_1".
Proof.
  split; [exact ja_in_catalog|]. split; [exact ja_male_1_in_catalog|].
  exact (catalog_paths_distinct "ja" ja_speakers "male_1" "ja" ja_speakers
           "male_1" (get_speaker_path "ja_male_1") ja_in_catalog
           ja_male_1_in_catalog ja_in_catalog ja_male_1_in_catalog).
Defined.

(** German is not in the catalog. *)
Lemma load_default_speaker_unknown_language_witness :
  let self := set_language (Sample.hf []) "de" in
  (strip (lower (language self)) ∉ ["en"; "ja"; "ko"; "zh"]) /\
  InterfaceHF.load_default_speaker self "male_1" Sample.fs
  = Raise (ValueError "Speaker for language de not found").
Proof.
  intros self.
  assert (strip (lower (language self)) ∉ ["en"; "ja"; "ko"; "zh"]) as Hno
    by (by apply (bool_decide_unpack _)).
  split; [exact Hno|].
  exact (proj1 (load_default_speaker_unknown_language self) Hno "male_1"
           Sample.fs).
Defined.

Lemma change_language_composes_witness :
  let self := Sample.hf [] in
  let self1 := set_language self "ja" in
  InterfaceHF.change_language self " JA " = Ok self1 /\
  InterfaceHF.change_language self1 " JA " = Ok self1 /\
  InterfaceHF.change_language self1 "ko"
  = InterfaceHF.change_language self "ko".
Proof.
  intros self self1.
  assert (InterfaceHF.change_language self " JA " = Ok self1) as Hchange
    by reflexivity.
  destruct (change_language_composes self self1 " JA " Hchange)
    as (_ & _ & _ & _ & _ & _ & _ & Hagain & Hlater).
  split; [exact Hchange|]. split; [exact Hagain|exact (Hlater "ko")].
Defined.

(** An interface whose configuration lists its one language in capital
    letters. *)
Definition shouting : InterfaceHF.t :=
  InterfaceHF.init
    {| config_language := "EN"; config_languages := ["EN"];
       config_verbose := false; max_seq_length := 4096 |}
    Sample.sample_codec Sample.sample_pp {| hf_generate := fun _ _ => Ok [] |}.

(** An interface built from the default configuration, which lists no
    language. *)
Definition by_default : InterfaceHF.t :=
  InterfaceHF.init default_config Sample.sample_codec Sample.sample_pp
    {| hf_generate := fun _ _ => Ok [] |}.

Lemma change_language_selects_listed_lower_case_witness :
  "EN" ∈ languages shouting /\
  (strip (lower "EN") ∉ languages shouting) /\
  InterfaceHF.change_language shouting "EN"
  = Raise (ValueError "Language en is not supported by the current model") /\
  languages by_default = [] /\
  InterfaceHF.change_language by_default "en"
  = Raise (ValueError "Language en is not supported by the current model").
Proof.
  assert ("EN" ∈ languages shouting) as Hin by left.
  assert (strip (lower "EN") ∉ languages shouting) as Hno
    by (by apply (bool_decide_unpack _)).
  split; [exact Hin|]. split; [exact Hno|]. split.
  - exact (proj1 (proj2 (change_language_selects_listed_lower_case shouting))
             "EN" Hin Hno).
  - split; [reflexivity|].
    exact (proj2 (proj2 (change_language_selects_listed_lower_case
                           by_default)) eq_refl "en").
Defined.

Lemma listed_speakers_are_the_loadable_ones_witness :
  let self := Sample.hf [] in
  strip (lower (language self)) = lower (language self) /\
  exists before current,
    print_default_speakers self
    = Ok (before ++ [current_heading] ++ current ++ [closing_line]) /\
    current_language_block self = Ok current /\
    forall name,
      ("  - " +:+ strip (lower name)) ∈ current <-> accepts self name.
Proof.
  intros self.
  assert (strip (lower (language self)) = lower (language self)) as Hclean
    by reflexivity.
  split; [exact Hclean|].
  destruct (listed_speakers_are_the_loadable_ones self)
    as (before & current & Hprint & Hblock & Hiff).
  exists before, current. split; [exact Hprint|]. split; [exact Hblock|].
  exact (Hiff Hclean).
Defined.

(** An interface whose configuration writes the language [" EN"]. *)
Definition padded : InterfaceHF.t :=
  InterfaceHF.init
    {| config_language := " EN"; config_languages := ["en"];
       config_verbose := false; max_seq_length := 4096 |}
    Sample.sample_codec Sample.sample_pp {| hf_generate := fun _ _ => Ok [] |}.

Lemma padded_language_is_listed_without_speakers_witness :
  let self := padded in
  lower (language self) <> strip (lower (language self)) /\
  strip (lower (language self)) ∈ ["en"; "ja"; "ko"; "zh"] /\
  current_language_block self
  = Ok ["No speakers available for current language:  EN"] /\
  accepts self "male_1".
Proof.
  intros self.
  assert (lower (language self) <> strip (lower (language self))) as Hpadded
    by discriminate.
  assert (strip (lower (language self)) ∈ ["en"; "ja"; "ko"; "zh"]) as Hin
    by left.
  split; [exact Hpadded|]. split; [exact Hin|].
  exact (padded_language_is_listed_without_speakers self Hpadded Hin).
Defined.
End SampleCatalog.
